(** * Bison symbol table (src/symtab.c): a shallow embedding and its properties

    The C translation unit keeps its data in global variables and in
    heap-allocated [symbol] records reached through pointers.  The embedding
    threads one [state] value through every operation: the records live in a
    finite map from addresses to records, so that two pointers to one record
    (alias pairs, the distinguished symbols, the packed vector) really share
    it.  Operations run in a small state-and-failure monad: a failure is a
    tripped assertion, a [fatal] diagnostic (the process exits) or an access
    through a pointer that holds no record. *)

From Stdlib Require Import ZArith Lia Ascii String DecimalString DecimalZ.
From stdpp Require Import gmap strings list fin_maps sorting relations.

Local Open Scope Z_scope.

(** ** Data model *)

(** Addresses of [symbol] records. *)
Abbreviation ptr := nat (only parsing).

(** Modelled from the spec: [location] comes from location.h, which is not
    among the sources; the spec describes it as opaque and totally ordered
    by [location_cmp]. *)
Definition location : Type := nat.

Definition location_cmp (a b : location) : Z := Z.of_nat a - Z.of_nat b.

Definition empty_location : location := 0%nat.

Inductive symbol_class : Type := unknown_sym | token_sym | nterm_sym.

Inductive status : Type := undeclared | needed | declared.

(** The source names [undef_assoc] and [precedence_assoc]; the three other
    values are the ones the spec lists (left, right, nonassoc). *)
Inductive assoc : Type :=
  undef_assoc | precedence_assoc | right_assoc | left_assoc | non_assoc.

Inductive code_props_type : Type := destructor | printer.

(** Modelled from the spec: the [kind] of a code block is one of none, keep,
    user (scan-code.h is not among the sources); symtab.c only tests
    against [CODE_PROPS_NONE]. *)
Inductive code_props_kind : Type :=
  CODE_PROPS_NONE | CODE_PROPS_KEEP | CODE_PROPS_USER.

Record code_props : Type := mk_code_props {
  kind : code_props_kind;
  code : option string;
  cp_location : location;
  is_used : bool
}.

Definition code_props_none_init : code_props :=
  mk_code_props CODE_PROPS_NONE None empty_location false.

Record symbol : Type := mk_symbol {
  tag : string;
  s_location : location;
  type_name : option string;
  type_location : location;
  props : code_props_type -> code_props;
  number : Z;
  prec_location : location;
  prec : Z;
  s_assoc : assoc;
  user_token_number : Z;
  alias : option ptr;
  class : symbol_class;
  s_status : status
}.

Record semantic_type : Type := mk_semantic_type {
  t_tag : string;
  t_location : location;
  t_status : status;
  t_props : code_props_type -> code_props
}.

#[global] Instance symbol_class_eq_dec : EqDecision symbol_class.
Proof. solve_decision. Defined.
#[global] Instance status_eq_dec : EqDecision status.
Proof. solve_decision. Defined.
#[global] Instance assoc_eq_dec : EqDecision assoc.
Proof. solve_decision. Defined.
#[global] Instance code_props_type_eq_dec : EqDecision code_props_type.
Proof. solve_decision. Defined.
#[global] Instance code_props_kind_eq_dec : EqDecision code_props_kind.
Proof. solve_decision. Defined.

(** Field updates of a [symbol] record. *)
Definition set_type_name (v : option string) (s : symbol) : symbol :=
  mk_symbol (tag s) (s_location s) v (type_location s) (props s) (number s)
    (prec_location s) (prec s) (s_assoc s) (user_token_number s) (alias s)
    (class s) (s_status s).
Definition set_type_location (v : location) (s : symbol) : symbol :=
  mk_symbol (tag s) (s_location s) (type_name s) v (props s) (number s)
    (prec_location s) (prec s) (s_assoc s) (user_token_number s) (alias s)
    (class s) (s_status s).
Definition set_props (v : code_props_type -> code_props) (s : symbol) : symbol :=
  mk_symbol (tag s) (s_location s) (type_name s) (type_location s) v (number s)
    (prec_location s) (prec s) (s_assoc s) (user_token_number s) (alias s)
    (class s) (s_status s).
Definition set_number (v : Z) (s : symbol) : symbol :=
  mk_symbol (tag s) (s_location s) (type_name s) (type_location s) (props s) v
    (prec_location s) (prec s) (s_assoc s) (user_token_number s) (alias s)
    (class s) (s_status s).
Definition set_prec_location (v : location) (s : symbol) : symbol :=
  mk_symbol (tag s) (s_location s) (type_name s) (type_location s) (props s)
    (number s) v (prec s) (s_assoc s) (user_token_number s) (alias s)
    (class s) (s_status s).
Definition set_prec (v : Z) (s : symbol) : symbol :=
  mk_symbol (tag s) (s_location s) (type_name s) (type_location s) (props s)
    (number s) (prec_location s) v (s_assoc s) (user_token_number s) (alias s)
    (class s) (s_status s).
Definition set_assoc (v : assoc) (s : symbol) : symbol :=
  mk_symbol (tag s) (s_location s) (type_name s) (type_location s) (props s)
    (number s) (prec_location s) (prec s) v (user_token_number s) (alias s)
    (class s) (s_status s).
Definition set_user_token_number (v : Z) (s : symbol) : symbol :=
  mk_symbol (tag s) (s_location s) (type_name s) (type_location s) (props s)
    (number s) (prec_location s) (prec s) (s_assoc s) v (alias s)
    (class s) (s_status s).
Definition set_alias (v : option ptr) (s : symbol) : symbol :=
  mk_symbol (tag s) (s_location s) (type_name s) (type_location s) (props s)
    (number s) (prec_location s) (prec s) (s_assoc s) (user_token_number s) v
    (class s) (s_status s).
Definition set_class (v : symbol_class) (s : symbol) : symbol :=
  mk_symbol (tag s) (s_location s) (type_name s) (type_location s) (props s)
    (number s) (prec_location s) (prec s) (s_assoc s) (user_token_number s)
    (alias s) v (s_status s).
Definition set_status (v : status) (s : symbol) : symbol :=
  mk_symbol (tag s) (s_location s) (type_name s) (type_location s) (props s)
    (number s) (prec_location s) (prec s) (s_assoc s) (user_token_number s)
    (alias s) (class s) v.

(** [p[kind] = c] on a two-slot [props] array. *)
Definition props_upd (p : code_props_type -> code_props)
    (k : code_props_type) (c : code_props) : code_props_type -> code_props :=
  fun k' => if decide (k' = k) then c else p k'.

Definition set_is_used (b : bool) (c : code_props) : code_props :=
  mk_code_props (kind c) (code c) (cp_location c) b.

(** ** Diagnostics

    The sink ([complain], [complain_indent]) is an external service; the
    embedding records every call, in order, with the arguments the C code
    passes.  A message is kept as its format string and argument list. *)

Inductive warnings : Type := Wyacc | Wprecedence | Wother | complaint | fatal.

#[global] Instance warnings_eq_dec : EqDecision warnings.
Proof. solve_decision. Defined.

Inductive fmt_arg : Type := arg_s (s : string) | arg_d (n : Z).

Record diagnostic : Type := mk_diagnostic {
  d_loc : option location;
  d_flags : warnings;
  d_indent : option nat;
  d_format : string;
  d_args : list fmt_arg
}.

(** ** Global state of the translation unit *)

Record state : Type := mk_state {
  heap : gmap nat symbol;
  symbol_table : gmap string nat;
  semantic_type_table : gmap string semantic_type;
  symbols_sorted : option (list nat);
  semantic_types_sorted : option (list string);
  symbols : list (option nat);
  nsyms : Z;
  ntokens : Z;
  nvars : Z;
  errtoken : option nat;
  undeftoken : option nat;
  endtoken : option nat;
  accept : option nat;
  startsymbol : option nat;
  startsymbol_location : location;
  max_user_token_number : Z;
  token_translations : list Z;
  code_props_none : code_props;
  messages : list diagnostic
}.

Definition with_heap (v : gmap nat symbol) (st : state) : state :=
  mk_state v (symbol_table st) (semantic_type_table st) (symbols_sorted st)
    (semantic_types_sorted st) (symbols st) (nsyms st) (ntokens st) (nvars st)
    (errtoken st) (undeftoken st) (endtoken st) (accept st) (startsymbol st)
    (startsymbol_location st) (max_user_token_number st)
    (token_translations st) (code_props_none st) (messages st).
Definition with_symbol_table (v : gmap string nat) (st : state) : state :=
  mk_state (heap st) v (semantic_type_table st) (symbols_sorted st)
    (semantic_types_sorted st) (symbols st) (nsyms st) (ntokens st) (nvars st)
    (errtoken st) (undeftoken st) (endtoken st) (accept st) (startsymbol st)
    (startsymbol_location st) (max_user_token_number st)
    (token_translations st) (code_props_none st) (messages st).
Definition with_semantic_type_table (v : gmap string semantic_type)
    (st : state) : state :=
  mk_state (heap st) (symbol_table st) v (symbols_sorted st)
    (semantic_types_sorted st) (symbols st) (nsyms st) (ntokens st) (nvars st)
    (errtoken st) (undeftoken st) (endtoken st) (accept st) (startsymbol st)
    (startsymbol_location st) (max_user_token_number st)
    (token_translations st) (code_props_none st) (messages st).
Definition with_symbols_sorted (v : option (list nat)) (st : state) : state :=
  mk_state (heap st) (symbol_table st) (semantic_type_table st) v
    (semantic_types_sorted st) (symbols st) (nsyms st) (ntokens st) (nvars st)
    (errtoken st) (undeftoken st) (endtoken st) (accept st) (startsymbol st)
    (startsymbol_location st) (max_user_token_number st)
    (token_translations st) (code_props_none st) (messages st).
Definition with_semantic_types_sorted (v : option (list string))
    (st : state) : state :=
  mk_state (heap st) (symbol_table st) (semantic_type_table st)
    (symbols_sorted st) v (symbols st) (nsyms st) (ntokens st) (nvars st)
    (errtoken st) (undeftoken st) (endtoken st) (accept st) (startsymbol st)
    (startsymbol_location st) (max_user_token_number st)
    (token_translations st) (code_props_none st) (messages st).
Definition with_symbols (v : list (option nat)) (st : state) : state :=
  mk_state (heap st) (symbol_table st) (semantic_type_table st)
    (symbols_sorted st) (semantic_types_sorted st) v (nsyms st) (ntokens st)
    (nvars st) (errtoken st) (undeftoken st) (endtoken st) (accept st)
    (startsymbol st) (startsymbol_location st) (max_user_token_number st)
    (token_translations st) (code_props_none st) (messages st).
Definition with_nsyms (v : Z) (st : state) : state :=
  mk_state (heap st) (symbol_table st) (semantic_type_table st)
    (symbols_sorted st) (semantic_types_sorted st) (symbols st) v (ntokens st)
    (nvars st) (errtoken st) (undeftoken st) (endtoken st) (accept st)
    (startsymbol st) (startsymbol_location st) (max_user_token_number st)
    (token_translations st) (code_props_none st) (messages st).
Definition with_ntokens (v : Z) (st : state) : state :=
  mk_state (heap st) (symbol_table st) (semantic_type_table st)
    (symbols_sorted st) (semantic_types_sorted st) (symbols st) (nsyms st) v
    (nvars st) (errtoken st) (undeftoken st) (endtoken st) (accept st)
    (startsymbol st) (startsymbol_location st) (max_user_token_number st)
    (token_translations st) (code_props_none st) (messages st).
Definition with_nvars (v : Z) (st : state) : state :=
  mk_state (heap st) (symbol_table st) (semantic_type_table st)
    (symbols_sorted st) (semantic_types_sorted st) (symbols st) (nsyms st)
    (ntokens st) v (errtoken st) (undeftoken st) (endtoken st) (accept st)
    (startsymbol st) (startsymbol_location st) (max_user_token_number st)
    (token_translations st) (code_props_none st) (messages st).
Definition with_endtoken (v : option nat) (st : state) : state :=
  mk_state (heap st) (symbol_table st) (semantic_type_table st)
    (symbols_sorted st) (semantic_types_sorted st) (symbols st) (nsyms st)
    (ntokens st) (nvars st) (errtoken st) (undeftoken st) v (accept st)
    (startsymbol st) (startsymbol_location st) (max_user_token_number st)
    (token_translations st) (code_props_none st) (messages st).
Definition with_max_user_token_number (v : Z) (st : state) : state :=
  mk_state (heap st) (symbol_table st) (semantic_type_table st)
    (symbols_sorted st) (semantic_types_sorted st) (symbols st) (nsyms st)
    (ntokens st) (nvars st) (errtoken st) (undeftoken st) (endtoken st)
    (accept st) (startsymbol st) (startsymbol_location st) v
    (token_translations st) (code_props_none st) (messages st).
Definition with_token_translations (v : list Z) (st : state) : state :=
  mk_state (heap st) (symbol_table st) (semantic_type_table st)
    (symbols_sorted st) (semantic_types_sorted st) (symbols st) (nsyms st)
    (ntokens st) (nvars st) (errtoken st) (undeftoken st) (endtoken st)
    (accept st) (startsymbol st) (startsymbol_location st)
    (max_user_token_number st) v (code_props_none st) (messages st).
Definition with_code_props_none (v : code_props) (st : state) : state :=
  mk_state (heap st) (symbol_table st) (semantic_type_table st)
    (symbols_sorted st) (semantic_types_sorted st) (symbols st) (nsyms st)
    (ntokens st) (nvars st) (errtoken st) (undeftoken st) (endtoken st)
    (accept st) (startsymbol st) (startsymbol_location st)
    (max_user_token_number st) (token_translations st) v (messages st).
Definition with_messages (v : list diagnostic) (st : state) : state :=
  mk_state (heap st) (symbol_table st) (semantic_type_table st)
    (symbols_sorted st) (semantic_types_sorted st) (symbols st) (nsyms st)
    (ntokens st) (nvars st) (errtoken st) (undeftoken st) (endtoken st)
    (accept st) (startsymbol st) (startsymbol_location st)
    (max_user_token_number st) (token_translations st) (code_props_none st) v.

(** ** The state-and-failure monad *)

Inductive failure : Type :=
  | assertion_failed   (* [aver] or [assert] tripped *)
  | fatal_exit         (* a [fatal] diagnostic ended the process *)
  | invalid_access     (* a pointer or index that holds nothing was used *)
  | memory_exhausted.  (* [xalloc_die] ended the process *)

Inductive result (A : Type) : Type :=
  | Ok (a : A) (st : state)
  | Stop (f : failure) (st : state).
Arguments Ok {A} a st.
Arguments Stop {A} f st.

Definition M (A : Type) : Type := state -> result A.

Definition ret {A} (a : A) : M A := fun st => Ok a st.

Definition bind {A B} (m : M A) (k : A -> M B) : M B :=
  fun st => match m st with
            | Ok a st' => k a st'
            | Stop f st' => Stop f st'
            end.

Notation "'let*' x ':=' m 'in' k" := (bind m (fun x => k))
  (at level 10, x name, m at level 100, k at level 200, only parsing).
Notation "m1 >> m2" := (bind m1 (fun _ => m2))
  (at level 100, m2 at level 200, right associativity, only parsing).

Definition stop {A} (f : failure) : M A := fun st => Stop f st.

Definition gets {A} (f : state -> A) : M A := fun st => Ok (f st) st.

Definition modify (f : state -> state) : M unit := fun st => Ok tt (f st).

Definition when (b : bool) (m : M unit) : M unit := if b then m else ret tt.

Definition aver (b : bool) : M unit := if b then ret tt else stop assertion_failed.

(** Iteration of a loop body over the successive values of its index. *)
Fixpoint for_each {A} (l : list A) (body : A -> M unit) : M unit :=
  match l with
  | [] => ret tt
  | x :: l' => body x >> for_each l' body
  end.

(** [*p] for reading, and [p->field = v] through [update]. *)
Definition deref (p : nat) : M symbol :=
  fun st => match heap st !! p with
            | Some s => Ok s st
            | None => Stop invalid_access st
            end.

Definition update (p : nat) (f : symbol -> symbol) : M unit :=
  fun st => match heap st !! p with
            | Some s => Ok tt (with_heap (<[p := f s]> (heap st)) st)
            | None => Stop invalid_access st
            end.

(** A pointer variable that may be NULL is dereferenced. *)
Definition nonnull {A} (o : option A) : M A :=
  match o with Some a => ret a | None => stop invalid_access end.

Definition complain (loc : option location) (flags : warnings)
    (fmt : string) (args : list fmt_arg) : M unit :=
  modify (fun st => with_messages
            (messages st ++ [mk_diagnostic loc flags None fmt args]) st) >>
  if decide (flags = fatal) then stop fatal_exit else ret tt.

Definition complain_indent (loc : location) (flags : warnings) (indent : nat)
    (fmt : string) (args : list fmt_arg) : M unit :=
  modify (fun st => with_messages
            (messages st ++ [mk_diagnostic (Some loc) flags (Some indent) fmt args]) st) >>
  if decide (flags = fatal) then stop fatal_exit else ret tt.

(** Loops that carry a local variable across iterations. *)
Fixpoint for_fold {A S} (l : list A) (body : A -> S -> M S) (s : S) : M S :=
  match l with
  | [] => ret s
  | x :: l' => let* s' := body x s in for_fold l' body s'
  end.

(** The index values [0 .. n-1] of [for (i = 0; i < n; ++i)]. *)
Definition upto (n : Z) : list Z := Z.of_nat <$> seq 0 (Z.to_nat n).

(** ** Strings as the C code reads them *)

Definition NUL : ascii := "000"%char.
Definition dquote : ascii := "034"%char.
Definition squote : ascii := "039"%char.

(** [s[0]], the terminating NUL for the empty string. *)
Definition first_char (s : string) : ascii :=
  match s with String c _ => c | EmptyString => NUL end.

(** [s[1]] when [s[0]] is not NUL. *)
Definition second_char (s : string) : ascii :=
  match s with String _ r => first_char r | EmptyString => NUL end.

Fixpoint strchr (s : string) (c : ascii) : bool :=
  match s with
  | EmptyString => false
  | String c' r => if decide (c' = c) then true else strchr r c
  end.

Definition strcmp (a b : string) : Z :=
  match String.compare a b with Lt => -1 | Eq => 0 | Gt => 1 end.

Section Symtab.

(** Constants and helpers of headers that are not among the sources
    (symtab.h, complain.h, assoc.h): they are parameters of the
    development. *)
Variable NUMBER_UNDEFINED : Z.
Variable USER_NUMBER_UNDEFINED : Z.
Variable USER_NUMBER_HAS_STRING_ALIAS : Z.
Variable SYMBOL_NUMBER_MAXIMUM : Z.
Variable SUB_INDENT : nat.
Variable assoc_to_string : assoc -> string.

(** ** Symbol mutators *)

Definition symbol_redeclaration (s : nat) (what : string)
    (first second : location) : M unit :=
  let* r := deref s in
  let i := 0%nat in
  complain_indent second complaint i
    "%s redeclaration for %s" [arg_s what; arg_s (tag r)] >>
  let i := (i + SUB_INDENT)%nat in
  complain_indent first complaint i "previous declaration" [].

(** [type_name'] is [None] for a NULL [uniqstr]. *)
Definition symbol_type_set (sym : nat) (type_name' : option string)
    (loc : location) : M unit :=
  match type_name' with
  | Some _ =>
      let* s := deref sym in
      when (bool_decide (type_name s <> None))
        (symbol_redeclaration sym "%type" (type_location s) loc) >>
      update sym (set_type_name type_name') >>
      update sym (set_type_location loc)
  | None => ret tt
  end.

Definition code_props_type_string (k : code_props_type) : string :=
  match k with
  | destructor => "%destructor"
  | printer => "%printer"
  end.

Definition symbol_code_props_set (sym : nat) (k : code_props_type)
    (c : code_props) : M unit :=
  let* s := deref sym in
  when (bool_decide (code (props s k) <> None))
    (symbol_redeclaration sym (code_props_type_string k)
       (cp_location (props s k)) (cp_location c)) >>
  update sym (fun s => set_props (props_upd (props s) k c) s).

Definition symbol_class_set (sym : nat) (class' : symbol_class)
    (loc : location) (declaring : bool) : M unit :=
  let* s := deref sym in
  let* warned :=
    (if bool_decide (class s <> unknown_sym /\ class s <> class') then
       complain (Some loc) complaint "symbol %s redefined" [arg_s (tag s)] >>
       ret true
     else ret false) in
  (if bool_decide (class' = nterm_sym /\ class s <> nterm_sym) then
     let* n := gets nvars in
     modify (with_nvars (n + 1)) >> update sym (set_number n)
   else if bool_decide (class' = token_sym /\ number s = NUMBER_UNDEFINED) then
     let* n := gets ntokens in
     modify (with_ntokens (n + 1)) >> update sym (set_number n)
   else ret tt) >>
  update sym (set_class class') >>
  if declaring then
    (let* s := deref sym in
     when (bool_decide (s_status s = declared) && negb warned)
       (complain (Some loc) Wother "symbol %s redeclared" [arg_s (tag s)])) >>
    update sym (set_status declared)
  else ret tt.

Definition symbol_precedence_set (sym : nat) (prec' : Z) (a : assoc)
    (loc : location) : M unit :=
  (if bool_decide (a <> undef_assoc) then
     let* s := deref sym in
     when (bool_decide (prec s <> 0))
       (symbol_redeclaration sym (assoc_to_string a) (prec_location s) loc) >>
     update sym (set_prec prec') >>
     update sym (set_assoc a) >>
     update sym (set_prec_location loc)
   else ret tt) >>
  (* Only terminals have a precedence. *)
  symbol_class_set sym token_sym loc false.

Definition symbol_user_token_number_set (sym : nat) (user_token_number' : Z)
    (loc : location) : M unit :=
  let* s := deref sym in
  let* user_token_numberp :=
    (if bool_decide (user_token_number s <> USER_NUMBER_HAS_STRING_ALIAS)
     then ret sym
     else nonnull (alias s)) in
  let* t := deref user_token_numberp in
  when (bool_decide (user_token_number t <> USER_NUMBER_UNDEFINED
                     /\ user_token_number t <> user_token_number'))
    (complain (Some loc) complaint
       "redefining user token number of %s" [arg_s (tag s)]) >>
  update user_token_numberp (set_user_token_number user_token_number') >>
  (* User defined $end token? *)
  if bool_decide (user_token_number' = 0) then
    modify (with_endtoken (Some sym)) >>
    let* e := deref sym in
    when (bool_decide (number e <> NUMBER_UNDEFINED))
      (modify (fun st => with_ntokens (ntokens st - 1) st)) >>
    update sym (set_number 0)
  else ret tt.

Definition symbol_make_alias (sym str : nat) (loc : location) : M unit :=
  let* r := deref str in
  if bool_decide (alias r <> None) then
    complain (Some loc) Wother
      "symbol %s used more than once as a literal string" [arg_s (tag r)]
  else
    let* s := deref sym in
    if bool_decide (alias s <> None) then
      complain (Some loc) Wother
        "symbol %s given more than one literal string" [arg_s (tag s)]
    else
      update str (set_class token_sym) >>
      (let* s := deref sym in
       update str (set_user_token_number (user_token_number s))) >>
      update sym (set_user_token_number USER_NUMBER_HAS_STRING_ALIAS) >>
      update str (set_alias (Some sym)) >>
      update sym (set_alias (Some str)) >>
      (let* s := deref sym in update str (set_number (number s))) >>
      let* s := deref sym in
      symbol_type_set str (type_name s) loc.

(** ** The two stores

    [uniqstr] handles are interned strings: handle equality is string
    equality, so a tag is modelled by the string itself.  The symbol hash
    table maps a tag to the address of its record.  A [semantic_type] record
    is only ever reached through its table, so the table holds the record
    and a pointer to it is its tag. *)

Definition symbol_new (tag' : string) (loc : location) : M nat :=
  let* res := gets (fun st => fresh (dom (heap st))) in
  (* If the tag is not a string (starts with a double quote), check
     that it is valid for Yacc. *)
  when (bool_decide (first_char tag' <> dquote /\ first_char tag' <> squote)
        && strchr tag' "-"%char)
    (complain (Some loc) Wyacc
       "POSIX Yacc forbids dashes in symbol names: %s" [arg_s tag']) >>
  modify (fun st => with_heap
     (<[res := mk_symbol tag' loc None empty_location
                 (fun _ => code_props_none_init) NUMBER_UNDEFINED
                 empty_location 0 undef_assoc USER_NUMBER_UNDEFINED None
                 unknown_sym undeclared]> (heap st)) st) >>
  let* n := gets nsyms in
  when (bool_decide (n = SYMBOL_NUMBER_MAXIMUM))
    (complain None fatal "too many symbols in input grammar (limit is %d)"
       [arg_d SYMBOL_NUMBER_MAXIMUM]) >>
  modify (fun st => with_nsyms (nsyms st + 1) st) >>
  ret res.

Definition semantic_type_new (tag' : string) (loc : option location)
    : semantic_type :=
  mk_semantic_type tag'
    (match loc with Some l => l | None => empty_location end)
    undeclared (fun _ => code_props_none_init).

Definition symbol_from_uniqstr (key : string) (loc : location) : M nat :=
  let* entry := gets (fun st => symbol_table st !! key) in
  match entry with
  | Some e => ret e
  | None =>
      (* First insertion in the hash. *)
      let* sorted := gets symbols_sorted in
      aver (bool_decide (sorted = None)) >>
      let* e := symbol_new key loc in
      modify (fun st => with_symbol_table (<[key := e]> (symbol_table st)) st) >>
      ret e
  end.

Definition semantic_type_from_uniqstr (key : string) (loc : option location)
    : M string :=
  let* entry := gets (fun st => semantic_type_table st !! key) in
  match entry with
  | Some _ => ret key
  | None =>
      (* First insertion in the hash. *)
      modify (fun st => with_semantic_type_table
                (<[key := semantic_type_new key loc]> (semantic_type_table st)) st) >>
      ret key
  end.

Definition symbol_get (key : string) (loc : location) : M nat :=
  symbol_from_uniqstr key loc.

Definition semantic_type_get (key : string) (loc : option location) : M string :=
  semantic_type_from_uniqstr key loc.

(** [*t] and [t->field = v] for a semantic type. *)
Definition deref_type (t : string) : M semantic_type :=
  fun st => match semantic_type_table st !! t with
            | Some r => Ok r st
            | None => Stop invalid_access st
            end.

Definition update_type (t : string) (f : semantic_type -> semantic_type)
    : M unit :=
  fun st => match semantic_type_table st !! t with
            | Some r => Ok tt (with_semantic_type_table
                                 (<[t := f r]> (semantic_type_table st)) st)
            | None => Stop invalid_access st
            end.



(** The [code_props *] that [symbol_code_props_get] returns points into a
    symbol, into a semantic type, or at the global [code_props_none]. *)
Inductive code_props_ptr : Type :=
  | props_of_symbol (p : nat) (k : code_props_type)
  | props_of_type (t : string) (k : code_props_type)
  | props_none.

Definition symbol_code_props_get (sym : nat) (k : code_props_type)
    : M code_props_ptr :=
  let* s := deref sym in
  (* Per-symbol code props. *)
  if bool_decide (code (props s k) <> None) then ret (props_of_symbol sym k)
  else
    (* Per-type code props. *)
    let* found :=
      (match type_name s with
       | Some tn =>
           let* t := semantic_type_get tn None in
           let* r := deref_type t in
           if bool_decide (code (t_props r k) <> None)
           then ret (Some (props_of_type t k)) else ret None
       | None => ret None
       end) in
    match found with
    | Some c => ret c
    | None =>
        (* Apply default code props's only to user-defined symbols. *)
        let* err := gets errtoken in
        if bool_decide (first_char (tag s) <> "$"%char /\ Some sym <> err) then
          let* t := semantic_type_get
                      (match type_name s with Some _ => "*" | None => "" end)
                      None in
          let* r := deref_type t in
          if bool_decide (code (t_props r k) <> None)
          then ret (props_of_type t k) else ret props_none
        else ret props_none
    end.

(** [c->is_used = true] through such a pointer. *)
Definition mark_used (c : code_props_ptr) : M unit :=
  match c with
  | props_of_symbol p k =>
      update p (fun s => set_props (props_upd (props s) k
                                      (set_is_used true (props s k))) s)
  | props_of_type t k =>
      update_type t (fun r => mk_semantic_type (t_tag r) (t_location r)
                                (t_status r)
                                (props_upd (t_props r) k
                                   (set_is_used true (t_props r k))))
  | props_none =>
      modify (fun st => with_code_props_none
                          (set_is_used true (code_props_none st)) st)
  end.

(** ** Finalization: check-defined *)

Definition symbol_check_defined (sym : nat) : M unit :=
  let* s := deref sym in
  (if bool_decide (class s = unknown_sym) then
     aver (bool_decide (s_status s <> declared)) >>
     complain (Some (s_location s))
       (if bool_decide (s_status s = needed) then complaint else Wother)
       "symbol %s is used, but is not defined as a token and has no rules"
       [arg_s (tag s)] >>
     update sym (set_class nterm_sym) >>
     let* n := gets nvars in
     modify (with_nvars (n + 1)) >> update sym (set_number n)
   else ret tt) >>
  for_each [destructor; printer]
    (fun i => let* c := symbol_code_props_get sym i in mark_used c) >>
  (* Set the semantic type status associated to the current symbol to
     'declared' so that we could check semantic types unnecessary uses. *)
  let* s := deref sym in
  match type_name s with
  | Some tn =>
      let* sem_type := semantic_type_get tn None in
      update_type sem_type
        (fun r => mk_semantic_type (t_tag r) (t_location r) declared (t_props r))
  | None => ret tt
  end.

Definition semantic_type_check_defined (sem_type : string) : M unit :=
  let* r := deref_type sem_type in
  (* <*> and <> do not have to be "declared". *)
  if bool_decide (t_status r = declared \/ first_char (t_tag r) = NUL
                  \/ t_tag r = "*") then
    for_each [destructor; printer]
      (fun i =>
         let* r := deref_type sem_type in
         when (bool_decide (kind (t_props r i) <> CODE_PROPS_NONE)
               && negb (is_used (t_props r i)))
           (complain (Some (t_location r)) Wother "useless %s for type <%s>"
              [arg_s (code_props_type_string i); arg_s (t_tag r)]))
  else
    complain (Some (t_location r)) Wother
      "type <%s> is used, but is not associated to any symbol"
      [arg_s (t_tag r)].

(** [symbols_cmp] reads the tags of the two records. *)
Definition symbols_cmp (a b : symbol) : Z := strcmp (tag a) (tag b).

Definition tag_at (h : gmap nat symbol) (p : nat) : string :=
  match h !! p with Some s => tag s | None => EmptyString end.

Definition symbols_cmp_qsort (h : gmap nat symbol) (p q : nat) : Z :=
  strcmp (tag_at h p) (tag_at h q).

(** The order [qsort] sorts by: [cmp (a, b) <= 0]. *)
Definition qsort_le (h : gmap nat symbol) (p q : nat) : Prop :=
  symbols_cmp_qsort h p q <= 0.

Definition strcmp_le (a b : string) : Prop := strcmp a b <= 0.

#[global] Instance qsort_le_dec h p q : Decision (qsort_le h p q).
Proof. unfold qsort_le. apply _. Defined.

#[global] Instance strcmp_le_dec a b : Decision (strcmp_le a b).
Proof. unfold strcmp_le. apply _. Defined.

(** [symbols_do] on [symbol_table] and [&symbols_sorted]: the first call
    materializes the view sorted by tag; every call then runs the processor
    on the first [count] entries of the view, [count] being the current size
    of the table. *)
Definition symbols_do (processor : nat -> M unit) : M unit :=
  let* count := gets (fun st => size (symbol_table st)) in
  let* sorted := gets symbols_sorted in
  (match sorted with
   | None =>
       let* entries := gets (fun st => (map_to_list (symbol_table st)).*2) in
       for_each entries (fun p => deref p >> ret tt) >>
       modify (fun st => with_symbols_sorted
                 (Some (merge_sort (qsort_le (heap st)) entries)) st)
   | Some _ => ret tt
   end) >>
  for_each (seq 0 count)
    (fun i =>
       let* sorted := gets symbols_sorted in
       let* p := nonnull (sorted ≫= (fun l => l !! i)) in
       processor p).

(** [symbols_do] on [semantic_type_table] and [&semantic_types_sorted]. *)
Definition symbols_do_semantic_types (processor : string -> M unit) : M unit :=
  let* count := gets (fun st => size (semantic_type_table st)) in
  let* sorted := gets semantic_types_sorted in
  (match sorted with
   | None =>
       modify (fun st => with_semantic_types_sorted
                 (Some (merge_sort strcmp_le
                          ((map_to_list (semantic_type_table st)).*1))) st)
   | Some _ => ret tt
   end) >>
  for_each (seq 0 count)
    (fun i =>
       let* sorted := gets semantic_types_sorted in
       let* t := nonnull (sorted ≫= (fun l => l !! i)) in
       processor t).

Definition symbols_check_defined : M unit :=
  symbols_do symbol_check_defined >>
  symbols_do_semantic_types semantic_type_check_defined.

(** ** Finalization: alias consistency, packing, token translation *)

Definition symbol_check_alias_consistency (this : nat) : M unit :=
  let sym := this in
  let* t := deref this in
  (* Check only the symbol in the symbol-string pair. *)
  match alias t with
  | Some str =>
      if bool_decide (user_token_number t = USER_NUMBER_HAS_STRING_ALIAS) then
        (let* r := deref str in
         let* s := deref sym in
         if bool_decide (type_name r <> type_name s) then
           match type_name r with
           | Some _ => symbol_type_set sym (type_name r) (type_location r)
           | None => symbol_type_set str (type_name s) (type_location s)
           end
         else ret tt) >>
        for_each [destructor; printer]
          (fun i =>
             let* r := deref str in
             if bool_decide (code (props r i) <> None) then
               symbol_code_props_set sym i (props r i)
             else
               let* s := deref sym in
               if bool_decide (code (props s i) <> None) then
                 symbol_code_props_set str i (props s i)
               else ret tt) >>
        let* s := deref sym in
        let* r := deref str in
        if bool_decide (prec s <> 0 \/ prec r <> 0) then
          if bool_decide (prec r <> 0) then
            symbol_precedence_set sym (prec r) (s_assoc r) (prec_location r)
          else
            symbol_precedence_set str (prec s) (s_assoc s) (prec_location s)
        else ret tt
      else ret tt
  | None => ret tt
  end.

(** [symbols[i]] and [symbols[i] = v]; an index outside the allocated
    vector is an invalid access. *)
Definition symbols_load (i : Z) : M (option nat) :=
  fun st => match (if bool_decide (0 <= i) then symbols st !! Z.to_nat i else None) with
            | Some v => Ok v st
            | None => Stop invalid_access st
            end.

Definition symbols_store (i : Z) (v : option nat) : M unit :=
  fun st => if bool_decide (0 <= i < Z.of_nat (length (symbols st)))
            then Ok tt (with_symbols (<[Z.to_nat i := v]> (symbols st)) st)
            else Stop invalid_access st.

Definition symbol_pack (this : nat) : M unit :=
  let* t := deref this in
  aver (bool_decide (number t <> NUMBER_UNDEFINED)) >>
  let* skip :=
    (if bool_decide (class t = nterm_sym) then
       let* n := gets ntokens in
       update this (fun s => set_number (number s + n) s) >> ret false
     else if bool_decide (user_token_number t = USER_NUMBER_HAS_STRING_ALIAS)
     then ret true
     else ret false) in
  if (skip : bool) then ret tt
  else
    let* t := deref this in
    symbols_store (number t) (Some this).

Definition user_token_number_redeclaration (num : Z) (first second : nat)
    : M unit :=
  let* f := deref first in
  let* s := deref second in
  (* Error messages make more sense if we keep the first declaration
     first. *)
  let '(first, second) :=
    if bool_decide (location_cmp (s_location f) (s_location s) > 0)
    then (second, first) else (first, second) in
  let* f := deref first in
  let* s := deref second in
  let i := 0%nat in
  complain_indent (s_location s) complaint i
    "user token number %d redeclaration for %s" [arg_d num; arg_s (tag s)] >>
  let i := (i + SUB_INDENT)%nat in
  complain_indent (s_location f) complaint i
    "previous declaration for %s" [arg_s (tag f)].

Definition token_translations_load (i : Z) : M Z :=
  fun st => match (if bool_decide (0 <= i) then token_translations st !! Z.to_nat i
                   else None) with
            | Some v => Ok v st
            | None => Stop invalid_access st
            end.

Definition token_translations_store (i : Z) (v : Z) : M unit :=
  fun st => if bool_decide (0 <= i < Z.of_nat (length (token_translations st)))
            then Ok tt (with_token_translations
                          (<[Z.to_nat i := v]> (token_translations st)) st)
            else Stop invalid_access st.

Definition symbol_translation (this : nat) : M unit :=
  let* t := deref this in
  (* Non-terminal? *)
  if bool_decide (class t = token_sym
                  /\ user_token_number t <> USER_NUMBER_HAS_STRING_ALIAS) then
    let* cur := token_translations_load (user_token_number t) in
    let* u := gets undeftoken in
    let* u := nonnull u in
    let* us := deref u in
    (* A token which translation has already been set? *)
    when (bool_decide (cur <> number us))
      (let* prev := symbols_load cur in
       let* prev := nonnull prev in
       user_token_number_redeclaration (user_token_number t) prev this) >>
    token_translations_store (user_token_number t) (number t)
  else ret tt.

(** The body of the first loop of [symbols_token_translations_init]; the
    local [num_256_available_p] is carried from one iteration to the next. *)
Definition highest_user_token_step (i : Z) (num_256_available_p : bool)
    : M bool :=
  let* this := symbols_load i in
  let* this := nonnull this in
  let* t := deref this in
  if bool_decide (user_token_number t <> USER_NUMBER_UNDEFINED) then
    (let* m := gets max_user_token_number in
     when (bool_decide (user_token_number t > m))
       (modify (with_max_user_token_number (user_token_number t)))) >>
    if bool_decide (user_token_number t = 256) then ret false
    else ret num_256_available_p
  else ret num_256_available_p.

(** [int] is 32 bits wide: [INT_MAX] is [2^31 - 1], and a sum that leaves
    the range of [int] wraps around to the other end of it. *)
Definition INT_MAX : Z := 2147483647.

Definition INT_MIN : Z := -2147483648.

Definition wrap_int (z : Z) : Z := (z - INT_MIN) mod 4294967296 + INT_MIN.

Arguments wrap_int : simpl never.

(** The body of its second loop; [++max_user_token_number] is an [int]
    increment. *)
Definition missing_user_token_step (i : Z) : M unit :=
  let* this := symbols_load i in
  let* this := nonnull this in
  let* t := deref this in
  when (bool_decide (user_token_number t = USER_NUMBER_UNDEFINED))
    (let* m := gets max_user_token_number in
     modify (with_max_user_token_number (wrap_int (m + 1))) >>
     update this (set_user_token_number (wrap_int (m + 1)))) >>
  let* t := deref this in
  let* m := gets max_user_token_number in
  when (bool_decide (user_token_number t > m))
    (modify (with_max_user_token_number (user_token_number t))).

Definition symbols_token_translations_init : M unit :=
  (* Find the highest user token number, and whether 256, the POSIX
     preferred user token number for the error token, is used. *)
  modify (with_max_user_token_number 0) >>
  let* nt := gets ntokens in
  let* num_256_available_p := for_fold (upto nt) highest_user_token_step true in
  (* If 256 is not used, assign it to error, to follow POSIX. *)
  (if (num_256_available_p : bool) then
     let* e := gets errtoken in
     let* e := nonnull e in
     let* es := deref e in
     when (bool_decide (user_token_number es = USER_NUMBER_UNDEFINED))
       (update e (set_user_token_number 256))
   else ret tt) >>
  (* Set the missing user numbers. *)
  (let* m := gets max_user_token_number in
   when (bool_decide (m < 256)) (modify (with_max_user_token_number 256))) >>
  for_each (upto nt) missing_user_token_step >>
  (* [xnmalloc (max_user_token_number + 1, ...)]: the [int] sum is the
     count of the block; a negative count converts to a size that no block
     has, and [xalloc_die] ends the process. *)
  let* m := gets max_user_token_number in
  let n := wrap_int (m + 1) in
  (if bool_decide (n < 0) then stop memory_exhausted else ret tt) >>
  modify (with_token_translations (replicate (Z.to_nat n) 0)) >>
  (* Initialize all entries for literal tokens to the internal token
     number for $undefined, which represents all invalid inputs. *)
  for_each (upto n)
    (fun i =>
       let* u := gets undeftoken in
       let* u := nonnull u in
       let* us := deref u in
       token_translations_store i (number us)) >>
  symbols_do symbol_translation.

(** The body of the loop of [symbols_pack] that removes the empty slots;
    the local [writei] is carried from one iteration to the next. *)
Definition compact_step (readi writei : Z) : M Z :=
  let* e := symbols_load readi in
  match e with
  | None =>
      modify (fun st => with_nsyms (nsyms st - 1) st) >>
      modify (fun st => with_ntokens (ntokens st - 1) st) >>
      ret writei
  | Some _ =>
      symbols_store writei e >>
      let* w := symbols_load writei in
      let* w := nonnull w in
      update w (set_number writei) >>
      let* s := deref w in
      (match alias s with
       | Some a => update a (set_number writei)
       | None => ret tt
       end) >>
      ret (writei + 1)
  end.

Definition symbols_pack : M unit :=
  symbols_do symbol_check_alias_consistency >>
  modify (fun st => with_symbols (replicate (Z.to_nat (nsyms st)) None) st) >>
  symbols_do symbol_pack >>
  (* Aliases leave empty slots in symbols, so remove them. *)
  let* nsyms_old := gets nsyms in
  for_fold (upto nsyms_old) compact_step 0 >>
  modify (fun st => with_symbols (take (Z.to_nat (nsyms st)) (symbols st)) st) >>
  symbols_token_translations_init >>
  let* start := gets startsymbol in
  let* start := nonnull start in
  let* s := deref start in
  let* loc := gets startsymbol_location in
  if bool_decide (class s = unknown_sym) then
    complain (Some loc) fatal "the start symbol %s is undefined" [arg_s (tag s)]
  else if bool_decide (class s = token_sym) then
    complain (Some loc) fatal "the start symbol %s is a token" [arg_s (tag s)]
  else ret tt.

(** ** Precedence relation graph

    A node of the graph is reached through [prec_nodes[id]]; the pointers
    between nodes ([groupnext], [symbols]) are modelled by the id of the
    node pointed to.  An edge list is the list of the ids of its links. *)

Abbreviation graphid := Z (only parsing).

Record symgraph : Type := mk_symgraph {
  id : graphid;
  succ : list graphid;
  pred : list graphid;
  groupnext : option graphid;
  g_symbols : option graphid;
  indegree : Z;
  outdegree : Z
}.

Definition init_prec_nodes (nsyms : Z) : list symgraph :=
  (fun i => mk_symgraph i [] [] None None 0 0) <$> upto nsyms.

(** The walk of [register_precedence_second_symbol] from the cell [slist]
    (of id [slist_id], followed by [rest]): the list from that cell on after
    the call, and whether the relation is new. *)
Fixpoint register_walk (slist_id : graphid) (rest : list graphid)
    (sym : graphid) : list graphid * bool :=
  match rest with
  | next :: rest' =>
      if bool_decide (next <= sym) then
        let '(l, b) := register_walk next rest' sym in (slist_id :: l, b)
      else if bool_decide (slist_id = sym) then (slist_id :: rest, false)
      else (slist_id :: sym :: rest, true)
  | [] =>
      if bool_decide (slist_id = sym) then ([slist_id], false)
      else ([slist_id; sym], true)
  end.

Definition register_precedence_second_symbol (first : list graphid)
    (sym : graphid) : list graphid * bool :=
  match first with
  | [] => ([sym], true)
  | f :: rest =>
      if bool_decide (sym < f) then (sym :: first, true)
      else register_walk f rest sym
  end.

Definition node_at (prec_nodes : list symgraph) (i : graphid) : option symgraph :=
  if bool_decide (0 <= i) then prec_nodes !! Z.to_nat i else None.

Definition node_update (prec_nodes : list symgraph) (i : graphid)
    (f : symgraph -> symgraph) : list symgraph :=
  match node_at prec_nodes i with
  | Some s => <[Z.to_nat i := f s]> prec_nodes
  | None => prec_nodes
  end.

(** [register_precedence]; [prec_nodes] is [None] while the C pointer is
    NULL, and the result is [None] when a node index is out of range. *)
Definition register_precedence (nsyms : Z) (prec_nodes : option (list symgraph))
    (first snd : graphid) : option (list symgraph) :=
  let nodes := match prec_nodes with
               | Some l => l
               | None => init_prec_nodes nsyms
               end in
  f ← node_at nodes first;
  let '(l, b) := register_precedence_second_symbol (succ f) snd in
  let nodes := node_update nodes first
                 (fun s => mk_symgraph (id s) l (pred s) (groupnext s) (g_symbols s)
                             (indegree s)
                             (if b then outdegree s + 1 else outdegree s)) in
  s ← node_at nodes snd;
  let '(l, b) := register_precedence_second_symbol (pred s) first in
  Some (node_update nodes snd
          (fun s => mk_symgraph (id s) (succ s) l (groupnext s) (g_symbols s)
                      (if b then indegree s + 1 else indegree s)
                      (outdegree s))).

Definition is_group (nsyms : Z) (s : symgraph) : bool :=
  bool_decide (id s >= nsyms).

(** [get_first_symbol]: the [while] loop runs at most [fuel] times. *)
Fixpoint get_first_symbol (fuel : nat) (nsyms : Z) (prec_nodes : list symgraph)
    (graph : symgraph) : option graphid :=
  if is_group nsyms graph then
    match fuel with
    | O => None
    | S fuel' =>
        g ← g_symbols graph;
        n ← node_at prec_nodes g;
        get_first_symbol fuel' nsyms prec_nodes n
    end
  else Some (id graph).

(** What [fprintf] is called with. *)
Record printed : Type := mk_printed {
  p_format : string;
  p_args : list fmt_arg
}.

(** The value of the local [color] when [print_graph_link] prints it. *)
Definition graph_link_color (tsym hsym : symgraph) (col : bool) : string :=
  if col then
    if bool_decide (outdegree tsym = 1) then
      if bool_decide (indegree hsym = 1) then "red" else "blue"
    else if bool_decide (indegree hsym = 1) then "red"
    else "black"
  else "black".

Definition print_graph_link (nsyms : Z) (prec_nodes : list symgraph)
    (tail head : graphid) (col : bool) : option (list printed) :=
  tsym ← node_at prec_nodes tail;
  hsym ← node_at prec_nodes head;
  let color := graph_link_color tsym hsym col in
  ft ← get_first_symbol (length prec_nodes) nsyms prec_nodes tsym;
  fh ← get_first_symbol (length prec_nodes) nsyms prec_nodes hsym;
  Some ([mk_printed "%i -> %i [" [arg_d ft; arg_d fh]] ++
        (if is_group nsyms hsym then
           if is_group nsyms tsym then
             [mk_printed "lhead=cluster_%i, ltail=cluster_%i, "
                [arg_d head; arg_d tail]]
           else [mk_printed "lhead=cluster_%i, " [arg_d head]]
         else if is_group nsyms tsym then
           [mk_printed "ltail=cluster_%i, " [arg_d tail]]
         else []) ++
        [mk_printed "color=%s];\n" [arg_s color]]).

(** The edges [print_rel_dot_graph] prints, in order, on the graph that
    [group_relations] leaves: its loop walks the ids downwards from
    [nsyms + ngroups - 1] to 1 and calls [print_graph_link (f, gid, lid,
    true)] for every successor link.  (The header, the legend and the node
    declarations are not part of this model.) *)
Definition print_rel_dot_graph_links (nsyms ngroups : Z)
    (prec_nodes : list symgraph) : option (list printed) :=
  foldr
    (fun i acc =>
       s ← node_at prec_nodes i;
       rest ← acc;
       if bool_decide (succ s = [] /\ pred s = []) then Some rest
       else
         links ← foldr (fun lid acc' =>
                          l ← print_graph_link nsyms prec_nodes (id s) lid true;
                          r ← acc';
                          Some (l ++ r))
                       (Some []) (succ s);
         Some (links ++ rest))
    (Some [])
    (reverse (tail (upto (nsyms + ngroups)))).

(** ** Transitive reduction

    A graph is an [n * n] array of [bool] rows, [n = nsyms + ngroups].  The
    loops only use indices below [n]; reading outside a matrix that is not
    [n * n] is given the value [false] and writing there does nothing. *)

Abbreviation matrix := (list (list bool)) (only parsing).

Definition mat_get (g : matrix) (i j : nat) : bool :=
  match g !! i with
  | Some row => match row !! j with Some b => b | None => false end
  | None => false
  end.

Definition mat_set (g : matrix) (i j : nat) (b : bool) : matrix :=
  match g !! i with
  | Some row => <[i := <[j := b]> row]> g
  | None => g
  end.

Definition new_graph (n : nat) : matrix := replicate n (replicate n false).

Definition copy_graph (n : nat) (c : matrix) : matrix :=
  (fun i => (fun j => mat_get c i j) <$> seq 0 n) <$> seq 0 n.

Definition dynamic_graph_to_matrix (n : nat) (prec_nodes : list symgraph)
    : matrix :=
  foldl (fun g i =>
           match prec_nodes !! i with
           | Some s =>
               foldl (fun g l => if bool_decide (0 <= l)
                                 then mat_set g i (Z.to_nat l) true else g)
                     g (succ s)
           | None => g
           end)
        (new_graph n) (seq 0 n).

Definition transitive_closure (n : nat) (g : matrix) : matrix :=
  let cl := copy_graph n g in
  foldl (fun cl k =>
    foldl (fun cl i =>
      foldl (fun cl j =>
        if mat_get cl i k && mat_get cl k j then mat_set cl i j true else cl)
        cl (seq 0 n))
      cl (seq 0 n))
    cl (seq 0 n).

(** The matrix [g] holds after [transitive_reduction (g)]. *)
Definition transitive_reduction (n : nat) (g : matrix) : matrix :=
  let cl := transitive_closure n g in
  let rem := new_graph n in
  let rem :=
    foldl (fun rem i =>
      foldl (fun rem j =>
        if negb (mat_get cl i j) then rem
        else foldl (fun rem k =>
               if negb (mat_get cl j k) then rem else mat_set rem i k true)
               rem (seq 0 n))
        rem (seq 0 n))
      rem (seq 0 n) in
  foldl (fun g i =>
    foldl (fun g j => mat_set g i j (mat_get cl i j && negb (mat_get rem i j)))
      g (seq 0 n))
    g (seq 0 n).

(** The pairs [(i, j)] for which [print_transitive_reduction] prints a link,
    in the order of its two loops. *)
Definition print_transitive_reduction_links (n : nat)
    (prec_nodes : list symgraph) : list (nat * nat) :=
  let g := transitive_reduction n (dynamic_graph_to_matrix n prec_nodes) in
  i ← seq 0 n; j ← seq 0 n; if mat_get g i j then [(i, j)] else [].

Local Close Scope Z_scope.

(** ** Graphs as relations *)

(** [g] is an [n * n] matrix. *)
Definition square (n : nat) (g : list (list bool)) : Prop :=
  length g = n /\ Forall (fun row => length row = n) g.

(** [g[i][j]] is set: the graph has the edge from [i] to [j]. *)
Definition edge (g : list (list bool)) (i j : nat) : Prop :=
  mat_get g i j = true.

(** Every edge of [g'] is an edge of [g], and some edge of [g] is missing
    in [g']. *)
Definition proper_subgraph (g' g : list (list bool)) : Prop :=
  (forall i j, edge g' i j -> edge g i j) /\
  (exists i j, edge g i j /\ ~ edge g' i j).

(** No node reaches itself. *)
Definition acyclic (g : list (list bool)) : Prop :=
  forall i, ~ tc (edge g) i i.

(** Paths of [g] whose inner nodes are all below [k]: what Warshall's
    algorithm has found after [k] phases. *)
Inductive path_below (g : list (list bool)) (k : nat) : nat -> nat -> Prop :=
  | path_edge i j : edge g i j -> path_below g k i j
  | path_through i m j :
      m < k -> path_below g k i m -> path_below g k m j -> path_below g k i j.

(** The number of nodes strictly between [i] and [k] in the closure [cl]. *)
Definition between (n : nat) (cl : list (list bool)) (i k : nat) : nat :=
  length (List.filter (fun j => mat_get cl i j && mat_get cl j k) (seq 0 n)).

(** The relations [A > B], [B > C], [A > C] between the symbols 3, 4, 5 of a
    grammar with 6 symbols. *)
Definition triangle_relations : option (list symgraph) :=
  n ← register_precedence 6 None 3 4;
  n ← register_precedence 6 (Some n) 4 5;
  register_precedence 6 (Some n) 3 5.

(** Two nodes that precede each other. *)
Definition two_cycle : list (list bool) := [[false; true]; [true; false]].

(** Three nodes in a chain with the shortcut, an acyclic graph. *)
Definition triangle : list (list bool) :=
  [[false; true; true]; [false; false; true]; [false; false; false]].

Local Open Scope Z_scope.

(** ** Example data

    The records and states the examples below run the code on.  The
    sentinel values used there are the ones of Bison's symtab.h:
    [NUMBER_UNDEFINED = -1], [USER_NUMBER_UNDEFINED = -1],
    [USER_NUMBER_HAS_STRING_ALIAS = -9991]; [SUB_INDENT] is 4. *)

(** A record as [symbol_new] leaves it. *)
Definition fresh_symbol (tag' : string) (loc : location) : symbol :=
  mk_symbol tag' loc None empty_location (fun _ => code_props_none_init)
    (-1) empty_location 0 undef_assoc (-1) None unknown_sym undeclared.

(** A state with the records [h]; [ntokens] and [nvars] as given. *)
Definition state_of (h : gmap nat symbol) (ntokens' nvars' : Z) : state :=
  mk_state h ∅ ∅ None None [] (Z.of_nat (size h)) ntokens' nvars'
    None None None None None empty_location 0 [] code_props_none_init [].

(** One symbol [exp] whose type is already [INT], declared at location 2. *)
Definition typed_state : state :=
  state_of {[ 0%nat := set_type_location 2%nat
                         (set_type_name (Some "INT") (fresh_symbol "exp" 1%nat)) ]}
    1 0.

(** One symbol that was only mentioned: class unknown, no number. *)
Definition mentioned_state : state :=
  state_of {[ 0%nat := fresh_symbol "exp" 1%nat ]} 3 1.

(** One token [NUM] holding token slot 3. *)
Definition token_state : state :=
  state_of {[ 0%nat := set_number 3 (set_class token_sym (fresh_symbol "NUM" 1%nat)) ]}
    4 1.

(** Every global other than the records and the diagnostics is the same
    in the two states. *)
Definition same_globals (st st' : state) : Prop :=
  symbol_table st' = symbol_table st /\
  semantic_type_table st' = semantic_type_table st /\
  symbols_sorted st' = symbols_sorted st /\
  semantic_types_sorted st' = semantic_types_sorted st /\
  symbols st' = symbols st /\
  nsyms st' = nsyms st /\ ntokens st' = ntokens st /\ nvars st' = nvars st /\
  errtoken st' = errtoken st /\ undeftoken st' = undeftoken st /\
  endtoken st' = endtoken st /\ accept st' = accept st /\
  startsymbol st' = startsymbol st /\
  startsymbol_location st' = startsymbol_location st /\
  max_user_token_number st' = max_user_token_number st /\
  token_translations st' = token_translations st /\
  code_props_none st' = code_props_none st.

(** ** Identifiers and generated symbols *)

(** The table [alphanum] of [is_identifier]: 63 characters, no terminating
    NUL. *)
Definition alphanum : list ascii :=
  list_ascii_of_string
    "abcdefghijklmnopqrstuvwxyzABCDEFGHIJKLMNOPQRSTUVWXYZ_0123456789".

(** [memchr (s, c, n) != NULL]: [c] is among the first [n] bytes of [s]. *)
Definition memchr (s : list ascii) (c : ascii) (n : nat) : bool :=
  bool_decide (c ∈ take n s).

(** The [for] loop of [is_identifier]; a [string] holds the characters
    before the terminating NUL. *)
Fixpoint is_identifier_loop (s : string) : bool :=
  match s with
  | EmptyString => true
  | String c r =>
      if memchr alphanum c (length alphanum) then is_identifier_loop r
      else false
  end.

(** [is_identifier]; [None] is the NULL pointer. *)
Definition is_identifier (s : option string) : bool :=
  match s with
  | None => false
  | Some s =>
      if memchr alphanum (first_char s) (length alphanum - 10)
      then is_identifier_loop (match s with
                               | String _ r => r
                               | EmptyString => EmptyString
                               end)
      else false
  end.

(** [symbol_id_get]; [None] is the null string it returns for a tag that is
    not an identifier. *)
Definition symbol_id_get (sym : nat) : M (option string) :=
  let* s := deref sym in
  aver (bool_decide (user_token_number s <> USER_NUMBER_HAS_STRING_ALIAS)) >>
  let* s := (match alias s with
             | Some a => deref a
             | None => ret s
             end) in
  ret (if is_identifier (Some (tag s)) then Some (tag s) else None).

Definition symbol_is_dummy (s : symbol) : bool :=
  bool_decide (first_char (tag s) = "@"%char)
  || (bool_decide (first_char (tag s) = "$"%char)
      && bool_decide (second_char (tag s) = "@"%char)).

(** What [sprintf] writes for [%d]. *)
Definition decimal (n : Z) : string := NilEmpty.string_of_int (Z.to_int n).

(** [dummy_symbol_get]; the static local [dummy_count] is passed in and
    handed back with the symbol. *)
Definition dummy_symbol_get (dummy_count : Z) (loc : location)
    : M (nat * Z) :=
  let dummy_count := dummy_count + 1 in
  let buf := String.append "$@" (decimal dummy_count) in
  let* sym := symbol_get buf loc in
  update sym (set_class nterm_sym) >>
  let* n := gets nvars in
  modify (with_nvars (n + 1)) >>
  update sym (set_number n) >>
  ret (sym, dummy_count).

(** ** Link lists of the relation graph *)

(** [intvect]: the mark vector. *)
Record intvect : Type := mk_intvect {
  iv_size : Z;
  iv_t : list Z
}.

(** [grow]; [None] is the NULL vector.  The block that [xnrealloc] returns
    keeps the [size] entries the vector had. *)
Definition grow (vect : option intvect) (size : Z) : intvect :=
  match vect with
  | None => mk_intvect (size + 10) (replicate (Z.to_nat (size + 10)) 0)
  | Some v =>
      if bool_decide (size <= iv_size v) then v
      else
        mk_intvect (size + 10)
          (take (Z.to_nat (iv_size v)) (iv_t v) ++
           ((fun _ => 0) <$> seq (Z.to_nat (iv_size v))
                               (Z.to_nat (size + 10) - Z.to_nat (iv_size v))))
  end.

(** [is_precedence_in_group]; reading [mark->t] outside the vector has no
    value. *)
Definition is_precedence_in_group (mark : option intvect) (el : graphid)
    (niter : Z) : option bool :=
  match mark with
  | None => Some false
  | Some v =>
      x ← (if bool_decide (0 <= el) then iv_t v !! Z.to_nat el else None);
      Some (bool_decide (x >= niter))
  end.

(** [same_list]: the recursion is on [l1], and on [l2] while [l1] stays. *)
Fixpoint same_list (l1 l2 : list graphid) (mark : option intvect)
    (niter : Z) {struct l1} : option bool :=
  let fix same_list_l2 (l2 : list graphid) {struct l2} : option bool :=
    match l1 with
    | x :: l1' =>
        g1 ← is_precedence_in_group mark x niter;
        if (g1 : bool) then same_list l1' l2 mark niter
        else
          match l2 with
          | y :: l2' =>
              g2 ← is_precedence_in_group mark y niter;
              if (g2 : bool) then same_list_l2 l2'
              else if bool_decide (x = y) then same_list l1' l2' mark niter
              else Some false
          | [] => Some false
          end
    | [] =>
        match l2 with
        | y :: l2' =>
            g2 ← is_precedence_in_group mark y niter;
            if (g2 : bool) then same_list_l2 l2' else Some false
        | [] => Some true
        end
    end in
  same_list_l2 l2.

(** The [for] loop of [delete_one_link] from the cell [l] (of id [l_id],
    followed by [rest]); it has no value when it runs off the list. *)
Fixpoint delete_one_link_loop (l_id : graphid) (rest : list graphid)
    (el : graphid) : option (list graphid) :=
  match rest with
  | next :: rest' =>
      if bool_decide (el = next) then Some (l_id :: rest')
      else l ← delete_one_link_loop next rest' el; Some (l_id :: l)
  | [] => None
  end.

(** [delete_one_link]: the list [*links] after the call. *)
Definition delete_one_link (links : list graphid) (el : graphid)
    : option (list graphid) :=
  match links with
  | [] => None
  | f :: rest =>
      if bool_decide (el = f) then Some rest
      else delete_one_link_loop f rest el
  end.

Fixpoint same_size (l1 l2 : list graphid) : bool :=
  match l1, l2 with
  | _ :: l1', _ :: l2' => same_size l1' l2'
  | [], [] => true
  | _, _ => false
  end.

(** ** Warnings for unused precedence and associativity *)

(** [print_precedence_warnings]; the global [prec_nodes] is passed in
    ([None] while it is NULL) and handed back. *)
Definition print_precedence_warnings (prec_nodes : option (list symgraph))
    : M (list symgraph) :=
  let* n := gets nsyms in
  let nodes := match prec_nodes with
               | Some l => l
               | None => init_prec_nodes n
               end in
  for_each (upto n)
    (fun i =>
       let* s := symbols_load i in
       match s with
       | Some p =>
           let* r := deref p in
           if bool_decide (prec r <> 0) then
             let* node := nonnull (node_at nodes i) in
             when (bool_decide (pred node = [])
                   && bool_decide (succ node = [])
                   && bool_decide (s_assoc r = precedence_assoc))
               (complain (Some (s_location r)) Wprecedence
                  "useless precedence for %s" [arg_s (tag r)])
           else ret tt
       | None => ret tt
       end) >>
  ret nodes.

Definition init_assoc (nsyms : Z) : list bool :=
  (fun _ => false) <$> upto nsyms.

(** [used_assoc[i]], with no value outside the table. *)
Definition used_at (used_assoc : list bool) (i : graphid) : option bool :=
  if bool_decide (0 <= i) then used_assoc !! Z.to_nat i else None.

(** [is_assoc_useless] on the record [s] points to ([None] for NULL). *)
Definition is_assoc_useless (used_assoc : list bool) (s : option symbol)
    : option bool :=
  match s with
  | None => Some false
  | Some r =>
      if bool_decide (s_assoc r <> undef_assoc)
         && bool_decide (s_assoc r <> precedence_assoc)
      then u ← used_at used_assoc (number r); Some (negb u)
      else Some false
  end.

(** [register_assoc]; the global [used_assoc] is passed in ([None] while it
    is NULL) and handed back; there is no result when an index is outside
    the table. *)
Definition register_assoc (nsyms : Z) (used_assoc : option (list bool))
    (i j : graphid) : option (list bool) :=
  let used := match used_assoc with
              | Some l => l
              | None => init_assoc nsyms
              end in
  _ ← used_at used i;
  let used := <[Z.to_nat i := true]> used in
  _ ← used_at used j;
  Some (<[Z.to_nat j := true]> used).

Definition print_assoc_warnings (used_assoc : option (list bool))
    : M (list bool) :=
  let* n := gets nsyms in
  let used := match used_assoc with
              | Some l => l
              | None => init_assoc n
              end in
  for_each (upto n)
    (fun i =>
       let* s := symbols_load i in
       let* r := (match s with
                  | Some p => let* r := deref p in ret (Some r)
                  | None => ret None
                  end) in
       let* useless := nonnull (is_assoc_useless used r) in
       match r with
       | Some r =>
           when useless
             (complain (Some (s_location r)) Wprecedence
                "useless associativity for %s" [arg_s (tag r)])
       | None => ret tt
       end) >>
  ret used.

(** ** Notions used in the statements *)

(** Every successful run of [m] relates its initial and final states by
    [R]. *)
Definition preserves {A} (R : relation state) (m : M A) : Prop :=
  forall st a st', m st = Ok a st' -> R st st'.

(** The user token number held at [p]. *)
Definition utn (h : gmap nat symbol) (p : nat) : Z :=
  match h !! p with
  | Some s => user_token_number s
  | None => USER_NUMBER_UNDEFINED
  end.

(** The first [ntokens] slots of [symbols] hold the records at [toks]. *)
Definition tokens_are (st : state) (toks : list nat) : Prop :=
  ntokens st = Z.of_nat (length toks) /\
  (forall i p, toks !! i = Some p -> symbols st !! i = Some (Some p)) /\
  (forall p, p ∈ toks -> is_Some (heap st !! p)).

(** The records and the highest user token number are the same. *)
Definition same_records (st st' : state) : Prop :=
  heap st' = heap st /\ max_user_token_number st' = max_user_token_number st.

(** The fields of a record that numbering depends on. *)
Definition skel (s : symbol) : Z * symbol_class * option nat * Z :=
  (number s, class s, alias s, user_token_number s).

(** The counters, the sorted view and the numbering fields of every record
    are the same. *)
Definition same_skel (st st' : state) : Prop :=
  nsyms st' = nsyms st /\ ntokens st' = ntokens st /\ nvars st' = nvars st /\
  symbols_sorted st' = symbols_sorted st /\
  symbol_table st' = symbol_table st /\
  symbols st' = symbols st /\
  forall p, skel <$> heap st' !! p = skel <$> heap st !! p.

(** The sorted view stays as it is. *)
Definition same_sorted (st st' : state) : Prop :=
  symbols_sorted st' = symbols_sorted st.

(** Both records of every alias pair of the view are numbered tokens. *)
Definition aliased_tokens (view : list nat) (st : state) : Prop :=
  forall p s a,
    p ∈ view -> heap st !! p = Some s -> alias s = Some a ->
    class s = token_sym /\ number s <> NUMBER_UNDEFINED /\
    exists r, heap st !! a = Some r /\
              class r = token_sym /\ number r <> NUMBER_UNDEFINED.

(** [symbol_pack] puts the record in the vector: a nonterminal, or a
    record that does not stand for its string alias. *)
Definition placed (s : symbol) : Prop :=
  class s = nterm_sym \/ user_token_number s <> USER_NUMBER_HAS_STRING_ALIAS.

(** The slot it is put in. *)
Definition slot (nt : Z) (s : symbol) : Z :=
  if decide (class s = nterm_sym) then number s + nt else number s.

(** The record as [symbol_pack] leaves it. *)
Definition shift (nt : Z) (s : symbol) : symbol :=
  if decide (class s = nterm_sym) then set_number (number s + nt) s else s.

(** What the grammar reader hands over to [symbols_pack]: the sorted
    [view] of the table exists; every symbol is numbered; the nonterminals
    hold the numbers [0 .. nvars-1], each of them taken; the tokens that are
    put in the vector hold distinct numbers below [ntokens]; and the two
    records of an alias pair are tokens that point to each other, exactly
    one of them carrying the has-string-alias sentinel. *)
Record pack_ready (st : state) (view : list nat) : Prop := {
  ready_view : symbols_sorted st = Some view;
  ready_count : size (symbol_table st) = length view;
  ready_nodup : NoDup view;
  ready_counters :
    nsyms st = ntokens st + nvars st /\ 0 <= ntokens st /\ 0 <= nvars st;
  ready_numbered :
    forall p, p ∈ view ->
      exists s, heap st !! p = Some s /\ number s <> NUMBER_UNDEFINED;
  ready_nterm :
    forall p s, p ∈ view -> heap st !! p = Some s -> class s = nterm_sym ->
      0 <= number s < nvars st;
  ready_token :
    forall p s, p ∈ view -> heap st !! p = Some s -> class s <> nterm_sym ->
      user_token_number s <> USER_NUMBER_HAS_STRING_ALIAS ->
      0 <= number s < ntokens st;
  ready_distinct :
    forall p q s r, p ∈ view -> q ∈ view ->
      heap st !! p = Some s -> heap st !! q = Some r ->
      placed s -> placed r ->
      slot (ntokens st) s = slot (ntokens st) r -> p = q;
  ready_nterm_cover :
    forall k, 0 <= k < nvars st ->
      exists p s, p ∈ view /\ heap st !! p = Some s /\
                  class s = nterm_sym /\ number s = k;
  ready_alias :
    forall p s a, p ∈ view -> heap st !! p = Some s -> alias s = Some a ->
      class s = token_sym /\ a ∈ view /\
      exists r, heap st !! a = Some r /\ alias r = Some p /\
                class r = token_sym /\
                (user_token_number s = USER_NUMBER_HAS_STRING_ALIAS <->
                 user_token_number r <> USER_NUMBER_HAS_STRING_ALIAS);
  ready_sentinel :
    forall p s, p ∈ view -> heap st !! p = Some s ->
      user_token_number s = USER_NUMBER_HAS_STRING_ALIAS -> is_Some (alias s)
}.

(** The number of filled slots among the first [j] of the vector. *)
Definition occ (A : list (option nat)) (j : nat) : nat :=
  length (omap (fun e : option nat => e) (take j A)).

(** The record without its number. *)
Definition unnumbered (s : symbol) : symbol := set_number 0 s.

(** The empty slots of a vector. *)
Definition empty_slots (A : list (option nat)) : nat :=
  (length A - occ A (length A))%nat.

(** The number, the class and the alias of a record. *)
Definition numbering (s : symbol) : Z * symbol_class * option nat :=
  (number s, class s, alias s).

(** The counters, the vector and the numbering of every record are the
    same. *)
Definition same_numbering (st st' : state) : Prop :=
  nsyms st' = nsyms st /\ ntokens st' = ntokens st /\
  symbols st' = symbols st /\
  forall p, numbering <$> heap st' !! p = numbering <$> heap st !! p.

(** An id that [is_precedence_in_group] does not put in the group. *)
Definition outside_group (mark : option intvect) (niter : Z) (x : graphid)
    : Prop :=
  is_precedence_in_group mark x niter <> Some true.

#[local] Instance outside_group_dec mark niter x :
  Decision (outside_group mark niter x).
Proof. unfold outside_group. apply _. Defined.

(** The vector holds as many entries as its [size] field says. *)
Definition intvect_wf (v : intvect) : Prop :=
  0 <= iv_size v /\ Z.of_nat (length (iv_t v)) = iv_size v.

(** The graph as [register_precedence] keeps it: the link lists are strictly
    increasing, the degrees are their lengths, and every link has its
    mirror in the node it leads to. *)
Definition prec_wf (nodes : list symgraph) : Prop :=
  forall i s, nodes !! i = Some s ->
    StronglySorted Z.lt (succ s) /\ StronglySorted Z.lt (pred s) /\
    outdegree s = Z.of_nat (length (succ s)) /\
    indegree s = Z.of_nat (length (pred s)) /\
    (forall j, j ∈ succ s ->
       exists t, node_at nodes j = Some t /\ Z.of_nat i ∈ pred t) /\
    (forall j, j ∈ pred s ->
       exists t, node_at nodes j = Some t /\ Z.of_nat i ∈ succ t).

(** The graph [register_precedence] starts from. *)
Definition nodes_of (nsyms : Z) (prec_nodes : option (list symgraph))
    : list symgraph :=
  match prec_nodes with
  | Some l => l
  | None => init_prec_nodes nsyms
  end.

(** The relation the graph holds between the nodes below [n]: [j] is a
    successor of [i]. *)
Definition related (n : nat) (prec_nodes : list symgraph) (i j : nat) : Prop :=
  (i < n)%nat /\ (j < n)%nat /\
  exists s, prec_nodes !! i = Some s /\ Z.of_nat j ∈ succ s.

(** The record [symbol_new] builds. *)
Definition new_symbol (tag' : string) (loc : location) : symbol :=
  mk_symbol tag' loc None empty_location (fun _ => code_props_none_init)
    NUMBER_UNDEFINED empty_location 0 undef_assoc USER_NUMBER_UNDEFINED None
    unknown_sym undeclared.

(** The warning of [symbol_new] for a dash in a tag that is not quoted. *)
Definition dash_warning (tag' : string) (loc : location) : list diagnostic :=
  if bool_decide (first_char tag' <> dquote /\ first_char tag' <> squote)
     && strchr tag' "-"%char
  then [mk_diagnostic (Some loc) Wyacc None
          "POSIX Yacc forbids dashes in symbol names: %s" [arg_s tag']]
  else [].

(** The state a successful creation leaves. *)
Definition with_new_symbol (key : string) (loc : location) (st : state)
    : state :=
  let p := fresh (dom (heap st)) in
  with_nsyms (nsyms st + 1)
    (with_symbol_table (<[key := p]> (symbol_table st))
       (with_heap (<[p := new_symbol key loc]> (heap st))
          (with_messages (messages st ++ dash_warning key loc) st))).

(** Every entry of the symbol table points to a record that carries the
    entry's tag. *)
Definition table_wf (st : state) : Prop :=
  forall key p, symbol_table st !! key = Some p ->
    exists s, heap st !! p = Some s /\ tag s = key.

(** The counters of nonterminals, the diagnostics, the symbol table, its
    sorted view, and the class and number of every record are the same. *)
Definition same_classes (st st' : state) : Prop :=
  nvars st' = nvars st /\ messages st' = messages st /\
  symbol_table st' = symbol_table st /\
  symbols_sorted st' = symbols_sorted st /\
  forall q, (fun s => (class s, number s)) <$> heap st' !! q
            = (fun s => (class s, number s)) <$> heap st !! q.

(** The record at [p] is a token or a nonterminal. *)
Definition classified (st : state) (p : nat) : Prop :=
  exists s, heap st !! p = Some s /\ class s <> unknown_sym.

(** The symbol table is the same, and every record that was a token or a
    nonterminal still is one. *)
Definition classes_kept (st st' : state) : Prop :=
  symbol_table st' = symbol_table st /\
  forall q, classified st q -> classified st' q.

(** The records and the symbol table are the same. *)
Definition same_symbols (st st' : state) : Prop :=
  heap st' = heap st /\ symbol_table st' = symbol_table st.

(** ** Properties of the mutators *)

(** Unfolds the monad so that a run on a symbolic state computes. *)
Ltac run_monad :=
  repeat (progress (unfold bind, ret, gets, modify, when, aver, stop, nonnull,
                      deref, update, complain, complain_indent; simpl)).

(** Runs the code on a state in which the record at the pointer is known by
    the hypothesis [H]. *)
Ltac run_with H :=
  repeat (progress (run_monad; rewrite ?H, ?lookup_insert_eq; simpl)).

(** Closes a goal [Ok tt st1 = Ok tt st2] where the two states differ by the
    grouping of successive writes. *)
Ltac same_state :=
  rewrite ?insert_insert_eq, <- ?app_assoc; simpl; reflexivity.

(** The two diagnostics of [symbol_redeclaration]. *)
Definition redeclaration_messages (what tag' : string)
    (first second : location) : list diagnostic :=
  [ mk_diagnostic (Some second) complaint (Some 0%nat)
      "%s redeclaration for %s" [arg_s what; arg_s tag'];
    mk_diagnostic (Some first) complaint (Some SUB_INDENT)
      "previous declaration" [] ].

Lemma symbol_redeclaration_run st s r what first second :
  heap st !! s = Some r ->
  symbol_redeclaration s what first second st =
    Ok tt (with_messages
             (messages st ++ redeclaration_messages what (tag r) first second) st).
Proof.
  intros Hs. unfold symbol_redeclaration. run_with Hs.
  unfold redeclaration_messages. same_state.
Qed.

(** C8, as the code has it: when [type_name] is already set, a second
    [symbol_type_set (s, t2, l2)] with a non-NULL [t2] emits the
    redeclaration complaint (first the new location [l2], then, one level
    deeper, the previous location) and then overwrites [type_name] with [t2]
    and [type_location] with [l2]; nothing else changes. *)
Theorem symbol_type_set_redeclares_and_overwrites st sym s t2 l2 :
  heap st !! sym = Some s ->
  type_name s <> None ->
  symbol_type_set sym (Some t2) l2 st =
    Ok tt (with_heap
             (<[sym := set_type_location l2 (set_type_name (Some t2) s)]> (heap st))
             (with_messages
                (messages st ++
                 redeclaration_messages "%type" (tag s) (type_location s) l2) st)).
Proof.
  intros Hs Hty. unfold symbol_type_set.
  unfold bind at 1. unfold deref at 1. rewrite Hs.
  rewrite bool_decide_true by done. unfold when.
  unfold bind at 1. rewrite (symbol_redeclaration_run _ _ s) by done.
  run_with Hs. same_state.
Qed.

(** With [undef_assoc] the precedence fields are skipped, and the call is
    the call of [symbol_class_set] that follows the [if]. *)
Lemma symbol_precedence_set_undef_assoc sym prec' loc st :
  symbol_precedence_set sym prec' undef_assoc loc st =
  symbol_class_set sym token_sym loc false st.
Proof. reflexivity. Qed.

(** C4, as the code has it: [symbol_class_set] takes a fresh number from
    [nvars] (post-incremented) whenever the requested class is [nterm_sym]
    and the symbol is not yet of that class, whether or not it had a number;
    it takes one from [ntokens] (post-incremented) when the requested class
    is [token_sym] and the number is undefined; in every other case the
    number and both counters are left unchanged. *)
Theorem symbol_class_set_number st sym s class' loc declaring :
  heap st !! sym = Some s ->
  exists st' s',
    symbol_class_set sym class' loc declaring st = Ok tt st' /\
    heap st' !! sym = Some s' /\
    class s' = class' /\
    if decide (class' = nterm_sym /\ class s <> nterm_sym) then
      number s' = nvars st /\ nvars st' = nvars st + 1 /\ ntokens st' = ntokens st
    else if decide (class' = token_sym /\ number s = NUMBER_UNDEFINED) then
      number s' = ntokens st /\ ntokens st' = ntokens st + 1 /\ nvars st' = nvars st
    else
      number s' = number s /\ nvars st' = nvars st /\ ntokens st' = ntokens st.
Proof.
  intros Hs. unfold symbol_class_set.
  destruct declaring; run_with Hs;
    repeat (case_bool_decide; run_with Hs);
    try (destruct (bool_decide (s_status _ = declared)); run_with Hs);
    (eexists _, _; split; [reflexivity|]; simpl; rewrite lookup_insert_eq;
     split; [reflexivity|]; split; [reflexivity|];
     repeat case_decide; simpl; tauto).
Qed.

(** Runs the code on a state with two distinct pointers whose records are
    known by [H1] and [H2]. *)
Ltac run_with2 H1 H2 :=
  repeat (progress (run_monad;
                    rewrite ?lookup_insert_eq;
                    rewrite ?lookup_insert_ne by congruence;
                    rewrite ?H1, ?H2; simpl)).

(** X29: [symbol_user_token_number_set (s, 0, loc)] always returns when the
    slot of the user number can be reached; it makes [s] the [endtoken],
    sets [s.number] to 0, leaves [nvars] alone, and decrements [ntokens]
    exactly when [s.number] was defined, whatever the class of [s]. *)
Theorem symbol_user_token_number_set_zero st sym s loc :
  heap st !! sym = Some s ->
  (user_token_number s = USER_NUMBER_HAS_STRING_ALIAS ->
   exists a, alias s = Some a /\ is_Some (heap st !! a)) ->
  exists st' s',
    symbol_user_token_number_set sym 0 loc st = Ok tt st' /\
    endtoken st' = Some sym /\
    heap st' !! sym = Some s' /\
    number s' = 0 /\
    ntokens st' = (if decide (number s = NUMBER_UNDEFINED)
                   then ntokens st else ntokens st - 1) /\
    nvars st' = nvars st.
Proof.
  intros Hs Hal. unfold symbol_user_token_number_set.
  destruct (decide (user_token_number s = USER_NUMBER_HAS_STRING_ALIAS)) as [He|He].
  - destruct (Hal He) as (a & Ha & [r Hr]).
    destruct (decide (a = sym)) as [->|Hne].
    + run_with Hs. rewrite bool_decide_false by tauto. rewrite Ha. run_with Hs.
      repeat (case_bool_decide; run_with Hs);
        (eexists _, _; split; [reflexivity|]; simpl; rewrite lookup_insert_eq;
         repeat split; try reflexivity; case_decide; simpl; tauto).
    + run_with2 Hs Hr. rewrite bool_decide_false by tauto. rewrite Ha.
      run_with2 Hs Hr.
      repeat (case_bool_decide; run_with2 Hs Hr);
        (eexists _, _; split; [reflexivity|]; simpl; rewrite lookup_insert_eq;
         repeat split; try reflexivity; case_decide; simpl; tauto).
  - run_with Hs. rewrite bool_decide_true by done. run_with Hs.
    repeat (case_bool_decide; run_with Hs);
      (eexists _, _; split; [reflexivity|]; simpl; rewrite lookup_insert_eq;
       repeat split; try reflexivity; case_decide; simpl; tauto).
Qed.

(** C7, as the code has it.  When [str] or [sym] already has an alias, the
    call only emits one diagnostic (of severity [Wother]) and every record
    is left as it was.  Otherwise the two records are linked: right after
    the call each is the alias of the other and they hold the same number
    ([sym]'s), [sym] holds the has-string-alias sentinel, [str] is a token
    and, being another record than [sym], holds the user token number [sym]
    had; no other record changes. *)
Theorem symbol_make_alias_links st sym str s r loc :
  heap st !! sym = Some s ->
  heap st !! str = Some r ->
  if decide (alias r = None /\ alias s = None) then
    exists st' s' r',
      symbol_make_alias sym str loc st = Ok tt st' /\
      heap st' !! sym = Some s' /\ heap st' !! str = Some r' /\
      alias s' = Some str /\ alias r' = Some sym /\
      number r' = number s' /\ number s' = number s /\
      user_token_number s' = USER_NUMBER_HAS_STRING_ALIAS /\
      (sym <> str -> user_token_number r' = user_token_number s) /\
      class r' = token_sym /\
      (forall q, q <> sym -> q <> str -> heap st' !! q = heap st !! q)
  else
    exists d,
      symbol_make_alias sym str loc st
        = Ok tt (with_messages (messages st ++ [d]) st) /\
      d_flags d = Wother /\ d_loc d = Some loc.
Proof.
  intros Hs Hr. unfold symbol_make_alias. case_decide as Hal.
  - destruct Hal as [Har Has]. unfold symbol_type_set.
    destruct (decide (sym = str)) as [->|Hne].
    + assert (r = s) as -> by congruence.
      run_with Hs. rewrite bool_decide_false by tauto. run_with Hs.
      rewrite bool_decide_false by tauto. run_with Hs.
      destruct (type_name s) eqn:Hty; unfold symbol_redeclaration;
        repeat (progress (run_with Hs; rewrite ?Hty; simpl));
        (eexists _, _, _; split; [reflexivity|]; simpl;
         rewrite ?lookup_insert_eq;
         repeat apply conj; try reflexivity; try done;
         intros q Hq _; rewrite ?lookup_insert_ne by congruence; reflexivity).
    + run_with2 Hs Hr. rewrite bool_decide_false by tauto. run_with2 Hs Hr.
      rewrite bool_decide_false by tauto. run_with2 Hs Hr.
      destruct (type_name s) eqn:Hty; unfold symbol_redeclaration;
        repeat (progress (run_with2 Hs Hr; rewrite ?Hty; simpl));
        repeat (case_bool_decide;
                repeat (progress (run_with2 Hs Hr; rewrite ?Hty; simpl)));
        (eexists _, _, _; split; [reflexivity|]; simpl;
         rewrite ?lookup_insert_eq; rewrite ?lookup_insert_ne by congruence;
         rewrite ?lookup_insert_eq;
         repeat apply conj; try reflexivity; try done;
         intros q Hq1 Hq2; rewrite ?lookup_insert_ne by congruence; reflexivity).
  - run_with2 Hs Hr. case_bool_decide as Har.
    + run_monad. eexists. split; [reflexivity|]. split; reflexivity.
    + run_with2 Hs Hr. rewrite bool_decide_true by tauto. run_monad.
      eexists. split; [reflexivity|]. split; reflexivity.
Qed.

(** ** Properties of the stores *)


(** The color [print_graph_link] prints when asked for colors: red when the
    tail's outdegree and the head's indegree are both 1, blue when only the
    tail's outdegree is 1, red again when only the head's indegree is 1,
    black otherwise. *)
Lemma graph_link_color_cases tsym hsym :
  graph_link_color tsym hsym true =
    if decide (outdegree tsym = 1) then
      if decide (indegree hsym = 1) then "red" else "blue"
    else if decide (indegree hsym = 1) then "red" else "black".
Proof.
  unfold graph_link_color. repeat case_bool_decide; repeat case_decide; done.
Qed.

Local Close Scope Z_scope.

(** ** Properties of the matrix operations *)

Lemma square_lookup n g i :
  square n g -> i < n -> exists row, g !! i = Some row /\ length row = n.
Proof.
  intros [Hl Hr] Hi. destruct (lookup_lt_is_Some_2 g i) as [row Hrow]; [lia|].
  exists row. split; [done|]. exact (Forall_lookup_1 _ _ _ _ Hr Hrow).
Qed.

Lemma mat_get_lt n g i j : square n g -> mat_get g i j = true -> i < n /\ j < n.
Proof.
  intros [Hl Hr] Hg. unfold mat_get in Hg.
  destruct (g !! i) as [row|] eqn:Hi; [|done].
  destruct (row !! j) as [b|] eqn:Hj; [|done].
  apply lookup_lt_Some in Hi as Hi'. apply lookup_lt_Some in Hj.
  pose proof (Forall_lookup_1 _ _ _ _ Hr Hi). simpl in *. lia.
Qed.

Lemma mat_set_square n g i j b : square n g -> square n (mat_set g i j b).
Proof.
  intros [Hl Hr]. unfold mat_set. destruct (g !! i) as [row|] eqn:Hi; [|done].
  split; [by rewrite length_insert|].
  apply Forall_insert; [done|]. rewrite length_insert.
  exact (Forall_lookup_1 _ _ _ _ Hr Hi).
Qed.

Lemma mat_get_set n g i j b a c :
  square n g -> i < n -> j < n ->
  mat_get (mat_set g i j b) a c
    = if decide (a = i /\ c = j) then b else mat_get g a c.
Proof.
  intros Hsq Hi Hj. destruct (square_lookup n g i Hsq Hi) as (row & Hrow & Hlen).
  unfold mat_set, mat_get. rewrite Hrow.
  destruct (decide (a = i)) as [->|Hne].
  - rewrite list_lookup_insert_eq by (apply lookup_lt_Some in Hrow; lia).
    rewrite Hrow. destruct (decide (c = j)) as [->|Hne].
    + rewrite list_lookup_insert_eq by lia. by rewrite decide_True.
    + rewrite list_lookup_insert_ne by done. by rewrite decide_False by tauto.
  - rewrite list_lookup_insert_ne by done. by rewrite decide_False by tauto.
Qed.

Lemma new_graph_square n : square n (new_graph n).
Proof.
  unfold new_graph. split; [by rewrite length_replicate|].
  apply Forall_replicate. by rewrite length_replicate.
Qed.

Lemma mat_get_new_graph n i j : mat_get (new_graph n) i j = false.
Proof.
  unfold mat_get, new_graph.
  destruct (replicate n (replicate n false) !! i) as [row|] eqn:Hi; [|done].
  apply lookup_replicate in Hi as [-> _].
  destruct (replicate n false !! j) as [b|] eqn:Hj; [|done].
  by apply lookup_replicate in Hj as [-> _].
Qed.

Lemma copy_graph_square n c : square n (copy_graph n c).
Proof.
  unfold copy_graph. split.
  - by rewrite length_fmap, length_seq.
  - apply Forall_fmap, Forall_forall. intros i _. simpl.
    by rewrite length_fmap, length_seq.
Qed.

Lemma mat_get_copy_graph n c i j :
  i < n -> j < n -> mat_get (copy_graph n c) i j = mat_get c i j.
Proof.
  intros Hi Hj. unfold copy_graph. unfold mat_get at 1.
  rewrite list_lookup_fmap, lookup_seq_lt by done. simpl.
  rewrite list_lookup_fmap, lookup_seq_lt by done. reflexivity.
Qed.

(** The invariant rule for [for (j = 0; j < n; j += 1)]. *)
Lemma foldl_seq_invariant {A} (P : nat -> A -> Prop) (f : A -> nat -> A)
    (a0 : A) (n : nat) :
  P 0 a0 ->
  (forall j a, j < n -> P j a -> P (S j) (f a j)) ->
  P n (foldl f a0 (seq 0 n)).
Proof.
  intros H0 Hstep. induction n as [|n IH]; [done|].
  rewrite seq_S, foldl_app. simpl. apply Hstep; [lia|].
  apply IH. intros j a Hj. apply Hstep. lia.
Qed.

(** One row of one phase of Warshall's algorithm: row [i] is or-ed with row
    [k] when [cl[i][k]] is set.  The cells the loop reads keep their value
    while it writes. *)
Lemma warshall_row n k i m0 :
  square n m0 -> k < n -> i < n ->
  let m' := foldl (fun cl j =>
                     if mat_get cl i k && mat_get cl k j
                     then mat_set cl i j true else cl) m0 (seq 0 n) in
  square n m' /\
  forall a c, a < n -> c < n ->
    mat_get m' a c = if decide (a = i)
                     then mat_get m0 i c || (mat_get m0 i k && mat_get m0 k c)
                     else mat_get m0 a c.
Proof.
  intros Hsq Hk Hi m'. subst m'.
  pose (P := fun (J : nat) (m : list (list bool)) =>
    square n m /\
    forall a c, a < n -> c < n ->
      mat_get m a c = if decide (a = i /\ c < J)
                      then mat_get m0 i c || (mat_get m0 i k && mat_get m0 k c)
                      else mat_get m0 a c).
  assert (P n (foldl (fun cl j =>
                     if mat_get cl i k && mat_get cl k j
                     then mat_set cl i j true else cl) m0 (seq 0 n))) as [H1 H2].
  { apply foldl_seq_invariant.
    - split; [done|]. intros a c _ _. rewrite decide_False by lia. done.
    - intros j m Hj [Hm Hcells].
      assert (mat_get m i k = mat_get m0 i k) as Hx.
      { rewrite Hcells by done. case_decide; [|done].
        destruct (mat_get m0 i k); done. }
      assert (mat_get m k j = mat_get m0 k j) as Hy.
      { rewrite Hcells by done. rewrite decide_False by lia. done. }
      rewrite Hx, Hy.
      destruct (mat_get m0 i k && mat_get m0 k j) eqn:Hxy.
      + split; [by apply mat_set_square|]. intros a c Ha Hc.
        rewrite (mat_get_set n) by done. rewrite Hcells by done.
        repeat case_decide; try lia; try done.
        destruct_and!; subst. rewrite Hxy. by rewrite orb_true_r.
      + split; [done|]. intros a c Ha Hc. rewrite Hcells by done.
        repeat case_decide; try lia; try done.
        assert (c = j) as -> by lia. destruct_and!; subst.
        rewrite Hxy. by rewrite orb_false_r. }
  split; [done|]. intros a c Ha Hc. rewrite H2 by done.
  repeat case_decide; try done; try lia; tauto.
Qed.

(** One phase of Warshall's algorithm. *)
Lemma warshall_phase n k m0 :
  square n m0 -> k < n ->
  let m' := foldl (fun cl i =>
                     foldl (fun cl j =>
                              if mat_get cl i k && mat_get cl k j
                              then mat_set cl i j true else cl) cl (seq 0 n))
                  m0 (seq 0 n) in
  square n m' /\
  forall a c, a < n -> c < n ->
    mat_get m' a c = mat_get m0 a c || (mat_get m0 a k && mat_get m0 k c).
Proof.
  intros Hsq Hk m'. subst m'.
  pose (P := fun (I : nat) (m : list (list bool)) =>
    square n m /\
    forall a c, a < n -> c < n ->
      mat_get m a c = if decide (a < I)
                      then mat_get m0 a c || (mat_get m0 a k && mat_get m0 k c)
                      else mat_get m0 a c).
  assert (P n (foldl (fun cl i =>
                     foldl (fun cl j =>
                              if mat_get cl i k && mat_get cl k j
                              then mat_set cl i j true else cl) cl (seq 0 n))
                  m0 (seq 0 n))) as [H1 H2].
  { apply foldl_seq_invariant.
    - split; [done|]. intros a c _ _. rewrite decide_False by lia. done.
    - intros i m Hi [Hm Hcells].
      destruct (warshall_row n k i m Hm Hk Hi) as [Hsq' Hrow].
      split; [done|]. intros a c Ha Hc. rewrite Hrow by done.
      assert (mat_get m k c = mat_get m0 k c) as Hkc.
      { rewrite Hcells by done. case_decide; [|done].
        destruct (mat_get m0 k c), (mat_get m0 k k); done. }
      rewrite Hkc, !Hcells by done.
      repeat case_decide; try lia; try done. by subst a. }
  split; [done|]. intros a c Ha Hc. rewrite H2 by done.
  by rewrite decide_True by done.
Qed.

Lemma path_below_mono g k k' i j :
  k <= k' -> path_below g k i j -> path_below g k' i j.
Proof.
  intros Hk Hp. induction Hp as [i j He|i m j Hm _ IH1 _ IH2].
  - by apply path_edge.
  - apply (path_through g k' i m j); [lia|done|done].
Qed.

Lemma path_below_zero g i j : path_below g 0 i j <-> edge g i j.
Proof.
  split; [|apply path_edge]. intros Hp. destruct Hp as [i j He|i m j Hm _ _]; [done|lia].
Qed.

Lemma path_below_succ g k i j :
  path_below g (S k) i j <->
  path_below g k i j \/ (path_below g k i k /\ path_below g k k j).
Proof.
  split.
  - intros Hp. induction Hp as [i j He|i m j Hm _ IH1 _ IH2].
    + left. by apply path_edge.
    + destruct (decide (m = k)) as [->|Hne].
      * right. split.
        -- destruct IH1 as [H|[H _]]; done.
        -- destruct IH2 as [H|[_ H]]; done.
      * assert (m < k) as Hlt by lia.
        destruct IH1 as [H1|[H1 H1']], IH2 as [H2|[H2 H2']].
        -- left. by apply (path_through g k i m j).
        -- right. split; [by apply (path_through g k i m k)|done].
        -- right. split; [done|by apply (path_through g k k m j)].
        -- right. done.
  - intros [Hp|[Hp1 Hp2]].
    + apply (path_below_mono g k); [lia|done].
    + apply (path_through g (S k) i k j); [lia| |];
        (apply (path_below_mono g k); [lia|done]).
Qed.

Lemma path_below_tc n g i j :
  square n g -> path_below g n i j <-> tc (edge g) i j.
Proof.
  intros Hsq. split.
  - intros Hp. induction Hp as [i j He|i m j Hm _ IH1 _ IH2].
    + by apply tc_once.
    + by eapply tc_trans.
  - intros Htc. induction Htc as [i j He|i m j He _ IH].
    + by apply path_edge.
    + apply (path_through g n i m j); [|by apply path_edge|done].
      by destruct (mat_get_lt n g i m Hsq He).
Qed.

Lemma tc_edge_lt n g i j : square n g -> tc (edge g) i j -> i < n /\ j < n.
Proof.
  intros Hsq Htc. induction Htc as [i j He|i m j He _ IH].
  - by apply (mat_get_lt n g).
  - split; [|tauto]. by destruct (mat_get_lt n g i m Hsq He).
Qed.

(** Warshall's algorithm as [transitive_closure] runs it, in place, computes
    the transitive closure of the graph. *)
Lemma transitive_closure_spec n g :
  square n g ->
  square n (transitive_closure n g) /\
  forall i j, edge (transitive_closure n g) i j <-> tc (edge g) i j.
Proof.
  intros Hsq. unfold transitive_closure.
  pose (P := fun (K : nat) (m : list (list bool)) =>
    square n m /\
    forall a c, a < n -> c < n -> mat_get m a c = true <-> path_below g K a c).
  match goal with |- square n ?m /\ _ => assert (P n m) as [H1 H2] end.
  { apply foldl_seq_invariant.
    - split; [apply copy_graph_square|]. intros a c Ha Hc.
      rewrite mat_get_copy_graph by done. by rewrite path_below_zero.
    - intros k m Hk [Hm Hcells].
      destruct (warshall_phase n k m Hm Hk) as [Hsq' Hphase].
      split; [done|]. intros a c Ha Hc. rewrite Hphase by done.
      rewrite path_below_succ, orb_true_iff, andb_true_iff.
      rewrite !Hcells by done. done. }
  split; [done|]. intros i j. unfold edge. split.
  - intros He. destruct (mat_get_lt _ _ _ _ H1 He).
    apply (path_below_tc n); [done|]. by apply H2.
  - intros Htc. destruct (tc_edge_lt n g i j Hsq Htc).
    apply H2; [done|done|]. by apply (path_below_tc n).
Qed.

(** The three loops that fill [rem]: [rem[i][k]] is set as soon as some [j]
    has [cl[i][j]] and [cl[j][k]]. *)
Lemma rem_inner n (cl : list (list bool)) i j m0 :
  square n m0 -> i < n ->
  let m' := foldl (fun rem k =>
                     if negb (mat_get cl j k) then rem else mat_set rem i k true)
                  m0 (seq 0 n) in
  square n m' /\
  forall a c, a < n -> c < n ->
    mat_get m' a c = mat_get m0 a c || (bool_decide (a = i) && mat_get cl j c).
Proof.
  intros Hsq Hi m'. subst m'.
  pose (P := fun (K : nat) (m : list (list bool)) =>
    square n m /\
    forall a c, a < n -> c < n ->
      mat_get m a c
        = mat_get m0 a c || (bool_decide (a = i /\ c < K) && mat_get cl j c)).
  match goal with |- square n ?m /\ _ => assert (P n m) as [H1 H2] end.
  { apply foldl_seq_invariant.
    - split; [done|]. intros a c _ _.
      rewrite bool_decide_false by lia. by rewrite orb_false_r.
    - intros k m Hk [Hm Hcells]. destruct (mat_get cl j k) eqn:Hjk; simpl.
      + split; [by apply mat_set_square|]. intros a c Ha Hc.
        rewrite (mat_get_set n) by done. rewrite Hcells by done.
        repeat case_decide; repeat case_bool_decide; try lia;
          destruct_and?; subst; rewrite ?Hjk, ?orb_true_r, ?orb_false_r; try done;
          exfalso; lia.
      + split; [done|]. intros a c Ha Hc. rewrite Hcells by done.
        repeat case_bool_decide; try lia; try done.
        destruct_and?. assert (c = k) as -> by lia.
        by rewrite Hjk, !andb_false_r. }
  split; [done|]. intros a c Ha Hc. rewrite H2 by done.
  repeat case_bool_decide; try done; try lia; tauto.
Qed.

Lemma rem_middle n (cl : list (list bool)) i m0 :
  square n m0 -> i < n ->
  let m' := foldl (fun rem j =>
                     if negb (mat_get cl i j) then rem
                     else foldl (fun rem k =>
                                   if negb (mat_get cl j k) then rem
                                   else mat_set rem i k true) rem (seq 0 n))
                  m0 (seq 0 n) in
  square n m' /\
  forall a c, a < n -> c < n ->
    mat_get m' a c
      = mat_get m0 a c ||
        (bool_decide (a = i) &&
         existsb (fun j => mat_get cl i j && mat_get cl j c) (seq 0 n)).
Proof.
  intros Hsq Hi m'. subst m'.
  pose (P := fun (J : nat) (m : list (list bool)) =>
    square n m /\
    forall a c, a < n -> c < n ->
      mat_get m a c
        = mat_get m0 a c ||
          (bool_decide (a = i) &&
           existsb (fun j => mat_get cl i j && mat_get cl j c) (seq 0 J))).
  match goal with |- square n ?m /\ _ => assert (P n m) as [H1 H2] end
  ; [|by split].
  apply foldl_seq_invariant.
  - split; [done|]. intros a c _ _. simpl. by rewrite andb_false_r, orb_false_r.
  - intros j m Hj [Hm Hcells]. destruct (mat_get cl i j) eqn:Hij; simpl.
    + destruct (rem_inner n cl i j m Hm Hi) as [Hsq' Hin].
      split; [done|]. intros a c Ha Hc. rewrite Hin, Hcells by done.
      rewrite seq_S, existsb_app. simpl. rewrite Hij.
      destruct (mat_get m0 a c), (bool_decide (a = i)), (mat_get cl j c),
        (existsb _ _); done.
    + split; [done|]. intros a c Ha Hc. rewrite Hcells by done.
      rewrite seq_S, existsb_app. simpl. rewrite Hij. simpl.
      by rewrite !orb_false_r.
Qed.

Lemma rem_outer n (cl : list (list bool)) m0 :
  square n m0 ->
  let m' := foldl (fun rem i =>
              foldl (fun rem j =>
                       if negb (mat_get cl i j) then rem
                       else foldl (fun rem k =>
                                     if negb (mat_get cl j k) then rem
                                     else mat_set rem i k true) rem (seq 0 n))
                    rem (seq 0 n))
              m0 (seq 0 n) in
  square n m' /\
  forall a c, a < n -> c < n ->
    mat_get m' a c
      = mat_get m0 a c ||
        existsb (fun j => mat_get cl a j && mat_get cl j c) (seq 0 n).
Proof.
  intros Hsq m'. subst m'.
  pose (P := fun (I : nat) (m : list (list bool)) =>
    square n m /\
    forall a c, a < n -> c < n ->
      mat_get m a c
        = mat_get m0 a c ||
          (bool_decide (a < I) &&
           existsb (fun j => mat_get cl a j && mat_get cl j c) (seq 0 n))).
  match goal with |- square n ?m /\ _ => assert (P n m) as [H1 H2] end.
  { apply foldl_seq_invariant.
    - split; [done|]. intros a c _ _.
      rewrite bool_decide_false by lia. by rewrite orb_false_r.
    - intros i m Hi [Hm Hcells].
      destruct (rem_middle n cl i m Hm Hi) as [Hsq' Hmid].
      split; [done|]. intros a c Ha Hc. rewrite Hmid, Hcells by done.
      repeat case_bool_decide; try lia; subst; simpl;
        rewrite ?orb_false_r; try done;
        by destruct (mat_get m0 i c), (existsb _ _). }
  split; [done|]. intros a c Ha Hc. rewrite H2 by done.
  by rewrite bool_decide_true by done.
Qed.

(** The two loops that write the result back into [g]. *)
Lemma write_back n (v : nat -> nat -> bool) m0 :
  square n m0 ->
  let m' := foldl (fun g i =>
                     foldl (fun g j => mat_set g i j (v i j)) g (seq 0 n))
                  m0 (seq 0 n) in
  square n m' /\ forall a c, a < n -> c < n -> mat_get m' a c = v a c.
Proof.
  intros Hsq m'. subst m'.
  pose (P := fun (I : nat) (m : list (list bool)) =>
    square n m /\
    forall a c, a < n -> c < n ->
      mat_get m a c = if decide (a < I) then v a c else mat_get m0 a c).
  match goal with |- square n ?m /\ _ => assert (P n m) as [H1 H2] end.
  { apply foldl_seq_invariant.
    - split; [done|]. intros a c _ _. by rewrite decide_False by lia.
    - intros i m Hi [Hm Hcells].
      pose (Q := fun (J : nat) (m' : list (list bool)) =>
        square n m' /\
        forall a c, a < n -> c < n ->
          mat_get m' a c = if decide (a = i /\ c < J) then v a c
                           else mat_get m a c).
      assert (Q n (foldl (fun g j => mat_set g i j (v i j)) m (seq 0 n)))
        as [H1 H2].
      { apply foldl_seq_invariant.
        - split; [done|]. intros a c _ _. by rewrite decide_False by lia.
        - intros j m' Hj [Hm' Hcells']. split; [by apply mat_set_square|].
          intros a c Ha Hc. rewrite (mat_get_set n) by done.
          rewrite Hcells' by done.
          repeat case_decide; try lia; try done; destruct_and?; by subst. }
      split; [done|]. intros a c Ha Hc. rewrite H2, Hcells by done.
      repeat case_decide; try lia; try done. }
  split; [done|]. intros a c Ha Hc. rewrite H2 by done.
  by rewrite decide_True by done.
Qed.

(** The matrix [transitive_reduction] leaves in [g]: the edge [(i, k)] is
    kept iff the closure has it and no intermediate [j] has both
    [cl[i][j]] and [cl[j][k]]. *)
Lemma transitive_reduction_cells n g :
  square n g ->
  square n (transitive_reduction n g) /\
  forall i k, i < n -> k < n ->
    mat_get (transitive_reduction n g) i k
      = mat_get (transitive_closure n g) i k &&
        negb (existsb (fun j => mat_get (transitive_closure n g) i j &&
                                mat_get (transitive_closure n g) j k)
                      (seq 0 n)).
Proof.
  intros Hsq. unfold transitive_reduction.
  set (cl := transitive_closure n g).
  destruct (rem_outer n cl (new_graph n) (new_graph_square n)) as [Hrsq Hrem].
  simpl in Hrsq, Hrem.
  match type of Hrsq with square n ?r => set (rem := r) in * end.
  destruct (write_back n (fun i j => mat_get cl i j && negb (mat_get rem i j))
              g Hsq) as [Hwsq Hw].
  split; [exact Hwsq|]. intros i k Hi Hk.
  etrans; [apply (Hw i k Hi Hk)|]. simpl.
  rewrite Hrem by done. by rewrite mat_get_new_graph.
Qed.

Lemma filter_length_le {A} (f h : A -> bool) (l : list A) :
  (forall x, In x l -> f x = true -> h x = true) ->
  length (List.filter f l) <= length (List.filter h l).
Proof.
  induction l as [|x l IH]; intros Hfh; [done|]. simpl.
  assert (length (List.filter f l) <= length (List.filter h l)) as Hle.
  { apply IH. intros y Hy. apply Hfh. by right. }
  destruct (f x) eqn:Hfx.
  - rewrite (Hfh x) by (done || by left). simpl. lia.
  - destruct (h x); simpl; lia.
Qed.

Lemma filter_length_lt {A} (f h : A -> bool) (l : list A) (y : A) :
  (forall x, In x l -> f x = true -> h x = true) ->
  In y l -> h y = true -> f y = false ->
  length (List.filter f l) < length (List.filter h l).
Proof.
  induction l as [|x l IH]; intros Hfh Hy Hhy Hfy; [done|]. simpl.
  assert (length (List.filter f l) <= length (List.filter h l)) as Hle.
  { apply filter_length_le. intros z Hz. apply Hfh. by right. }
  destruct Hy as [->|Hy].
  - rewrite Hfy, Hhy. simpl. lia.
  - assert (length (List.filter f l) < length (List.filter h l)) as Hlt.
    { apply IH; try done. intros z Hz. apply Hfh. by right. }
    destruct (f x) eqn:Hfx.
    + rewrite (Hfh x) by (done || by left). simpl. lia.
    + destruct (h x); simpl; lia.
Qed.

(** The emitted edge set in terms of the closure of the input. *)
Lemma transitive_reduction_edge n g i k :
  square n g ->
  edge (transitive_reduction n g) i k <->
  tc (edge g) i k /\ ~ exists j, tc (edge g) i j /\ tc (edge g) j k.
Proof.
  intros Hsq. destruct (transitive_closure_spec n g Hsq) as [Hclsq Hcl].
  destruct (transitive_reduction_cells n g Hsq) as [Hrsq Hr].
  unfold edge in *. split.
  - intros He. destruct (mat_get_lt _ _ _ _ Hrsq He) as [Hi Hk].
    rewrite Hr in He by done. apply andb_true_iff in He as [He1 He2].
    split; [by apply Hcl|]. intros (j & Hij & Hjk).
    apply negb_true_iff in He2.
    assert (existsb (fun j => mat_get (transitive_closure n g) i j &&
                              mat_get (transitive_closure n g) j k) (seq 0 n)
            = true) as Hex; [|congruence].
    apply existsb_exists. exists j. split.
    + apply in_seq. destruct (tc_edge_lt n g i j Hsq Hij). lia.
    + apply andb_true_iff. split; by apply Hcl.
  - intros [Hik Hno]. destruct (tc_edge_lt n g i k Hsq Hik) as [Hi Hk].
    rewrite Hr by done. apply andb_true_iff. split; [by apply Hcl|].
    apply negb_true_iff. apply not_true_is_false. intros Hex.
    apply existsb_exists in Hex as (j & _ & Hj).
    apply andb_true_iff in Hj as [Hj1 Hj2].
    apply Hno. exists j. split; by apply Hcl.
Qed.

(** In an acyclic graph every pair of the closure is reached through
    emitted edges: by induction on the number of nodes between the two. *)
Lemma transitive_reduction_reaches n g :
  square n g -> acyclic g ->
  forall i k, tc (edge g) i k -> tc (edge (transitive_reduction n g)) i k.
Proof.
  intros Hsq Hac. destruct (transitive_closure_spec n g Hsq) as [Hclsq Hcl].
  unfold edge in Hcl.
  intros i k. remember (between n (transitive_closure n g) i k) as b eqn:Hb.
  revert i k Hb. induction b as [b IH] using lt_wf_ind. intros i k Hb Hik.
  destruct (existsb (fun j => mat_get (transitive_closure n g) i j &&
                              mat_get (transitive_closure n g) j k) (seq 0 n))
    eqn:Hex.
  - apply existsb_exists in Hex as (j & Hjn & Hj).
    apply andb_true_iff in Hj as [Hj1 Hj2].
    assert (tc (edge g) i j) as Hij by by apply Hcl.
    assert (tc (edge g) j k) as Hjk by by apply Hcl.
    apply tc_trans with j.
    + apply (IH (between n (transitive_closure n g) i j)); [|done|done].
      subst b. unfold between. apply (filter_length_lt _ _ _ j); try done.
      * intros x _ Hx. apply andb_true_iff in Hx as [Hx1 Hx2].
        apply andb_true_iff. split; [done|]. apply Hcl.
        apply tc_trans with j; [by apply Hcl|done].
      * by rewrite Hj1, Hj2.
      * apply andb_false_iff. right. apply not_true_is_false. intros Hjj.
        apply (Hac j). by apply Hcl.
    + apply (IH (between n (transitive_closure n g) j k)); [|done|done].
      subst b. unfold between. apply (filter_length_lt _ _ _ j); try done.
      * intros x _ Hx. apply andb_true_iff in Hx as [Hx1 Hx2].
        apply andb_true_iff. split; [|done]. apply Hcl.
        apply tc_trans with j; [done|by apply Hcl].
      * by rewrite Hj1, Hj2.
      * apply andb_false_iff. left. apply not_true_is_false. intros Hjj.
        apply (Hac j). by apply Hcl.
  - apply tc_once. apply (transitive_reduction_edge n g i k Hsq).
    split; [done|]. intros (j & Hij & Hjk).
    assert (existsb (fun j => mat_get (transitive_closure n g) i j &&
                              mat_get (transitive_closure n g) j k) (seq 0 n)
            = true) as Hex'; [|congruence].
    apply existsb_exists. exists j. split.
    + apply in_seq. destruct (tc_edge_lt n g i j Hsq Hij). lia.
    + apply andb_true_iff. split; by apply Hcl.
Qed.

(** C1, as the code has it.  For every acyclic graph handed to
    [transitive_reduction] the emitted edge set [R] (edge [(i, k)] iff the
    closure has it and no intermediate [j] has [Cl[i][j]] and [Cl[j][k]])
    has the closure of the input as its transitive closure, and no proper
    subset of [R] has that closure.  For the relations [A > B], [B > C],
    [A > C] the links printed are exactly [A > B] and [B > C]. *)
Theorem transitive_reduction_correct :
  (forall n g,
     square n g -> acyclic g ->
     (forall i k, edge (transitive_reduction n g) i k <->
                  tc (edge g) i k /\
                  ~ exists j, tc (edge g) i j /\ tc (edge g) j k) /\
     (forall i k, tc (edge (transitive_reduction n g)) i k <-> tc (edge g) i k) /\
     (forall g', proper_subgraph g' (transitive_reduction n g) ->
                 ~ forall i k, tc (edge g') i k <-> tc (edge g) i k)) /\
  print_transitive_reduction_links 6 (default [] triangle_relations)
    = [(3, 4); (4, 5)].
Proof.
  split; [|vm_compute; reflexivity].
  intros n g Hsq Hac. split; [|split].
  - intros i k. by apply transitive_reduction_edge.
  - intros i k. split.
    + intros Htc. induction Htc as [i k He|i j k He _ IH].
      * by apply (transitive_reduction_edge n g i k Hsq).
      * apply tc_trans with j; [|done].
        by apply (transitive_reduction_edge n g i j Hsq).
    + by apply transitive_reduction_reaches.
  - intros g' [Hsub (i & k & He & Hne)] Hsame.
    apply (transitive_reduction_edge n g i k Hsq) in He as [Hik Hno].
    apply Hsame in Hik. destruct Hik as [i k He'|i j k He' Hjk]; [done|].
    apply Hno. exists j. split.
    + apply Hsub in He'. by apply (transitive_reduction_edge n g i j Hsq).
    + by apply Hsame.
Qed.

Local Open Scope Z_scope.

(** ** Frame reasoning for monadic code *)

Lemma bind_ok_inv {A B} (m : M A) (k : A -> M B) st b st' :
  bind m k st = Ok b st' ->
  exists a st1, m st = Ok a st1 /\ k a st1 = Ok b st'.
Proof.
  unfold bind. destruct (m st) as [a st1|f st1]; [|done]. eauto.
Qed.

Lemma bind_ok {A B} (m : M A) (k : A -> M B) st a st1 :
  m st = Ok a st1 -> bind m k st = k a st1.
Proof. intros H. unfold bind. by rewrite H. Qed.

Section Preserves.
Context (R : relation state) `{!PreOrder R}.

Lemma preserves_ret {A} (a : A) : preserves R (ret a).
Proof. intros st a' st' [= <- <-]. reflexivity. Qed.

Lemma preserves_stop {A} f : preserves R (@stop A f).
Proof. intros st a' st' [=]. Qed.

Lemma preserves_gets {A} (f : state -> A) : preserves R (gets f).
Proof. intros st a' st' [= <- <-]. reflexivity. Qed.

Lemma preserves_bind {A B} (m : M A) (k : A -> M B) :
  preserves R m -> (forall a, preserves R (k a)) -> preserves R (bind m k).
Proof.
  intros Hm Hk st b st' H. apply bind_ok_inv in H as (a & st1 & H1 & H2).
  transitivity st1; [by eapply Hm|by eapply Hk].
Qed.

Lemma preserves_when b (m : M unit) :
  preserves R m -> preserves R (when b m).
Proof. intros Hm. destruct b; [done|apply preserves_ret]. Qed.

Lemma preserves_aver b : preserves R (aver b).
Proof. destruct b; [apply preserves_ret|apply preserves_stop]. Qed.

Lemma preserves_nonnull {A} (o : option A) : preserves R (nonnull o).
Proof. destruct o; [apply preserves_ret|apply preserves_stop]. Qed.

Lemma preserves_deref p : preserves R (deref p).
Proof.
  intros st a st' H. unfold deref in H.
  destruct (heap st !! p); [|done]. injection H as <- <-. reflexivity.
Qed.

Lemma preserves_deref_type t : preserves R (deref_type t).
Proof.
  intros st a st' H. unfold deref_type in H.
  destruct (semantic_type_table st !! t); [|done].
  injection H as <- <-. reflexivity.
Qed.

Lemma preserves_symbols_load i : preserves R (symbols_load i).
Proof.
  intros st a st' H. unfold symbols_load in H.
  destruct (if bool_decide (0 <= i) then _ else _); [|done].
  injection H as <- <-. reflexivity.
Qed.

Lemma preserves_token_translations_load i :
  preserves R (token_translations_load i).
Proof.
  intros st a st' H. unfold token_translations_load in H.
  destruct (if bool_decide (0 <= i) then _ else _); [|done].
  injection H as <- <-. reflexivity.
Qed.

Lemma preserves_modify f :
  (forall st, R st (f st)) -> preserves R (modify f).
Proof. intros Hf st a st' [= <- <-]. apply Hf. Qed.

Lemma preserves_update p f :
  (forall st s, heap st !! p = Some s ->
                R st (with_heap (<[p := f s]> (heap st)) st)) ->
  preserves R (update p f).
Proof.
  intros Hf st a st' H. unfold update in H.
  destruct (heap st !! p) as [s|] eqn:Hs; [|done].
  injection H as <- <-. by apply Hf.
Qed.

Lemma preserves_for_each {A} (l : list A) (body : A -> M unit) :
  (forall x, preserves R (body x)) -> preserves R (for_each l body).
Proof.
  intros Hb. induction l as [|x l IH]; simpl; [apply preserves_ret|].
  apply preserves_bind; [apply Hb|done].
Qed.

Lemma preserves_for_fold {A S} (l : list A) (body : A -> S -> M S) (s : S) :
  (forall x s, preserves R (body x s)) -> preserves R (for_fold l body s).
Proof.
  intros Hb. revert s. induction l as [|x l IH]; intros s; simpl;
    [apply preserves_ret|].
  apply preserves_bind; [apply Hb|done].
Qed.

Lemma preserves_complain loc flags fmt args :
  (forall st d, R st (with_messages (messages st ++ [d]) st)) ->
  preserves R (complain loc flags fmt args).
Proof.
  intros Hm. unfold complain. apply preserves_bind.
  - apply preserves_modify. intros st. apply Hm.
  - intros _. case_decide; [apply preserves_stop|apply preserves_ret].
Qed.

Lemma preserves_complain_indent loc flags indent fmt args :
  (forall st d, R st (with_messages (messages st ++ [d]) st)) ->
  preserves R (complain_indent loc flags indent fmt args).
Proof.
  intros Hm. unfold complain_indent. apply preserves_bind.
  - apply preserves_modify. intros st. apply Hm.
  - intros _. case_decide; [apply preserves_stop|apply preserves_ret].
Qed.
End Preserves.

(** Decomposes a monadic program into its primitive steps, leaving the
    obligations of the writes. *)
Ltac preserves_steps :=
  repeat first
    [ apply preserves_ret | apply preserves_stop | apply preserves_gets
    | apply preserves_deref | apply preserves_deref_type
    | apply preserves_nonnull | apply preserves_aver
    | apply preserves_symbols_load | apply preserves_token_translations_load
    | apply preserves_bind | apply preserves_when
    | apply preserves_for_each | apply preserves_for_fold
    | apply preserves_complain | apply preserves_complain_indent
    | apply preserves_modify | apply preserves_update
    | progress intros
    | match goal with
      | |- PreOrder _ => apply _
      | |- preserves _ (if ?b then _ else _) => destruct b
      | |- preserves _ (match ?x with _ => _ end) => destruct x
      | |- preserves _ (let '(_, _) := ?x in _) => destruct x
      end ].

(** ** Token translation *)

Lemma upto_of_nat n : upto (Z.of_nat n) = Z.of_nat <$> seq 0 n.
Proof. unfold upto. by rewrite Nat2Z.id. Qed.

Lemma for_fold_app {A S} (l1 l2 : list A) (body : A -> S -> M S) s st :
  for_fold (l1 ++ l2) body s st
  = bind (for_fold l1 body s) (fun s' => for_fold l2 body s') st.
Proof.
  revert s st. induction l1 as [|x l1 IH]; intros s st; [reflexivity|].
  simpl. unfold bind. destruct (body x s st) as [s' st1|f st1]; [|done].
  rewrite IH. reflexivity.
Qed.

Lemma for_each_app {A} (l1 l2 : list A) (body : A -> M unit) st :
  for_each (l1 ++ l2) body st
  = bind (for_each l1 body) (fun _ => for_each l2 body) st.
Proof.
  revert st. induction l1 as [|x l1 IH]; intros st; [reflexivity|].
  simpl. unfold bind. destruct (body x st) as [s' st1|f st1]; [|done].
  rewrite IH. reflexivity.
Qed.

(** Invariant rules for the counted loops, with termination. *)
Lemma for_fold_upto_total {T} (P : nat -> T -> state -> Prop)
    (body : Z -> T -> M T) s0 st n :
  P 0%nat s0 st ->
  (forall j s st1, (j < n)%nat -> P j s st1 ->
     exists s' st2, body (Z.of_nat j) s st1 = Ok s' st2 /\ P (S j) s' st2) ->
  exists s' st', for_fold (upto (Z.of_nat n)) body s0 st = Ok s' st' /\ P n s' st'.
Proof.
  intros H0 Hstep. rewrite upto_of_nat. induction n as [|n IH].
  - exists s0, st. done.
  - destruct IH as (s1 & st1 & Hrun & HP).
    { intros j s st1 Hj. apply Hstep. lia. }
    destruct (Hstep n s1 st1) as (s2 & st2 & Hb & HP2); [lia|done|].
    exists s2, st2. split; [|done].
    rewrite seq_S, fmap_app, for_fold_app. rewrite (bind_ok _ _ _ _ _ Hrun).
    simpl. rewrite (bind_ok _ _ _ _ _ Hb). done.
Qed.

Lemma for_each_upto_total (P : nat -> state -> Prop) (body : Z -> M unit) st n :
  P 0%nat st ->
  (forall j st1, (j < n)%nat -> P j st1 ->
     exists st2, body (Z.of_nat j) st1 = Ok tt st2 /\ P (S j) st2) ->
  exists st', for_each (upto (Z.of_nat n)) body st = Ok tt st' /\ P n st'.
Proof.
  intros H0 Hstep. rewrite upto_of_nat. induction n as [|n IH].
  - exists st. done.
  - destruct IH as (st1 & Hrun & HP).
    { intros j st1 Hj. apply Hstep. lia. }
    destruct (Hstep n st1) as (st2 & Hb & HP2); [lia|done|].
    exists st2. split; [|done].
    rewrite seq_S, fmap_app, for_each_app. rewrite (bind_ok _ _ _ _ _ Hrun).
    simpl. rewrite (bind_ok _ _ _ _ _ Hb). done.
Qed.

Lemma symbols_load_at st i p :
  symbols st !! i = Some p -> symbols_load (Z.of_nat i) st = Ok p st.
Proof.
  intros H. unfold symbols_load. rewrite bool_decide_true by lia.
  by rewrite Nat2Z.id, H.
Qed.

(** The first loop: the highest declared number, and whether 256 is free. *)
Lemma highest_user_token_loop st toks :
  USER_NUMBER_UNDEFINED <> 256 ->
  tokens_are st toks ->
  exists m (avail : bool),
    for_fold (upto (ntokens st)) highest_user_token_step true
      (with_max_user_token_number 0 st)
      = Ok avail (with_max_user_token_number m st) /\
    0 <= m /\
    (forall p, p ∈ toks -> utn (heap st) p <> USER_NUMBER_UNDEFINED ->
               utn (heap st) p <= m) /\
    (m = 0 \/ exists p, p ∈ toks /\ utn (heap st) p <> USER_NUMBER_UNDEFINED /\
                        utn (heap st) p = m) /\
    (avail = true <-> forall p, p ∈ toks -> utn (heap st) p <> 256).
Proof.
  intros Hundef (Hn & Hsym & Hrec). rewrite Hn.
  pose (P := fun (j : nat) (avail : bool) (st1 : state) =>
    exists m, st1 = with_max_user_token_number m st /\ 0 <= m /\
      (forall i p, (i < j)%nat -> toks !! i = Some p ->
                   utn (heap st) p <> USER_NUMBER_UNDEFINED -> utn (heap st) p <= m) /\
      (m = 0 \/ exists p, p ∈ toks /\ utn (heap st) p <> USER_NUMBER_UNDEFINED /\
                          utn (heap st) p = m) /\
      (avail = true <-> forall i p, (i < j)%nat -> toks !! i = Some p ->
                                    utn (heap st) p <> 256)).
  destruct (for_fold_upto_total P highest_user_token_step true
              (with_max_user_token_number 0 st) (length toks))
    as (avail & st1 & Hrun & m & -> & Hm0 & Hbound & Hatt & Hav).
  - exists 0. split; [done|]. split; [done|]. split; [intros; lia|].
    split; [by left|]. split; [intros; lia|done].
  - intros j avail st1 Hj (m & -> & Hm0 & Hbound & Hatt & Hav).
    destruct (lookup_lt_is_Some_2 toks j Hj) as [p Hp].
    destruct (Hrec p) as [s Hs]; [by eapply list_elem_of_lookup_2|].
    assert (utn (heap st) p = user_token_number s) as Hutn
      by (unfold utn; by rewrite Hs).
    unfold highest_user_token_step.
    rewrite (bind_ok _ _ _ _ _
               (symbols_load_at (with_max_user_token_number m st) j (Some p)
                  (Hsym j p Hp))).
    run_with Hs.
    assert (forall (Q : nat -> Prop), (forall i q, (i < S j)%nat -> toks !! i = Some q -> Q q)
              <-> (forall i q, (i < j)%nat -> toks !! i = Some q -> Q q) /\ Q p) as Hsplit.
    { intros Q. split.
      - intros H. split; [intros i q Hi; apply H; lia|by apply (H j); [lia|]].
      - intros [H1 H2] i q Hi Hq. destruct (decide (i = j)) as [->|Hne].
        + by assert (q = p) as -> by congruence.
        + apply (H1 i); [lia|done]. }
    case_bool_decide as Hdef; simpl.
    + case_bool_decide as Hgt; simpl; case_bool_decide as H256; simpl;
        (eexists _, _; split; [reflexivity|]);
        [exists (user_token_number s)|exists (user_token_number s)|exists m|exists m];
        (split; [done|]); (split; [lia|]);
        (split; [intros i q Hi Hq Hq'; destruct (decide (i = j)) as [->|Hne];
                 [assert (q = p) as -> by congruence; lia
                 |specialize (Hbound i q ltac:(lia) Hq Hq'); lia]|]);
        (split; [first [right; exists p; split; [by eapply list_elem_of_lookup_2|];
                        split; [congruence|congruence]
                       |done]|]);
        rewrite (Hsplit (fun q => utn (heap st) q <> 256));
        rewrite <- Hav, Hutn; split; try done; try tauto;
        intros [? ?]; congruence.
    + eexists _, _; split; [reflexivity|]. exists m.
      split; [done|]. split; [lia|].
      split; [intros i q Hi Hq Hq'; destruct (decide (i = j)) as [->|Hne];
              [assert (q = p) as -> by congruence; congruence
              |apply (Hbound i q); [lia|done|done]]|].
      split; [done|].
      rewrite (Hsplit (fun q => utn (heap st) q <> 256)).
      rewrite <- Hav, Hutn. split; [|tauto]. intros ->. split; [done|congruence].
  - exists m, avail. split; [done|]. split; [done|]. split; [|split; [done|]].
    + intros p Hp. apply list_elem_of_lookup_1 in Hp as [i Hi].
      apply (Hbound i); [by eapply lookup_lt_Some|done].
    + rewrite Hav. split.
      * intros H p Hp. apply list_elem_of_lookup_1 in Hp as [i Hi].
        apply (H i); [by eapply lookup_lt_Some|done].
      * intros H i p _ Hp. apply H. by eapply list_elem_of_lookup_2.
Qed.

Lemma modify_run f st : modify f st = Ok tt (f st).
Proof. reflexivity. Qed.

Lemma gets_run {A} (f : state -> A) st : gets f st = Ok (f st) st.
Proof. reflexivity. Qed.

Lemma wrap_int_small z : INT_MIN <= z <= INT_MAX -> wrap_int z = z.
Proof.
  unfold wrap_int, INT_MIN, INT_MAX. intros Hz.
  rewrite Z.mod_small by lia. lia.
Qed.

(** The second loop: every token still without a user number takes the
    next number above the highest one, as long as the numbers stay in the
    range of [int]. *)
Lemma missing_user_token_loop st toks h1 m2 :
  USER_NUMBER_UNDEFINED < 0 ->
  tokens_are st toks ->
  (forall p, p ∈ toks -> is_Some (h1 !! p)) ->
  256 <= m2 ->
  m2 + Z.of_nat (length toks) <= INT_MAX ->
  (forall p, p ∈ toks -> utn h1 p <> USER_NUMBER_UNDEFINED -> utn h1 p <= m2) ->
  (m2 = 256 \/ exists p, p ∈ toks /\ utn h1 p = m2) ->
  exists h m,
    for_each (upto (ntokens st)) missing_user_token_step
      (with_heap h1 (with_max_user_token_number m2 st))
      = Ok tt (with_heap h (with_max_user_token_number m st)) /\
    256 <= m <= m2 + Z.of_nat (length toks) /\
    (forall p, p ∈ toks -> utn h p <> USER_NUMBER_UNDEFINED /\ utn h p <= m) /\
    (m = 256 \/ exists p, p ∈ toks /\ utn h p = m) /\
    (forall p, utn h1 p <> USER_NUMBER_UNDEFINED -> h !! p = h1 !! p) /\
    (forall p, h !! p = h1 !! p \/ 257 <= utn h p).
Proof.
  intros Hundef (Hn & Hsym & _) Hrec Hm2 Hint Hbound Hatt. rewrite Hn.
  pose (P := fun (j : nat) (st1 : state) =>
    exists h m, st1 = with_heap h (with_max_user_token_number m st) /\
      256 <= m <= m2 + Z.of_nat j /\
      (forall p, p ∈ toks -> is_Some (h !! p)) /\
      (forall i p, (i < j)%nat -> toks !! i = Some p ->
                   utn h p <> USER_NUMBER_UNDEFINED) /\
      (forall p, p ∈ toks -> utn h p <> USER_NUMBER_UNDEFINED -> utn h p <= m) /\
      (m = 256 \/ exists p, p ∈ toks /\ utn h p = m) /\
      (forall p, utn h1 p <> USER_NUMBER_UNDEFINED -> h !! p = h1 !! p) /\
      (forall p, h !! p = h1 !! p \/ 257 <= utn h p)).
  destruct (for_each_upto_total P missing_user_token_step
              (with_heap h1 (with_max_user_token_number m2 st)) (length toks))
    as (st1 & Hrun & h & m & -> & Hm & Hrec' & Hdef & Hbound' & Hatt' & Hkeep & Hch).
  - exists h1, m2. repeat split; try done; try (intros; lia). by left.
  - intros j st1 Hj (h & m & -> & Hm & Hrec' & Hdef & Hbound' & Hatt' & Hkeep & Hch).
    destruct (lookup_lt_is_Some_2 toks j Hj) as [p Hp].
    assert (p ∈ toks) as Hpin by by eapply list_elem_of_lookup_2.
    destruct (Hrec' p Hpin) as [s Hs].
    assert (utn h p = user_token_number s) as Hutn
      by (unfold utn; by rewrite Hs).
    unfold missing_user_token_step.
    rewrite (bind_ok _ _ _ _ _
               (symbols_load_at (with_heap h (with_max_user_token_number m st))
                  j (Some p) (Hsym j p Hp))).
    run_with Hs. case_bool_decide as Hu; run_with Hs.
    + rewrite (wrap_int_small (m + 1)) by (unfold INT_MIN; lia).
      rewrite bool_decide_false by lia. eexists. split; [reflexivity|].
      exists (<[p := set_user_token_number (m + 1) s]> h), (m + 1).
      split; [reflexivity|]. split; [lia|].
      assert (forall q, utn (<[p := set_user_token_number (m + 1) s]> h) q
                        = if decide (q = p) then m + 1 else utn h q) as Hnew.
      { intros q. unfold utn. case_decide as Hq.
        - subst q. by rewrite lookup_insert_eq.
        - by rewrite lookup_insert_ne. }
      split; [intros q Hq; destruct (decide (q = p)) as [->|Hne];
              [rewrite lookup_insert_eq; eauto
              |rewrite lookup_insert_ne by done; by apply Hrec']|].
      split; [intros i q Hi Hq; rewrite Hnew; case_decide; [lia|];
              apply (Hdef i q); [|done];
              destruct (decide (i = j)) as [->|]; [congruence|lia]|].
      split; [intros q Hq; rewrite Hnew; case_decide; [lia|];
              intros Hq'; specialize (Hbound' q Hq Hq'); lia|].
      split; [right; exists p; split; [done|]; rewrite Hnew;
              by rewrite decide_True|].
      split; [intros q Hq; destruct (decide (q = p)) as [->|Hne];
              [exfalso; pose proof (Hkeep p Hq) as Hk; unfold utn in Hq;
               rewrite <- Hk, Hs in Hq; done
              |rewrite lookup_insert_ne by done; by apply Hkeep]|].
      intros q. destruct (decide (q = p)) as [->|Hne].
      * right. rewrite Hnew. rewrite decide_True by done. lia.
      * rewrite Hnew, decide_False by done.
        rewrite lookup_insert_ne by done. apply Hch.
    + rewrite bool_decide_false
        by (specialize (Hbound' p Hpin); rewrite Hutn in Hbound'; lia).
      eexists. split; [reflexivity|]. exists h, m.
      split; [reflexivity|]. repeat split; try done; try lia.
      intros i q Hi Hq. destruct (decide (i = j)) as [->|Hne].
      * assert (q = p) as -> by congruence. by rewrite Hutn.
      * apply (Hdef i q); [lia|done].
  - exists h, m. split; [done|]. split; [done|]. split; [|done].
    intros p Hp. split; [|].
    + apply list_elem_of_lookup_1 in Hp as [i Hi].
      apply (Hdef i); [by eapply lookup_lt_Some|done].
    + apply Hbound'; [done|]. apply list_elem_of_lookup_1 in Hp as [i Hi].
      apply (Hdef i); [by eapply lookup_lt_Some|done].
Qed.

Lemma foldr_max_intro (l : list Z) (m : Z) :
  (forall x, x ∈ l -> x <= m) -> 256 <= m -> (m = 256 \/ m ∈ l) ->
  foldr Z.max 256 l = m.
Proof.
  intros Hle H256 Hin.
  assert (foldr Z.max 256 l <= m) as Hub.
  { clear Hin. induction l as [|x l IH]; simpl; [done|].
    apply Z.max_lub; [apply Hle; by left|]. apply IH. intros y Hy.
    apply Hle. by right. }
  assert (m <= foldr Z.max 256 l) as Hlb; [|lia].
  assert (256 <= foldr Z.max 256 l) as Hge.
  { clear. induction l as [|x l IH]; simpl; lia. }
  destruct Hin as [->|Hin]; [done|]. clear Hle Hub.
  induction l as [|x l IH]; [by apply elem_of_nil in Hin|].
  simpl. apply elem_of_cons in Hin as [->|Hin]; [lia|].
  assert (256 <= foldr Z.max 256 l) by (clear; induction l; simpl; lia).
  specialize (IH Hin). lia.
Qed.

Lemma preserves_symbols_do (R : relation state) `{!PreOrder R} processor :
  (forall p, preserves R (processor p)) ->
  (forall st v, R st (with_symbols_sorted v st)) ->
  preserves R (symbols_do processor).
Proof. intros Hp Hs. unfold symbols_do. preserves_steps; auto. Qed.

Lemma preserves_token_translations_store (R : relation state) i v :
  (forall st l, R st (with_token_translations l st)) ->
  preserves R (token_translations_store i v).
Proof.
  intros HR st a st' H. unfold token_translations_store in H.
  case_bool_decide; [|done]. injection H as <- <-. apply HR.
Qed.

Lemma preserves_symbols_store (R : relation state) i v :
  (forall st l, R st (with_symbols l st)) ->
  preserves R (symbols_store i v).
Proof.
  intros HR st a st' H. unfold symbols_store in H.
  case_bool_decide; [|done]. injection H as <- <-. apply HR.
Qed.

#[local] Instance same_records_preorder : PreOrder same_records.
Proof.
  split; [by intros st|].
  intros st1 st2 st3 [H1 H2] [H3 H4]. split; congruence.
Qed.

Lemma symbol_translation_same_records this :
  preserves same_records (symbol_translation this).
Proof.
  unfold symbol_translation, user_token_number_redeclaration.
  preserves_steps; try apply preserves_token_translations_store;
    try by intros.
Qed.

Lemma foldr_max_ge (l : list Z) :
  256 <= foldr Z.max 256 l /\ forall x, x ∈ l -> x <= foldr Z.max 256 l.
Proof.
  induction l as [|y l [IH1 IH2]]; simpl.
  - split; [done|]. intros x Hx. by apply elem_of_nil in Hx.
  - split; [lia|]. intros x Hx. apply elem_of_cons in Hx as [->|Hx]; [lia|].
    specialize (IH2 x Hx). lia.
Qed.

(** When [symbols_token_translations_init] returns, on a state whose first
    [ntokens] slots hold the token records [toks] and whose numbers leave
    room in [int] for one more number per token: [max_user_token_number] is
    the maximum of 256 and the user token numbers the tokens of those slots
    end with, every such token has a user number, the numbers that were
    declared are kept, and the error token has been given 256 exactly when
    no token of those slots held 256 and the error token had no user
    number. *)
Lemma symbols_token_translations_init_spec st st' toks e :
  USER_NUMBER_UNDEFINED < 0 ->
  tokens_are st toks ->
  errtoken st = Some e ->
  is_Some (heap st !! e) ->
  foldr Z.max 256 (utn (heap st) <$> toks) + Z.of_nat (length toks)
    <= INT_MAX ->
  symbols_token_translations_init st = Ok tt st' ->
  max_user_token_number st' = foldr Z.max 256 (utn (heap st') <$> toks) /\
  max_user_token_number st' <= INT_MAX /\
  (forall p, p ∈ toks -> utn (heap st') p <> USER_NUMBER_UNDEFINED) /\
  (forall p, utn (heap st) p <> USER_NUMBER_UNDEFINED ->
             utn (heap st') p = utn (heap st) p) /\
  ((utn (heap st') e = 256 /\ utn (heap st) e <> 256) <->
   ((forall p, p ∈ toks -> utn (heap st) p <> 256) /\
    utn (heap st) e = USER_NUMBER_UNDEFINED)).
Proof.
  intros Hundef Htoks He [es Hes] Hint Hrun.
  destruct (highest_user_token_loop st toks ltac:(lia) Htoks)
    as (m1 & avail & Hloop1 & Hm1 & Hbound1 & Hatt1 & Havail).
  unfold symbols_token_translations_init in Hrun.
  rewrite (bind_ok _ _ _ _ _ (modify_run _ _)) in Hrun.
  rewrite (bind_ok _ _ _ _ _ (gets_run _ _)) in Hrun.
  change (ntokens (with_max_user_token_number 0 st)) with (ntokens st) in Hrun.
  rewrite (bind_ok _ _ _ _ _ Hloop1) in Hrun.
  (* the error token *)
  pose (h1 := if avail && bool_decide (user_token_number es = USER_NUMBER_UNDEFINED)
              then <[e := set_user_token_number 256 es]> (heap st) else heap st).
  assert ((if avail
           then
             let* e := gets errtoken in
             let* e := nonnull e in
             let* es := deref e in
             when (bool_decide (user_token_number es = USER_NUMBER_UNDEFINED))
               (update e (set_user_token_number 256))
           else ret tt) (with_max_user_token_number m1 st)
          = Ok tt (with_heap h1 (with_max_user_token_number m1 st))) as Herr.
  { subst h1. destruct avail; simpl; [|reflexivity].
    run_monad. rewrite He. simpl. rewrite Hes.
    case_bool_decide; simpl; [|reflexivity]. rewrite Hes. reflexivity. }
  rewrite (bind_ok _ _ _ _ _ Herr) in Hrun.
  (* the clamp *)
  pose (m2 := Z.max m1 256).
  assert ((let* m := gets max_user_token_number in
           when (bool_decide (m < 256)) (modify (with_max_user_token_number 256)))
            (with_heap h1 (with_max_user_token_number m1 st))
          = Ok tt (with_heap h1 (with_max_user_token_number m2 st))) as Hclamp.
  { run_monad. subst m2. case_bool_decide; simpl.
    - by rewrite Z.max_r by lia.
    - by rewrite Z.max_l by lia. }
  rewrite (bind_ok _ _ _ _ _ Hclamp) in Hrun.
  assert (utn (heap st) e = user_token_number es) as Hue
    by (unfold utn; by rewrite Hes).
  assert (forall p, utn h1 p
                    = if decide (p = e /\ avail = true /\
                                 utn (heap st) e = USER_NUMBER_UNDEFINED)
                      then 256 else utn (heap st) p) as Hh1.
  { intros p. subst h1. rewrite Hue. unfold utn.
    destruct avail; simpl; [|by rewrite decide_False by (intuition congruence)].
    case_bool_decide as Hu; [|by rewrite decide_False by (intuition congruence)].
    destruct (decide (p = e)) as [->|Hne].
    - rewrite lookup_insert_eq. by rewrite decide_True.
    - rewrite lookup_insert_ne by done. by rewrite decide_False by (intuition congruence). }
  destruct Htoks as (Hn & Hsym & Hrec).
  assert (m2 <= foldr Z.max 256 (utn (heap st) <$> toks)) as Hm2D.
  { destruct (foldr_max_ge (utn (heap st) <$> toks)) as [H256 Hge].
    subst m2. apply Z.max_lub; [|done].
    destruct Hatt1 as [->|(p & Hp & _ & <-)]; [lia|].
    apply Hge. apply list_elem_of_fmap. eauto. }
  destruct (missing_user_token_loop st toks h1 m2 Hundef)
    as (h & m & Hloop2 & Hm & Hall & Hatt & Hkeep & Hch); try done;
    try lia.
  { intros p Hp. subst h1.
    destruct (avail && _); [|by apply Hrec].
    destruct (decide (p = e)) as [->|Hne].
    - rewrite lookup_insert_eq. eauto.
    - rewrite lookup_insert_ne by done. by apply Hrec. }
  { intros p Hp. rewrite Hh1.
    destruct (decide (p = e /\ _)) as [?|?]; [intros _; unfold m2; lia|].
    intros Hd. specialize (Hbound1 p Hp Hd). unfold m2. lia. }
  { subst m2. destruct (decide (m1 <= 256)) as [Hle|Hgt].
    - left. lia.
    - right. destruct Hatt1 as [->|(p & Hp & Hd & Hpm)]; [lia|].
      exists p. split; [done|]. rewrite Hh1.
      rewrite decide_False by (intros (-> & _ & ?); congruence). lia. }
  change (ntokens (with_heap h1 (with_max_user_token_number m2 st)))
    with (ntokens st) in Hrun.
  rewrite (bind_ok _ _ _ _ _ Hloop2) in Hrun.
  (* the rest only fills [token_translations] *)
  assert (same_records (with_heap h (with_max_user_token_number m st)) st')
    as [Hheap Hmax].
  { match type of Hrun with
    | ?tail _ = Ok _ _ => assert (preserves same_records tail) as Hpres
    end.
    { preserves_steps; try apply preserves_token_translations_store;
        try apply preserves_symbols_do;
        try apply symbol_translation_same_records;
        try apply _; try by intros. }
    by apply Hpres in Hrun. }
  simpl in Hheap, Hmax. rewrite Hheap, Hmax.
  assert (max_user_token_number_is : m = foldr Z.max 256 (utn h <$> toks)).
  { symmetry. apply foldr_max_intro; [|lia|].
    + intros x Hx. apply list_elem_of_fmap in Hx as (p & -> & Hp).
      by apply Hall.
    + destruct Hatt as [->|(p & Hp & Hpm)]; [by left|right].
      apply list_elem_of_fmap. eauto. }
  assert (forall p, utn (heap st) p <> USER_NUMBER_UNDEFINED ->
                    utn h p = utn (heap st) p) as Hdeclared.
  { intros p Hp. unfold utn at 1. rewrite Hkeep.
    + fold (utn h1 p). rewrite Hh1.
      rewrite decide_False; [done|]. intros (-> & _ & ?). congruence.
    + rewrite Hh1. destruct (decide (p = e /\ _)) as [?|?]; [lia|done]. }
  assert ((forall p, p ∈ toks -> utn (heap st) p <> 256) ->
          utn (heap st) e = USER_NUMBER_UNDEFINED -> utn h e = 256) as Hgets.
  { intros Hfree Hu. apply Havail in Hfree.
    unfold utn at 1. rewrite Hkeep.
    * fold (utn h1 e). rewrite Hh1. by rewrite decide_True.
    * rewrite Hh1. rewrite decide_True by done. lia. }
  split; [done|]. split; [lia|].
  split; [intros p Hp; by apply Hall|]. split; [done|].
  assert (avail = true <-> forall p, p ∈ toks -> utn (heap st) p <> 256)
    as Hav by done.
  rewrite <- Hav. split.
  - intros [H256 Hne]. destruct (Hch e) as [Hsame|Hbig].
    + assert (utn h e = utn h1 e) as Heq by (unfold utn; by rewrite Hsame).
      rewrite Heq, Hh1 in H256.
      destruct (decide (e = e /\ _)) as [?|?]; [tauto|congruence].
    + lia.
  - intros [Hav' Hu]. split; [|lia]. apply Hgets; [|done]. by apply Hav.
Qed.

(** ** Packing *)

#[local] Instance same_skel_preorder : PreOrder same_skel.
Proof.
  split.
  - intros st. by repeat split.
  - intros st1 st2 st3 (H1 & H2 & H3 & H4 & H5 & H6 & H7)
      (G1 & G2 & G3 & G4 & G5 & G6 & G7).
    repeat split; try congruence; intros p; by rewrite G7.
Qed.

(** A write that keeps the numbering fields. *)
Lemma same_skel_update st p s f :
  heap st !! p = Some s -> skel (f s) = skel s ->
  same_skel st (with_heap (<[p := f s]> (heap st)) st).
Proof.
  intros Hs Hf. repeat split; try done. intros q. simpl.
  destruct (decide (q = p)) as [->|Hne].
  - rewrite lookup_insert_eq, Hs. simpl. by rewrite Hf.
  - by rewrite lookup_insert_ne.
Qed.

Lemma bind_stop {A B} (m : M A) (k : A -> M B) st f st1 :
  m st = Stop f st1 -> bind m k st = Stop f st1.
Proof. intros H. unfold bind. by rewrite H. Qed.

Lemma preserves_for_each_in (R : relation state) `{!PreOrder R} {A}
    (l : list A) (body : A -> M unit) :
  (forall x, x ∈ l -> preserves R (body x)) -> preserves R (for_each l body).
Proof.
  intros Hb. induction l as [|x l IH]; simpl; [by apply preserves_ret|].
  apply preserves_bind; [done|apply Hb; by left|].
  intros _. apply IH. intros y Hy. apply Hb. by right.
Qed.

#[local] Instance same_sorted_preorder : PreOrder same_sorted.
Proof.
  split; [by intros st|]. intros st1 st2 st3 H1 H2.
  unfold same_sorted in *. congruence.
Qed.

(** Once the sorted view exists, [symbols_do] runs the processor on its
    entries, in order. *)
Lemma symbols_do_view processor st view :
  symbols_sorted st = Some view ->
  size (symbol_table st) = length view ->
  (forall p, preserves same_sorted (processor p)) ->
  symbols_do processor st = for_each view processor st.
Proof.
  intros Hview Hsize Hproc. unfold symbols_do.
  rewrite (bind_ok _ _ _ _ _ (gets_run _ _)).
  rewrite (bind_ok _ _ _ _ _ (gets_run _ _)). rewrite Hview, Hsize.
  rewrite (bind_ok _ _ st tt st) by reflexivity.
  assert (forall (pre suf : list nat) st1,
            view = pre ++ suf -> symbols_sorted st1 = Some view ->
            for_each (seq (length pre) (length suf))
              (fun i =>
                 let* sorted := gets symbols_sorted in
                 let* p := nonnull (sorted ≫= (fun l => l !! i)) in
                 processor p) st1
            = for_each suf processor st1) as Hgen.
  { intros pre suf. revert pre. induction suf as [|x suf IH];
      intros pre st1 Hv Hs; [reflexivity|].
    assert (view !! length pre = Some x) as Hx.
    { rewrite Hv. by apply list_lookup_middle. }
    simpl.
    assert ((let* sorted := gets symbols_sorted in
             let* p := nonnull (sorted ≫= (fun l => l !! length pre)) in
             processor p) st1 = processor x st1) as Hbody.
    { rewrite (bind_ok _ _ _ _ _ (gets_run _ _)). rewrite Hs. simpl.
      rewrite Hx. reflexivity. }
    destruct (processor x st1) as [[] st2|f st2] eqn:Hrun.
    - rewrite (bind_ok _ _ _ _ _ Hbody). rewrite (bind_ok _ _ _ _ _ Hrun).
      assert (symbols_sorted st2 = Some view) as Hs2.
      { rewrite <- Hs. by apply (Hproc x st1 tt st2). }
      specialize (IH (pre ++ [x]) st2). rewrite length_app in IH. simpl in IH.
      rewrite Nat.add_1_r in IH. apply IH; [|done].
      by rewrite <- app_assoc.
    - rewrite (bind_stop _ _ _ _ _ Hbody). by rewrite (bind_stop _ _ _ _ _ Hrun). }
  apply (Hgen [] view st); done.
Qed.

(** Settles the obligation of a write that keeps the numbering fields. *)
Ltac same_skel_leaf :=
  first [ by (apply same_skel_update; [done|reflexivity])
        | by repeat split ].

Lemma symbol_redeclaration_same_skel s what first second :
  preserves same_skel (symbol_redeclaration s what first second).
Proof. unfold symbol_redeclaration. preserves_steps; by repeat split. Qed.

Lemma symbol_type_set_same_skel sym ty loc :
  preserves same_skel (symbol_type_set sym ty loc).
Proof.
  unfold symbol_type_set. preserves_steps; same_skel_leaf.
Qed.

Lemma symbol_code_props_set_same_skel sym k c :
  preserves same_skel (symbol_code_props_set sym k c).
Proof.
  unfold symbol_code_props_set. preserves_steps; same_skel_leaf.
Qed.

Lemma set_class_same s : set_class (class s) s = s.
Proof. by destruct s. Qed.

(** On a numbered token, the call that [symbol_precedence_set] ends with
    changes no numbering field. *)
Lemma symbol_class_set_token_same_skel sym s loc st st' :
  heap st !! sym = Some s ->
  class s = token_sym -> number s <> NUMBER_UNDEFINED ->
  symbol_class_set sym token_sym loc false st = Ok tt st' ->
  same_skel st st'.
Proof.
  intros Hs Hc Hn. unfold symbol_class_set. run_with Hs.
  repeat (case_bool_decide; run_with Hs);
    try (exfalso; intuition congruence).
  intros [= <-]. apply same_skel_update; [done|].
  by rewrite <- Hc, set_class_same.
Qed.

Lemma symbol_precedence_set_token_same_skel sym s prec' a loc st st' :
  heap st !! sym = Some s ->
  class s = token_sym -> number s <> NUMBER_UNDEFINED ->
  symbol_precedence_set sym prec' a loc st = Ok tt st' ->
  same_skel st st'.
Proof.
  intros Hs Hc Hn Hrun. unfold symbol_precedence_set in Hrun.
  apply bind_ok_inv in Hrun as ([] & st1 & H1 & H2).
  assert (same_skel st st1) as Hsk.
  { match type of H1 with
    | ?m _ = Ok _ _ => assert (preserves same_skel m) as Hpres
    end.
    { preserves_steps; same_skel_leaf. }
    by apply Hpres in H1. }
  trans st1; [done|].
  destruct Hsk as (_ & _ & _ & _ & _ & _ & Hheap). specialize (Hheap sym).
  rewrite Hs in Hheap. destruct (heap st1 !! sym) as [s1|] eqn:Hs1; [|done].
  injection Hheap as Hn1 Hc1 _ _.
  apply (symbol_class_set_token_same_skel sym s1 loc); try done; congruence.
Qed.

Lemma deref_ok_inv p st s st' :
  deref p st = Ok s st' -> heap st !! p = Some s /\ st' = st.
Proof.
  unfold deref. destruct (heap st !! p); [|done]. by intros [= <- <-].
Qed.

Lemma same_skel_lookup st st' p s :
  same_skel st st' -> heap st !! p = Some s ->
  exists s', heap st' !! p = Some s' /\ skel s' = skel s.
Proof.
  intros (_ & _ & _ & _ & _ & _ & Hheap) Hs. specialize (Hheap p).
  rewrite Hs in Hheap. destruct (heap st' !! p) as [s'|]; [|done].
  exists s'. split; [done|]. simpl in Hheap. congruence.
Qed.

Lemma same_skel_sym st st' : same_skel st st' -> same_skel st' st.
Proof.
  intros (H1 & H2 & H3 & H4 & H5 & H6 & H7).
  repeat split; try done; intros p; by rewrite H7.
Qed.

Lemma aliased_tokens_same_skel view st st' :
  same_skel st st' -> aliased_tokens view st -> aliased_tokens view st'.
Proof.
  intros Hsk Hal p s' a Hp Hs' Ha.
  destruct (same_skel_lookup st' st p s' (same_skel_sym _ _ Hsk) Hs')
    as (s & Hs & Heq).
  injection Heq as Hn Hc Hal' _.
  destruct (Hal p s a Hp Hs) as (Hc1 & Hn1 & r & Hr & Hc2 & Hn2); [congruence|].
  destruct (same_skel_lookup st st' a r Hsk Hr) as (r' & Hr' & Heq').
  injection Heq' as Hn' Hc' _ _.
  split; [congruence|]. split; [congruence|]. exists r'.
  split; [done|]. split; congruence.
Qed.

(** The alias-consistency check of one symbol changes no numbering
    field. *)
Lemma symbol_check_alias_consistency_same_skel view this st st' :
  this ∈ view -> aliased_tokens view st ->
  symbol_check_alias_consistency this st = Ok tt st' ->
  same_skel st st'.
Proof.
  intros Hin Hal Hrun. unfold symbol_check_alias_consistency in Hrun.
  apply bind_ok_inv in Hrun as (t & st0 & Hd & Hrun).
  apply deref_ok_inv in Hd as [Ht ->].
  destruct (alias t) as [str|] eqn:Halias; [|by injection Hrun as <-].
  case_bool_decide as Hsent; [|by injection Hrun as <-].
  destruct (Hal this t str Hin Ht Halias) as (Hc & Hn & r & Hr & Hcr & Hnr).
  apply bind_ok_inv in Hrun as ([] & st1 & H1 & Hrun).
  apply bind_ok_inv in Hrun as ([] & st2 & H2 & Hrun).
  assert (same_skel st st1) as Hsk1.
  { match type of H1 with
    | ?m _ = Ok _ _ => assert (preserves same_skel m) as Hpres
    end.
    { preserves_steps;
        first [ apply symbol_type_set_same_skel
              | apply symbol_code_props_set_same_skel
              | same_skel_leaf ]. }
    by apply Hpres in H1. }
  assert (same_skel st1 st2) as Hsk2.
  { match type of H2 with
    | ?m _ = Ok _ _ => assert (preserves same_skel m) as Hpres
    end.
    { preserves_steps;
        first [ apply symbol_type_set_same_skel
              | apply symbol_code_props_set_same_skel
              | same_skel_leaf ]. }
    by apply Hpres in H2. }
  assert (same_skel st st2) as Hsk by (by trans st1).
  trans st2; [done|].
  apply bind_ok_inv in Hrun as (s2 & st3 & Hd & Hrun).
  apply deref_ok_inv in Hd as [Hs2 ->].
  apply bind_ok_inv in Hrun as (r2 & st3 & Hd & Hrun).
  apply deref_ok_inv in Hd as [Hr2 ->].
  destruct (same_skel_lookup st st2 this t Hsk Ht) as (s2' & Hs2' & Heq).
  destruct (same_skel_lookup st st2 str r Hsk Hr) as (r2' & Hr2' & Heq').
  assert (s2' = s2) as -> by congruence.
  assert (r2' = r2) as -> by congruence.
  injection Heq as Hn2 Hc2 _ _. injection Heq' as Hnr2 Hcr2 _ _.
  case_bool_decide; [|by injection Hrun as <-].
  case_bool_decide.
  - apply (symbol_precedence_set_token_same_skel this s2) in Hrun;
      [done|done|congruence|congruence].
  - apply (symbol_precedence_set_token_same_skel str r2) in Hrun;
      [done|done|congruence|congruence].
Qed.

(** The first pass of [symbols_pack] changes no numbering field. *)
Lemma alias_pass_same_skel view st st' :
  symbols_sorted st = Some view ->
  size (symbol_table st) = length view ->
  aliased_tokens view st ->
  symbols_do symbol_check_alias_consistency st = Ok tt st' ->
  same_skel st st'.
Proof.
  intros Hview Hsize Hal Hrun.
  rewrite (symbols_do_view _ st view Hview Hsize) in Hrun.
  - pose (R := fun st1 st2 : state =>
        aliased_tokens view st1 -> same_skel st1 st2 /\ aliased_tokens view st2).
    assert (PreOrder R) as HR.
    { split.
      - intros st1 H1. split; [reflexivity|done].
      - intros st1 st2 st3 H12 H23 H1. destruct (H12 H1) as [Ha Hb].
        destruct (H23 Hb) as [Hc Hd]. split; [by trans st2|done]. }
    assert (preserves R (for_each view symbol_check_alias_consistency)) as Hp.
    { apply preserves_for_each_in; [done|]. intros this Hin st1 [] st2 H H1.
      assert (same_skel st1 st2) as Hsk
        by by apply (symbol_check_alias_consistency_same_skel view this).
      split; [done|]. by apply (aliased_tokens_same_skel view st1). }
    by destruct (Hp st tt st' Hrun Hal).
  - intros p. unfold symbol_check_alias_consistency, symbol_type_set,
      symbol_code_props_set, symbol_precedence_set, symbol_class_set,
      symbol_redeclaration.
    preserves_steps; by intros.
Qed.

Lemma skel_fields s s' :
  skel s' = skel s ->
  number s' = number s /\ class s' = class s /\ alias s' = alias s /\
  user_token_number s' = user_token_number s.
Proof. unfold skel. intros [= -> -> -> ->]. done. Qed.

Lemma skel_placed s s' : skel s' = skel s -> placed s' <-> placed s.
Proof. intros (_ & Hc & _ & Hu)%skel_fields. unfold placed. by rewrite Hc, Hu. Qed.

Lemma skel_slot nt s s' : skel s' = skel s -> slot nt s' = slot nt s.
Proof. intros (Hn & Hc & _ & _)%skel_fields. unfold slot. by rewrite Hc, Hn. Qed.

Lemma pack_ready_same_skel st st' view :
  same_skel st st' -> pack_ready st view -> pack_ready st' view.
Proof.
  intros Hsk Hr. pose proof (same_skel_sym _ _ Hsk) as Hks.
  destruct Hsk as (Hn & Hnt & Hnv & Hso & Hta & _ & _).
  assert (forall p s', heap st' !! p = Some s' ->
            exists s, heap st !! p = Some s /\ skel s' = skel s) as Hback.
  { intros p s' Hs'.
    destruct (same_skel_lookup st' st p s' Hks Hs') as (s & Hs & Heq). eauto. }
  destruct Hr as [R1 R2 R3 R4 R5 R6 R7 R8 R9 R10 R11].
  split.
  - congruence.
  - by rewrite Hta.
  - done.
  - by rewrite Hn, Hnt, Hnv.
  - intros p Hp. destruct (R5 p Hp) as (s & Hs & Hnum).
    destruct (same_skel_lookup st st' p s ltac:(by apply same_skel_sym) Hs)
      as (s' & Hs' & (Hn' & _)%skel_fields).
    exists s'. split; [done|]. congruence.
  - intros p s' Hp Hs' Hc. destruct (Hback p s' Hs') as (s & Hs & (Hn' & Hc' & _)%skel_fields).
    rewrite Hnv, Hn'. apply (R6 p s); [done|done|congruence].
  - intros p s' Hp Hs' Hc Hu.
    destruct (Hback p s' Hs') as (s & Hs & (Hn' & Hc' & _ & Hu')%skel_fields).
    rewrite Hnt, Hn'. apply (R7 p s); [done|done|congruence|congruence].
  - intros p q s' r' Hp Hq Hs' Hr' Hps Hpr Hslot.
    destruct (Hback p s' Hs') as (s & Hs & Heq).
    destruct (Hback q r' Hr') as (r & Hr & Heq').
    apply (R8 p q s r); try done.
    + by apply (skel_placed s s').
    + by apply (skel_placed r r').
    + rewrite Hnt in Hslot.
      by rewrite <- (skel_slot _ s s'), <- (skel_slot _ r r').
  - intros k Hk. rewrite Hnv in Hk. destruct (R9 k Hk) as (p & s & Hp & Hs & Hc & Hnum).
    destruct (same_skel_lookup st st' p s ltac:(by apply same_skel_sym) Hs)
      as (s' & Hs' & (Hn' & Hc' & _)%skel_fields).
    exists p, s'. repeat split; try done; congruence.
  - intros p s' a Hp Hs' Ha.
    destruct (Hback p s' Hs') as (s & Hs & (Hn' & Hc' & Ha' & Hu')%skel_fields).
    destruct (R10 p s a Hp Hs) as (Hc & Hin & r & Hr & Har & Hcr & Hiff);
      [congruence|].
    destruct (same_skel_lookup st st' a r ltac:(by apply same_skel_sym) Hr)
      as (r' & Hr' & (Hnr & Hcr' & Har' & Hur)%skel_fields).
    split; [congruence|]. split; [done|]. exists r'.
    split; [done|]. split; [congruence|]. split; [congruence|].
    by rewrite Hu', Hur.
  - intros p s' Hp Hs' Hu.
    destruct (Hback p s' Hs') as (s & Hs & (Hn' & Hc' & Ha' & Hu')%skel_fields).
    rewrite Ha'. apply (R11 p s); [done|done|congruence].
Qed.

(** Invariant rule for a loop over the entries of a list, with
    termination. *)
Lemma for_each_list_total {A} (P : nat -> state -> Prop) (body : A -> M unit)
    (l : list A) st :
  P 0%nat st ->
  (forall j x st1, l !! j = Some x -> P j st1 ->
     exists st2, body x st1 = Ok tt st2 /\ P (S j) st2) ->
  exists st', for_each l body st = Ok tt st' /\ P (length l) st'.
Proof.
  intros H0 Hstep. induction l as [|x l IH] using rev_ind.
  - exists st. done.
  - destruct IH as (st1 & Hrun & HP).
    { intros j y st1 Hj. apply Hstep. by apply lookup_app_l_Some. }
    destruct (Hstep (length l) x st1) as (st2 & Hb & HP2);
      [by apply list_lookup_middle|done|].
    exists st2. rewrite length_app. simpl. rewrite Nat.add_1_r.
    split; [|done].
    rewrite for_each_app. rewrite (bind_ok _ _ _ _ _ Hrun).
    simpl. rewrite (bind_ok _ _ _ _ _ Hb). done.
Qed.

Lemma symbols_store_at st i v :
  0 <= i < Z.of_nat (length (symbols st)) ->
  symbols_store i v st
  = Ok tt (with_symbols (<[Z.to_nat i := v]> (symbols st)) st).
Proof. intros Hi. unfold symbols_store. by rewrite bool_decide_true. Qed.

(** The second pass of [symbols_pack]: every record of the view is put in
    its slot of the vector, the nonterminals after the tokens. *)
Lemma pack_pass st view :
  pack_ready st view ->
  symbols st = replicate (Z.to_nat (nsyms st)) None ->
  exists st',
    symbols_do symbol_pack st = Ok tt st' /\
    nsyms st' = nsyms st /\ ntokens st' = ntokens st /\
    (forall q, heap st' !! q = if decide (q ∈ view)
                               then shift (ntokens st) <$> heap st !! q
                               else heap st !! q) /\
    length (symbols st') = Z.to_nat (nsyms st) /\
    (forall k q, symbols st' !! k = Some (Some q) <->
       q ∈ view /\ exists s, heap st !! q = Some s /\ placed s /\
                            slot (ntokens st) s = Z.of_nat k).
Proof.
  intros Hr Hsym. destruct Hr as [R1 R2 R3 R4 R5 R6 R7 R8 R9 R10 R11].
  rewrite (symbols_do_view _ st view R1 R2).
  2:{ intros p. unfold symbol_pack, symbols_store. preserves_steps; try by intros.
      intros st1 [] st2 H. case_bool_decide; [|done]. by injection H as <-. }
  pose (P := fun (j : nat) (st1 : state) =>
    nsyms st1 = nsyms st /\ ntokens st1 = ntokens st /\
    (forall q, heap st1 !! q = if decide (q ∈ take j view)
                               then shift (ntokens st) <$> heap st !! q
                               else heap st !! q) /\
    length (symbols st1) = Z.to_nat (nsyms st) /\
    (forall k q, symbols st1 !! k = Some (Some q) <->
       q ∈ take j view /\ exists s, heap st !! q = Some s /\ placed s /\
                                  slot (ntokens st) s = Z.of_nat k)).
  destruct (for_each_list_total P symbol_pack view st)
    as (st' & Hrun & Hn & Hnt & Hheap & Hlen & Harr).
  - split; [done|]. split; [done|]. split; [|split].
    + intros q. rewrite take_0. by rewrite decide_False by apply not_elem_of_nil.
    + by rewrite Hsym, length_replicate.
    + intros k q. rewrite take_0. split.
      * rewrite Hsym. intros H. apply lookup_replicate in H as [H _]. done.
      * intros [H _]. by apply elem_of_nil in H.
  - intros j x st1 Hx (Hn & Hnt & Hheap & Hlen & Harr).
    assert (x ∈ view) as Hxin by by eapply list_elem_of_lookup_2.
    assert (x ∉ take j view) as Hfresh.
    { intros Hin. apply list_elem_of_lookup_1 in Hin as [i Hi].
      apply lookup_take_Some in Hi as [Hi Hij].
      assert (i = j); [|lia]. by apply (NoDup_lookup view i j x). }
    assert (take (S j) view = take j view ++ [x]) as Htake
      by by apply take_S_r.
    destruct (R5 x Hxin) as (s & Hs & Hnum).
    assert (heap st1 !! x = Some s) as Hs1.
    { rewrite Hheap. by rewrite decide_False. }
    assert (forall q, q ∈ take (S j) view <-> q ∈ take j view \/ q = x) as Hmem.
    { intros q. rewrite Htake, elem_of_app, list_elem_of_singleton. done. }
    unfold symbol_pack. run_with Hs1. rewrite bool_decide_true by done.
    run_with Hs1.
    destruct (decide (class s = nterm_sym)) as [Hc|Hc].
    + rewrite bool_decide_true by done. run_with Hs1.
      destruct (R6 x s Hxin Hs Hc) as [Hlo Hhi].
      destruct R4 as (Hsum & Hnt0 & Hnv0).
      rewrite symbols_store_at by (simpl; lia).
      eexists. split; [reflexivity|]. simpl. rewrite Hnt.
      split; [done|]. split; [done|]. split; [|split].
      * intros q. simpl. destruct (decide (q = x)) as [->|Hne].
        -- rewrite lookup_insert_eq. rewrite decide_True by (apply Hmem; tauto).
           rewrite Hs. simpl. unfold shift. by rewrite decide_True by done.
        -- rewrite lookup_insert_ne by done. rewrite Hheap.
           destruct (decide (q ∈ take j view)) as [Hq|Hq].
           ++ by rewrite decide_True by (apply Hmem; tauto).
           ++ by rewrite decide_False by (rewrite Hmem; tauto).
      * simpl. by rewrite length_insert.
      * intros k q. simpl.
        destruct (decide (k = Z.to_nat (number s + ntokens st))) as [->|Hk].
        -- rewrite list_lookup_insert_eq by lia. split.
           ++ intros [= <-]. split; [apply Hmem; tauto|]. exists s.
              split; [done|]. split; [by left|]. unfold slot.
              rewrite decide_True by done. lia.
           ++ intros (Hq & r & Hr & Hpr & Hsl). do 2 f_equal.
              assert (q ∈ view) as Hqin.
              { apply Hmem in Hq as [Hq| ->]; [|done].
                by apply list_elem_of_lookup_1 in Hq as [i Hi%lookup_take_Some];
                  eapply list_elem_of_lookup_2, Hi. }
              symmetry. apply (R8 q x r s); try done; [by left|].
              rewrite Hsl. unfold slot. rewrite decide_True by done. lia.
        -- rewrite list_lookup_insert_ne by done. rewrite Harr, Hmem.
           split; [tauto|]. intros ([Hq| ->] & r & Hr & Hpr & Hsl); [eauto|].
           exfalso. assert (r = s) as -> by congruence.
           unfold slot in Hsl. rewrite decide_True in Hsl by done. lia.
    + rewrite bool_decide_false by done. run_with Hs1.
      case_bool_decide as Hu; run_with Hs1.
      * eexists. split; [reflexivity|].
        split; [done|]. split; [done|]. split; [|split; [done|]].
        -- intros q. simpl. rewrite Hheap.
           destruct (decide (q = x)) as [->|Hne].
           ++ rewrite decide_False by done.
              rewrite decide_True by (apply Hmem; tauto).
              rewrite Hs. simpl. unfold shift. by rewrite decide_False.
           ++ destruct (decide (q ∈ take j view)) as [Hq|Hq].
              ** by rewrite decide_True by (apply Hmem; tauto).
              ** by rewrite decide_False by (rewrite Hmem; tauto).
        -- intros k q. rewrite Harr, Hmem. split; [tauto|].
           intros ([Hq| ->] & r & Hr & Hpr & Hsl); [eauto|].
           exfalso. assert (r = s) as -> by congruence.
           destruct Hpr as [?|?]; done.
      * destruct (R7 x s Hxin Hs Hc Hu) as [Hlo Hhi].
        destruct R4 as (Hsum & Hnt0 & Hnv0).
        rewrite symbols_store_at by (simpl; lia).
        eexists. split; [reflexivity|]. simpl.
        split; [done|]. split; [done|]. split; [|split].
        -- intros q. simpl. rewrite Hheap.
           destruct (decide (q = x)) as [->|Hne].
           ++ rewrite decide_False by done.
              rewrite decide_True by (apply Hmem; tauto).
              rewrite Hs. simpl. unfold shift. by rewrite decide_False.
           ++ destruct (decide (q ∈ take j view)) as [Hq|Hq].
              ** by rewrite decide_True by (apply Hmem; tauto).
              ** by rewrite decide_False by (rewrite Hmem; tauto).
        -- simpl. by rewrite length_insert.
        -- intros k q. simpl.
           destruct (decide (k = Z.to_nat (number s))) as [->|Hk].
           ++ rewrite list_lookup_insert_eq by lia. split.
              ** intros [= <-]. split; [apply Hmem; tauto|]. exists s.
                 split; [done|]. split; [by right|]. unfold slot.
                 rewrite decide_False by done. lia.
              ** intros (Hq & r & Hr & Hpr & Hsl). do 2 f_equal.
                 assert (q ∈ view) as Hqin.
                 { apply Hmem in Hq as [Hq| ->]; [|done].
                   by apply list_elem_of_lookup_1 in Hq as [i Hi%lookup_take_Some];
                     eapply list_elem_of_lookup_2, Hi. }
                 symmetry. apply (R8 q x r s); try done; [by right|].
                 rewrite Hsl. unfold slot. rewrite decide_False by done. lia.
           ++ rewrite list_lookup_insert_ne by done. rewrite Harr, Hmem.
              split; [tauto|]. intros ([Hq| ->] & r & Hr & Hpr & Hsl); [eauto|].
              exfalso. assert (r = s) as -> by congruence.
              unfold slot in Hsl. rewrite decide_False in Hsl by done. lia.
  - exists st'. split; [done|]. split; [done|]. split; [done|].
    rewrite firstn_all in Hheap, Harr. done.
Qed.

Lemma occ_0 A : occ A 0 = 0%nat.
Proof. unfold occ. by rewrite take_0. Qed.

Lemma occ_S A j :
  occ A (S j) = (occ A j + match A !! j with
                           | Some (Some _) => 1
                           | _ => 0
                           end)%nat.
Proof.
  unfold occ. destruct (A !! j) as [e|] eqn:Hj.
  - rewrite (take_S_r A j e Hj), omap_app, length_app. by destruct e.
  - apply lookup_ge_None in Hj. rewrite !take_ge by lia. lia.
Qed.

Lemma occ_mono A j j' : (j <= j')%nat -> (occ A j <= occ A j')%nat.
Proof.
  induction 1 as [|j' _ IH]; [done|]. rewrite occ_S. lia.
Qed.

Lemma occ_le A j : (occ A j <= j)%nat.
Proof.
  induction j as [|j IH]; [by rewrite occ_0|]. rewrite occ_S.
  destruct (A !! j) as [[?|]|]; lia.
Qed.

Lemma occ_lt A k j p :
  A !! k = Some (Some p) -> (k < j)%nat -> (occ A k < occ A j)%nat.
Proof.
  intros Hk Hlt. pose proof (occ_mono A (S k) j ltac:(lia)) as H.
  rewrite occ_S, Hk in H. lia.
Qed.

(** When all the slots from [a] on are filled, each adds one. *)
Lemma occ_filled A a b :
  (a <= b)%nat ->
  (forall k, (a <= k < b)%nat -> exists p, A !! k = Some (Some p)) ->
  occ A b = (occ A a + (b - a))%nat.
Proof.
  induction 1 as [|b Hab IH]; intros Hf; [lia|].
  rewrite occ_S. destruct (Hf b ltac:(lia)) as [p ->].
  rewrite IH; [lia|]. intros k Hk. apply Hf. lia.
Qed.

Lemma unnumbered_set_number n s : unnumbered (set_number n s) = unnumbered s.
Proof. reflexivity. Qed.

Lemma unnumbered_fields s s' :
  unnumbered s' = unnumbered s ->
  class s' = class s /\ alias s' = alias s /\
  user_token_number s' = user_token_number s.
Proof.
  destruct s, s'. unfold unnumbered, set_number. simpl. intros [=]. by subst.
Qed.

Lemma symbols_load_Z st i v :
  symbols st !! i = Some v -> symbols_load (Z.of_nat i) st = Ok v st.
Proof. apply symbols_load_at. Qed.

(** The loop of [symbols_pack] that removes the empty slots of the vector
    [A]: the record of the [k]-th slot moves to the slot [occ A k] and takes
    that number, and so does its alias; each empty slot takes one off
    [nsyms] and one off [ntokens]. *)
Lemma compact_loop st (A : list (option nat)) :
  symbols st = A ->
  nsyms st = Z.of_nat (length A) ->
  (forall k p, A !! k = Some (Some p) -> is_Some (heap st !! p)) ->
  (forall k k' p, A !! k = Some (Some p) -> A !! k' = Some (Some p) -> k = k') ->
  (forall k p s a, A !! k = Some (Some p) -> heap st !! p = Some s ->
     alias s = Some a ->
     (forall k', A !! k' <> Some (Some a)) /\
     exists r, heap st !! a = Some r /\ alias r = Some p) ->
  exists w st',
    for_fold (upto (nsyms st)) compact_step 0 st = Ok w st' /\
    nsyms st' = Z.of_nat (occ A (length A)) /\
    ntokens st' = ntokens st - (nsyms st - nsyms st') /\
    length (symbols st') = length A /\
    (forall k p, A !! k = Some (Some p) ->
       symbols st' !! occ A k = Some (Some p)) /\
    (forall q, unnumbered <$> heap st' !! q = unnumbered <$> heap st !! q) /\
    (forall k p, A !! k = Some (Some p) ->
       number <$> heap st' !! p = Some (Z.of_nat (occ A k))) /\
    (forall k p s a, A !! k = Some (Some p) -> heap st !! p = Some s ->
       alias s = Some a ->
       number <$> heap st' !! a = Some (Z.of_nat (occ A k))) /\
    (forall q,
       (forall k p, A !! k = Some (Some p) ->
          q <> p /\ forall s, heap st !! p = Some s -> alias s <> Some q) ->
       heap st' !! q = heap st !! q).
Proof.
  intros Hsym Hn Hvalid Hinj Halias. rewrite Hn.
  pose (P := fun (j : nat) (w : Z) (st1 : state) =>
    w = Z.of_nat (occ A j) /\
    nsyms st1 = Z.of_nat (length A) - (Z.of_nat j - Z.of_nat (occ A j)) /\
    ntokens st1 = ntokens st - (Z.of_nat j - Z.of_nat (occ A j)) /\
    length (symbols st1) = length A /\
    (forall k, (j <= k)%nat -> symbols st1 !! k = A !! k) /\
    (forall k p, (k < j)%nat -> A !! k = Some (Some p) ->
       symbols st1 !! occ A k = Some (Some p)) /\
    (forall q, unnumbered <$> heap st1 !! q = unnumbered <$> heap st !! q) /\
    (forall k p, (k < j)%nat -> A !! k = Some (Some p) ->
       number <$> heap st1 !! p = Some (Z.of_nat (occ A k))) /\
    (forall k p s a, (k < j)%nat -> A !! k = Some (Some p) ->
       heap st !! p = Some s -> alias s = Some a ->
       number <$> heap st1 !! a = Some (Z.of_nat (occ A k))) /\
    (forall q,
       (forall k p, (k < j)%nat -> A !! k = Some (Some p) ->
          q <> p /\ forall s, heap st !! p = Some s -> alias s <> Some q) ->
       heap st1 !! q = heap st !! q)).
  destruct (for_fold_upto_total P compact_step 0 st (length A))
    as (w & st' & Hrun & Hw & Hns & Hnt & Hlen & _ & Harr & Hrest & Hnum & Hnal & Hout).
  - split; [by rewrite occ_0|]. rewrite occ_0.
    split; [lia|]. split; [lia|]. split; [by rewrite Hsym|].
    split; [by intros; rewrite Hsym|]. split; [intros; lia|].
    split; [done|]. split; [intros; lia|]. split; [intros; lia|]. done.
  - intros j w st1 Hj (-> & Hns & Hnt & Hlen & Hge & Harr & Hrest & Hnum & Hnal & Hout).
    destruct (lookup_lt_is_Some_2 A j Hj) as [e He].
    unfold compact_step.
    rewrite (bind_ok _ _ _ _ _ (symbols_load_Z st1 j e ltac:(by rewrite Hge))).
    destruct e as [p|].
    + (* a filled slot *)
      pose proof (occ_le A j) as Hle.
      rewrite (bind_ok _ _ _ _ _
                 (symbols_store_at st1 (Z.of_nat (occ A j)) (Some p) ltac:(lia))).
      rewrite Nat2Z.id.
      rewrite (bind_ok _ _ _ _ _
                 (symbols_load_Z
                    (with_symbols (<[occ A j := Some p]> (symbols st1)) st1)
                    (occ A j) (Some p)
                    ltac:(simpl; apply list_lookup_insert_eq; lia))).
      destruct (Hvalid j p He) as [s3 Hs3].
      assert (exists s1, heap st1 !! p = Some s1 /\ unnumbered s1 = unnumbered s3)
        as (s1 & Hs1 & Hu1).
      { specialize (Hrest p). rewrite Hs3 in Hrest.
        destruct (heap st1 !! p) as [s1|]; [|done]. exists s1.
        split; [done|]. simpl in Hrest. congruence. }
      destruct (unnumbered_fields s3 s1 Hu1) as (Hc1 & Ha1 & _).
      run_with Hs1. rewrite Ha1.
      assert (occ A (S j) = S (occ A j)) as HoccS
        by (rewrite occ_S, He; lia).
      destruct (alias s3) as [a|] eqn:Hal3.
      * destruct (Halias j p s3 a He Hs3 Hal3) as (Hnot & r3 & Hr3 & Hra).
        assert (a <> p) as Hap by (intros ->; by apply (Hnot j)).
        assert (exists r1, heap st1 !! a = Some r1 /\ unnumbered r1 = unnumbered r3)
          as (r1 & Hr1 & Hur).
        { specialize (Hrest a). rewrite Hr3 in Hrest.
          destruct (heap st1 !! a) as [r1|]; [|done]. exists r1.
          split; [done|]. simpl in Hrest. congruence. }
        run_with2 Hs1 Hr1. eexists _, _. split; [reflexivity|].
        split; [rewrite HoccS; lia|]. rewrite HoccS.
        split; [simpl; lia|]. split; [simpl; lia|].
        split; [simpl; by rewrite length_insert|].
        split; [intros k Hk; simpl; rewrite list_lookup_insert_ne by lia;
                apply Hge; lia|].
        split.
        { intros k q Hk Hq. simpl. destruct (decide (k = j)) as [->|Hkj].
          - assert (q = p) as -> by congruence.
            apply list_lookup_insert_eq. lia.
          - pose proof (occ_lt A k j q Hq ltac:(lia)).
            rewrite list_lookup_insert_ne by lia. apply Harr; [lia|done]. }
        split.
        { intros q. simpl. destruct (decide (q = a)) as [->|Hqa].
          - rewrite lookup_insert_eq. simpl. rewrite unnumbered_set_number.
            rewrite Hr3. simpl. by rewrite Hur.
          - rewrite lookup_insert_ne by done.
            destruct (decide (q = p)) as [->|Hqp].
            + rewrite lookup_insert_eq. simpl. rewrite unnumbered_set_number.
              rewrite Hs3. simpl. by rewrite Hu1.
            + rewrite lookup_insert_ne by done. apply Hrest. }
        split.
        { intros k q Hk Hq. simpl. destruct (decide (k = j)) as [->|Hkj].
          - assert (q = p) as -> by congruence.
            rewrite lookup_insert_ne by done. by rewrite lookup_insert_eq.
          - assert (q <> p)
              by (intros ->; apply Hkj; by apply (Hinj k j p)).
            assert (q <> a) by (intros ->; by apply (Hnot k)).
            rewrite !lookup_insert_ne by done. apply Hnum; [lia|done]. }
        split.
        { intros k q sq aq Hk Hq Hsq Haq. simpl.
          destruct (decide (k = j)) as [->|Hkj].
          - assert (q = p) as -> by congruence.
            assert (aq = a) as -> by congruence.
            by rewrite lookup_insert_eq.
          - destruct (Halias k q sq aq Hq Hsq Haq) as (Hnot' & rq & Hrq & Hrqa).
            assert (aq <> a).
            { intros ->. apply Hkj. apply (Hinj k j p); [|done]. congruence. }
            assert (aq <> p) by (intros ->; by apply (Hnot' j)).
            rewrite !lookup_insert_ne by done. apply (Hnal k q sq); [lia|done..]. }
        intros q Hq. simpl.
        destruct (Hq j p ltac:(lia) He) as [Hqp Hqa].
        specialize (Hqa s3 Hs3). rewrite Hal3 in Hqa.
        rewrite !lookup_insert_ne by congruence.
        apply Hout. intros k q' Hk. apply Hq. lia.
      * run_with Hs1. eexists _, _. split; [reflexivity|].
        split; [rewrite HoccS; lia|]. rewrite HoccS.
        split; [simpl; lia|]. split; [simpl; lia|].
        split; [simpl; by rewrite length_insert|].
        split; [intros k Hk; simpl; rewrite list_lookup_insert_ne by lia;
                apply Hge; lia|].
        split.
        { intros k q Hk Hq. simpl. destruct (decide (k = j)) as [->|Hkj].
          - assert (q = p) as -> by congruence.
            apply list_lookup_insert_eq. lia.
          - pose proof (occ_lt A k j q Hq ltac:(lia)).
            rewrite list_lookup_insert_ne by lia. apply Harr; [lia|done]. }
        split.
        { intros q. simpl. destruct (decide (q = p)) as [->|Hqp].
          - rewrite lookup_insert_eq. simpl. rewrite unnumbered_set_number.
            rewrite Hs3. simpl. by rewrite Hu1.
          - rewrite lookup_insert_ne by done. apply Hrest. }
        split.
        { intros k q Hk Hq. simpl. destruct (decide (k = j)) as [->|Hkj].
          - assert (q = p) as -> by congruence. by rewrite lookup_insert_eq.
          - assert (q <> p)
              by (intros ->; apply Hkj; by apply (Hinj k j p)).
            rewrite !lookup_insert_ne by done. apply Hnum; [lia|done]. }
        split.
        { intros k q sq aq Hk Hq Hsq Haq. simpl.
          destruct (decide (k = j)) as [->|Hkj].
          - assert (q = p) as -> by congruence. congruence.
          - destruct (Halias k q sq aq Hq Hsq Haq) as (Hnot' & rq & Hrq & Hrqa).
            assert (aq <> p) by (intros ->; by apply (Hnot' j)).
            rewrite !lookup_insert_ne by done. apply (Hnal k q sq); [lia|done..]. }
        intros q Hq. simpl.
        destruct (Hq j p ltac:(lia) He) as [Hqp Hqa].
        rewrite !lookup_insert_ne by congruence.
        apply Hout. intros k q' Hk. apply Hq. lia.
    + (* an empty slot *)
      run_monad. eexists _, _. split; [reflexivity|].
      assert (occ A (S j) = occ A j) as HoccS
        by (rewrite occ_S, He; lia).
      split; [by rewrite HoccS|]. rewrite HoccS. simpl.
      split; [lia|]. split; [lia|]. split; [done|].
      split; [intros k Hk; apply Hge; lia|].
      split.
      { intros k q Hk Hq. apply Harr; [|done].
        destruct (decide (k = j)) as [->|]; [congruence|lia]. }
      split; [done|].
      split.
      { intros k q Hk Hq. apply Hnum; [|done].
        destruct (decide (k = j)) as [->|]; [congruence|lia]. }
      split.
      { intros k q sq aq Hk Hq. apply Hnal; [|done].
        destruct (decide (k = j)) as [->|]; [congruence|lia]. }
      intros q Hq. apply Hout. intros k q' Hk. apply Hq. lia.
  - exists w, st'. split; [done|].
    split; [lia|]. split; [lia|]. split; [done|].
    split.
    { intros k p Hk. apply Harr; [by eapply lookup_lt_Some|done]. }
    split; [done|]. split.
    { intros k p Hk. apply Hnum; [by eapply lookup_lt_Some|done]. }
    split.
    { intros k p s a Hk. apply Hnal; [by eapply lookup_lt_Some|done]. }
    intros q Hq. apply Hout. intros k p _. apply Hq.
Qed.

Lemma occ_surj A j i :
  (i < occ A j)%nat ->
  exists k p, (k < j)%nat /\ A !! k = Some (Some p) /\ occ A k = i.
Proof.
  induction j as [|j IH]; [rewrite occ_0; lia|].
  rewrite occ_S. intros Hi.
  destruct (decide (i < occ A j)%nat) as [Hlt|Hge].
  - destruct (IH Hlt) as (k & p & Hk & Hp & Ho). exists k, p.
    split; [lia|done].
  - destruct (A !! j) as [[p|]|] eqn:He; [|lia..].
    exists j, p. split; [lia|]. split; [done|lia].
Qed.

Lemma shift_fields nt s :
  class (shift nt s) = class s /\ alias (shift nt s) = alias s /\
  user_token_number (shift nt s) = user_token_number s.
Proof. unfold shift. by case_decide. Qed.

Lemma pack_ready_with_symbols st view l :
  pack_ready st view -> pack_ready (with_symbols l st) view.
Proof. intros []. by split. Qed.

Lemma pack_ready_aliased_tokens st view :
  pack_ready st view -> aliased_tokens view st.
Proof.
  intros [R1 R2 R3 R4 R5 R6 R7 R8 R9 R10 R11] p s a Hp Hs Ha.
  destruct (R10 p s a Hp Hs Ha) as (Hc & Hin & r & Hr & Har & Hcr & _).
  destruct (R5 p Hp) as (s' & Hs' & Hn).
  destruct (R5 a Hin) as (r' & Hr' & Hnr).
  rewrite Hs in Hs'. injection Hs' as <-.
  rewrite Hr in Hr'. injection Hr' as <-.
  split; [done|]. split; [done|]. by exists r.
Qed.

(** The two loops of [symbols_pack] on the vector: [symbol_pack] fills the
    slots, the compaction renumbers.  Every record of the view ends with the
    write index of a filled slot [k]: its own slot, or the slot of the record
    it is the alias of. *)
Lemma pack_and_compact st view :
  pack_ready st view ->
  symbols st = replicate (Z.to_nat (nsyms st)) None ->
  exists st3 w st4,
    symbols_do symbol_pack st = Ok tt st3 /\
    for_fold (upto (nsyms st3)) compact_step 0 st3 = Ok w st4 /\
    Z.of_nat (length (symbols st3)) = nsyms st /\
    (forall k q, symbols st3 !! k = Some (Some q) <->
       q ∈ view /\ exists s, heap st !! q = Some s /\ placed s /\
                            slot (ntokens st) s = Z.of_nat k) /\
    nsyms st4 = Z.of_nat (occ (symbols st3) (length (symbols st3))) /\
    ntokens st4 = Z.of_nat (occ (symbols st3) (Z.to_nat (ntokens st))) /\
    ntokens st - ntokens st4 = nsyms st - nsyms st4 /\
    length (symbols st4) = length (symbols st3) /\
    (forall k p, symbols st3 !! k = Some (Some p) ->
       symbols st4 !! occ (symbols st3) k = Some (Some p)) /\
    (forall q s, heap st !! q = Some s ->
       exists s4, heap st4 !! q = Some s4 /\
                  class s4 = class s /\ alias s4 = alias s) /\
    (forall k p, symbols st3 !! k = Some (Some p) ->
       number <$> heap st4 !! p = Some (Z.of_nat (occ (symbols st3) k))) /\
    (forall p s, p ∈ view -> heap st !! p = Some s ->
       exists k q, symbols st3 !! k = Some (Some q) /\
         number <$> heap st4 !! p = Some (Z.of_nat (occ (symbols st3) k)) /\
         (class s = nterm_sym -> (Z.to_nat (ntokens st) <= k)%nat) /\
         (class s <> nterm_sym -> (k < Z.to_nat (ntokens st))%nat) /\
         (forall a, alias s = Some a ->
            number <$> heap st4 !! a = Some (Z.of_nat (occ (symbols st3) k)))).
Proof.
  intros Hr Hsym.
  destruct (pack_pass st view Hr Hsym)
    as (st3 & H3 & Hn3 & Hnt3 & Hh3 & Hlen3 & HA).
  destruct Hr as [R1 R2 R3 R4 R5 R6 R7 R8 R9 R10 R11].
  destruct R4 as (Hcount & Hnt0 & Hnv0).
  remember (symbols st3) as A eqn:HeqA.
  assert (Z.of_nat (length A) = nsyms st) as HlenA by lia.
  assert (forall p s, p ∈ view -> heap st !! p = Some s ->
            heap st3 !! p = Some (shift (ntokens st) s)) as Hview3.
  { intros p s Hp Hs. rewrite Hh3, decide_True by done. by rewrite Hs. }
  assert (forall p s, heap st !! p = Some s ->
            exists s3, heap st3 !! p = Some s3 /\
                       class s3 = class s /\ alias s3 = alias s) as Hfwd3.
  { intros p s Hs. rewrite Hh3, Hs. case_decide.
    - exists (shift (ntokens st) s). split; [done|].
      destruct (shift_fields (ntokens st) s) as (? & ? & _). done.
    - by exists s. }
  destruct (compact_loop st3 A (eq_sym HeqA))
    as (w & st4 & H4 & Hns4 & Hnt4 & Hlen4 & Harr & Hrest & Hnum & Hnal & _).
  { lia. }
  { intros k p Hk. apply HA in Hk as (Hp & s & Hs & _).
    rewrite (Hview3 p s Hp Hs). by eexists. }
  { intros k k' p Hk Hk'.
    apply HA in Hk as (_ & s & Hs & _ & Hsl).
    apply HA in Hk' as (_ & s' & Hs' & _ & Hsl').
    rewrite Hs in Hs'. injection Hs' as <-. lia. }
  { intros k p s3 a Hk Hs3 Ha.
    apply HA in Hk as (Hp & s & Hs & Hpl & Hsl).
    rewrite (Hview3 p s Hp Hs) in Hs3. injection Hs3 as <-.
    destruct (shift_fields (ntokens st) s) as (Hc & Hal & Hu).
    rewrite Hal in Ha.
    destruct (R10 p s a Hp Hs Ha) as (Hcs & Hin & r & Hr & Har & Hcr & Hiff).
    assert (user_token_number s <> USER_NUMBER_HAS_STRING_ALIAS) as Hnsent.
    { destruct Hpl as [Hn|]; [congruence|done]. }
    assert (user_token_number r = USER_NUMBER_HAS_STRING_ALIAS) as Hrsent.
    { destruct (decide (user_token_number r = USER_NUMBER_HAS_STRING_ALIAS));
        [done|]. exfalso. apply Hnsent. by apply Hiff. }
    split.
    - intros k' Hk'. apply HA in Hk' as (_ & r' & Hr' & Hpl' & _).
      rewrite Hr in Hr'. injection Hr' as <-.
      destruct Hpl' as [?|?]; congruence.
    - exists (shift (ntokens st) r). split; [by apply Hview3|].
      destruct (shift_fields (ntokens st) r) as (_ & -> & _). done. }
  assert (forall k, (Z.to_nat (ntokens st) <= k < length A)%nat ->
            exists p, A !! k = Some (Some p)) as Hfill.
  { intros k Hk.
    destruct (R9 (Z.of_nat k - ntokens st)) as (p & s & Hp & Hs & Hc & Hn);
      [lia|].
    exists p. apply HA. split; [done|]. exists s. split; [done|].
    split; [by left|]. unfold slot. rewrite decide_True by done. lia. }
  pose proof (occ_filled A (Z.to_nat (ntokens st)) (length A) ltac:(lia) Hfill)
    as Hocc.
  pose proof (occ_le A (Z.to_nat (ntokens st))) as Hole.
  exists st3, w, st4. rewrite <- HeqA.
  split; [done|]. split; [done|].
  split; [done|]. split; [done|]. split; [lia|]. split; [lia|].
  split; [lia|]. split; [done|]. split; [done|].
  split.
  { intros q s Hs. destruct (Hfwd3 q s Hs) as (s3 & Hs3 & Hc3 & Ha3).
    specialize (Hrest q). rewrite Hs3 in Hrest.
    destruct (heap st4 !! q) as [s4|]; [|done]. exists s4. split; [done|].
    assert (unnumbered s4 = unnumbered s3) as Hu4
      by (simpl in Hrest; congruence).
    destruct (unnumbered_fields s3 s4 Hu4) as (? & ? & _).
    split; congruence. }
  split; [done|].
  intros p s Hp Hs.
  destruct (decide (class s = nterm_sym)) as [Hc|Hc].
  - pose proof (R6 p s Hp Hs Hc) as Hrange.
    assert (A !! Z.to_nat (number s + ntokens st) = Some (Some p)) as Hk.
    { apply HA. split; [done|]. exists s. split; [done|]. split; [by left|].
      unfold slot. rewrite decide_True by done. lia. }
    exists (Z.to_nat (number s + ntokens st)), p. split; [done|].
    split; [by apply Hnum|]. split; [lia|]. split; [done|].
    intros a Ha. destruct (R10 p s a Hp Hs Ha) as (Hcs & _). congruence.
  - destruct (decide (user_token_number s = USER_NUMBER_HAS_STRING_ALIAS))
      as [Hu|Hu].
    + destruct (R11 p s Hp Hs Hu) as [a Ha].
      destruct (R10 p s a Hp Hs Ha) as (Hcs & Hin & r & Hr & Har & Hcr & Hiff).
      assert (user_token_number r <> USER_NUMBER_HAS_STRING_ALIAS) as Hur
        by (by apply Hiff).
      pose proof (R7 a r Hin Hr ltac:(congruence) Hur) as Hrange.
      assert (A !! Z.to_nat (number r) = Some (Some a)) as Hk.
      { apply HA. split; [done|]. exists r. split; [done|].
        split; [by right|]. unfold slot. rewrite decide_False by congruence.
        lia. }
      exists (Z.to_nat (number r)), a. split; [done|].
      split.
      { apply (Hnal _ a (shift (ntokens st) r) p Hk); [by apply Hview3|].
        destruct (shift_fields (ntokens st) r) as (_ & -> & _). done. }
      split; [done|]. split; [lia|].
      intros a' Ha'. assert (a' = a) as -> by congruence. by apply Hnum.
    + pose proof (R7 p s Hp Hs Hc Hu) as Hrange.
      assert (A !! Z.to_nat (number s) = Some (Some p)) as Hk.
      { apply HA. split; [done|]. exists s. split; [done|].
        split; [by right|]. unfold slot. rewrite decide_False by done. lia. }
      exists (Z.to_nat (number s)), p. split; [done|].
      split; [by apply Hnum|]. split; [done|]. split; [lia|].
      intros a Ha.
      apply (Hnal _ p (shift (ntokens st) s) a Hk); [by apply Hview3|].
      destruct (shift_fields (ntokens st) s) as (_ & -> & _). done.
Qed.

#[local] Instance same_numbering_preorder : PreOrder same_numbering.
Proof.
  split.
  - intros st. by repeat split.
  - intros st1 st2 st3 (H1 & H2 & H3 & H4) (G1 & G2 & G3 & G4).
    repeat split; try congruence; intros p; by rewrite G4.
Qed.

Lemma same_numbering_update st p s f :
  heap st !! p = Some s -> numbering (f s) = numbering s ->
  same_numbering st (with_heap (<[p := f s]> (heap st)) st).
Proof.
  intros Hs Hf. repeat split; try done. intros q. simpl.
  destruct (decide (q = p)) as [->|Hne].
  - rewrite lookup_insert_eq, Hs. simpl. by rewrite Hf.
  - by rewrite lookup_insert_ne.
Qed.

Lemma same_numbering_lookup st st' p s :
  same_numbering st st' -> heap st !! p = Some s ->
  exists s', heap st' !! p = Some s' /\ number s' = number s /\
             class s' = class s /\ alias s' = alias s.
Proof.
  intros (_ & _ & _ & Hheap) Hs. specialize (Hheap p). rewrite Hs in Hheap.
  destruct (heap st' !! p) as [s'|]; [|done]. exists s'. split; [done|].
  simpl in Hheap. unfold numbering in Hheap. injection Hheap as -> -> ->. done.
Qed.

(** Token translation writes user token numbers, the translation table and
    diagnostics only. *)
Lemma symbols_token_translations_init_same_numbering :
  preserves same_numbering symbols_token_translations_init.
Proof.
  unfold symbols_token_translations_init, highest_user_token_step,
    missing_user_token_step.
  preserves_steps;
    try (apply preserves_symbols_do; [apply _| |by intros];
         intros; unfold symbol_translation, user_token_number_redeclaration;
         preserves_steps);
    try apply preserves_token_translations_store;
    try (by intros);
    try (intros; by apply same_numbering_update).
Qed.

(** X28: on a state the reader left ready for packing, when [symbols_pack]
    returns: the vector [symbols] has [nsyms] slots and the slot [i] holds a
    record of the table whose number is [i], so the numbers of the packed
    records are exactly [0 .. nsyms-1], each held once; every token of the
    table has its number in [0, ntokens) and every nonterminal in
    [ntokens, nsyms); a record and its alias hold the same number; and, [A]
    being the vector as [symbol_pack] fills it, the compaction has taken the
    number of empty slots of [A] off both [nsyms] and [ntokens] and has moved
    the record of each filled slot [k] to its write index, the number of
    filled slots before [k], which is also the number the record ends
    with. *)
Theorem symbols_pack_numbering st view st' :
  pack_ready st view ->
  symbols_pack st = Ok tt st' ->
  Z.of_nat (length (symbols st')) = nsyms st' /\
  (forall i, (i < length (symbols st'))%nat ->
     exists p s, symbols st' !! i = Some (Some p) /\ p ∈ view /\
                 heap st' !! p = Some s /\ number s = Z.of_nat i) /\
  (forall p s, p ∈ view -> heap st' !! p = Some s -> class s = token_sym ->
     0 <= number s < ntokens st') /\
  (forall p s, p ∈ view -> heap st' !! p = Some s -> class s = nterm_sym ->
     ntokens st' <= number s < nsyms st') /\
  (forall p s a, p ∈ view -> heap st' !! p = Some s -> alias s = Some a ->
     exists r, heap st' !! a = Some r /\ number r = number s) /\
  exists A : list (option nat),
    Z.of_nat (length A) = nsyms st /\
    (forall k q, A !! k = Some (Some q) <->
       q ∈ view /\ exists s, heap st !! q = Some s /\ placed s /\
                            slot (ntokens st) s = Z.of_nat k) /\
    nsyms st' = nsyms st - Z.of_nat (empty_slots A) /\
    ntokens st' = ntokens st - Z.of_nat (empty_slots A) /\
    (forall k p, A !! k = Some (Some p) ->
       symbols st' !! occ A k = Some (Some p) /\
       exists s, heap st' !! p = Some s /\ number s = Z.of_nat (occ A k)).
Proof.
  intros Hr Hrun. unfold symbols_pack in Hrun.
  apply bind_ok_inv in Hrun as ([] & st1 & H1 & Hrun).
  pose proof (alias_pass_same_skel view st st1 (ready_view _ _ Hr)
                (ready_count _ _ Hr) (pack_ready_aliased_tokens _ _ Hr) H1)
    as Hsk.
  pose proof (pack_ready_same_skel _ _ _ Hsk Hr) as Hr1.
  apply bind_ok_inv in Hrun as ([] & st2 & H2 & Hrun).
  apply bind_ok_inv in Hrun as ([] & st3' & H3' & Hrun).
  apply bind_ok_inv in Hrun as (n0 & st3'' & Hg & Hrun).
  apply bind_ok_inv in Hrun as (w' & st4' & H4' & Hrun).
  apply bind_ok_inv in Hrun as ([] & st5 & H5 & Hrun).
  injection H2 as <-. injection Hg as <- <-. injection H5 as <-.
  destruct (pack_and_compact _ view
              (pack_ready_with_symbols st1 view
                 (replicate (Z.to_nat (nsyms st1)) None) Hr1) eq_refl)
    as (st3 & w & st4 & H3 & H4 & P1 & P2 & P3 & P4 & P4' & P5 & P6 & P7 & P8 & P9).
  pose proof (eq_trans (eq_sym H3') H3) as E3. injection E3 as ->.
  pose proof (eq_trans (eq_sym H4') H4) as E4. injection E4 as -> ->.
  simpl in P1, P2, P4, P4', P7, P9.
  match type of Hrun with
  | ?tail _ = Ok _ _ => assert (preserves same_numbering tail) as Hpres
  end.
  { apply preserves_bind; [apply _| |].
    - apply symbols_token_translations_init_same_numbering.
    - intros _. preserves_steps; by intros. }
  apply Hpres in Hrun as Hfin. clear Hpres.
  pose proof Hfin as (Hns' & Hnt' & Hsy' & _).
  simpl in Hns', Hnt', Hsy'.
  set (A := symbols st3) in *.
  pose proof (occ_le A (length A)) as HoccA.
  destruct Hsk as (Hsn & Hsnt & _ & _ & _ & _ & Hskel).
  pose proof Hr1 as [_ _ _ (Hcount & Hnt0 & Hnv0) R5 _ _ _ _ _ _].
  assert (forall q n, number <$> heap st4 !! q = Some n ->
            exists r, heap st' !! q = Some r /\ number r = n) as Htr.
  { intros q n Hq. destruct (heap st4 !! q) as [s4|] eqn:Hs4; [|done].
    simpl in Hq. injection Hq as <-.
    destruct (same_numbering_lookup _ _ q s4 Hfin Hs4) as (r & Hr' & Hn & _).
    by exists r. }
  assert (forall p s', p ∈ view -> heap st' !! p = Some s' ->
            exists s1 k q, heap st1 !! p = Some s1 /\
              class s' = class s1 /\ alias s' = alias s1 /\
              A !! k = Some (Some q) /\ number s' = Z.of_nat (occ A k) /\
              (class s1 = nterm_sym -> (Z.to_nat (ntokens st1) <= k)%nat) /\
              (class s1 <> nterm_sym -> (k < Z.to_nat (ntokens st1))%nat) /\
              (forall a, alias s1 = Some a ->
                 number <$> heap st4 !! a = Some (Z.of_nat (occ A k))))
    as Hpos.
  { intros p s' Hp Hs'. destruct (R5 p Hp) as (s1 & Hs1 & _).
    destruct (P7 p s1 Hs1) as (s4 & Hs4 & Hc4 & Ha4).
    destruct (same_numbering_lookup _ _ p s4 Hfin Hs4)
      as (s'' & Hs'' & Hn'' & Hc'' & Ha'').
    rewrite Hs' in Hs''. injection Hs'' as <-.
    destruct (P9 p s1 Hp Hs1) as (k & q & Hk & Hnum & Hnt & Htok & Hal).
    exists s1, k, q. split; [done|]. split; [congruence|].
    split; [congruence|]. split; [done|].
    rewrite Hs4 in Hnum. simpl in Hnum. injection Hnum as Hnum.
    split; [congruence|]. done. }
  split.
  { rewrite Hsy', length_take_le by lia. lia. }
  split.
  { intros i Hi. rewrite Hsy' in Hi |- *. rewrite length_take_le in Hi by lia.
    rewrite P3, Nat2Z.id in Hi |- *.
    destruct (occ_surj A _ i Hi) as (k & p & Hk & Hp & Ho).
    destruct (Htr p _ (P8 k p Hp)) as (r & Hr' & Hn).
    exists p, r. rewrite lookup_take_lt by done.
    split; [rewrite <- Ho; by apply P6|].
    split; [by apply P2 in Hp as (? & _)|]. split; [done|lia]. }
  split.
  { intros p s' Hp Hs' Hc.
    destruct (Hpos p s' Hp Hs')
      as (s1 & k & q & Hs1 & Hc1 & Ha1 & Hk & Hn & _ & Htok & _).
    pose proof (Htok ltac:(congruence)) as Hlt.
    pose proof (occ_lt A k _ q Hk Hlt). lia. }
  split.
  { intros p s' Hp Hs' Hc.
    destruct (Hpos p s' Hp Hs')
      as (s1 & k & q & Hs1 & Hc1 & Ha1 & Hk & Hn & Hnt & _ & _).
    pose proof (Hnt ltac:(congruence)) as Hge.
    pose proof (occ_mono A _ k Hge).
    pose proof (occ_lt A k (length A) q Hk ltac:(by eapply lookup_lt_Some)).
    lia. }
  split.
  { intros p s' a Hp Hs' Ha.
    destruct (Hpos p s' Hp Hs')
      as (s1 & k & q & Hs1 & Hc1 & Ha1 & Hk & Hn & _ & _ & Hal).
    destruct (Htr a _ (Hal a ltac:(congruence))) as (r & Hr' & Hnr).
    exists r. split; [done|congruence]. }
  exists A. split; [lia|].
  split.
  { intros k q. rewrite P2. split.
    - intros (Hq & s1 & Hs1 & Hpl & Hsl). split; [done|].
      specialize (Hskel q). rewrite Hs1 in Hskel.
      destruct (heap st !! q) as [s|]; [|done]. exists s. split; [done|].
      assert (skel s1 = skel s) as Heq by (simpl in Hskel; congruence).
      split; [by apply (skel_placed s s1)|].
      rewrite <- Hsnt. by rewrite <- (skel_slot _ s s1).
    - intros (Hq & s & Hs & Hpl & Hsl). split; [done|].
      specialize (Hskel q). rewrite Hs in Hskel.
      destruct (heap st1 !! q) as [s1|]; [|done]. exists s1. split; [done|].
      assert (skel s1 = skel s) as Heq by (simpl in Hskel; congruence).
      split; [by apply (skel_placed s s1)|].
      rewrite Hsnt. by rewrite (skel_slot _ s s1). }
  unfold empty_slots.
  split; [lia|]. split; [lia|].
  intros k p Hk. split.
  - rewrite Hsy'. rewrite lookup_take_lt; [by apply P6|].
    rewrite P3, Nat2Z.id.
    apply (occ_lt A k (length A) p Hk). by eapply lookup_lt_Some.
  - apply Htr. by apply P8.
Qed.


(** ** Properties of the link lists *)

(** Decides memberships in explicit lists. *)
Ltac list_mem :=
  intros; rewrite ?elem_of_cons, ?not_elem_of_cons, ?elem_of_nil in *;
  try tauto; try lia.

Lemma register_walk_spec rest : forall x sym,
  x <= sym -> StronglySorted Z.lt (x :: rest) ->
  let '(l, b) := register_walk x rest sym in
  StronglySorted Z.lt l /\ head l = Some x /\
  (forall y, y ∈ l <-> y ∈ x :: rest \/ y = sym) /\
  (b = true <-> sym ∉ x :: rest) /\
  (b = false -> l = x :: rest) /\
  length l = (length (x :: rest) + if b then 1 else 0)%nat.
Proof.
  induction rest as [|next rest IH]; intros x sym Hle Hs; simpl.
  - case_bool_decide as Hx.
    + subst. split; [done|]. split; [done|]. split; [list_mem|].
      split; [split; [done|list_mem]|]. split; [done|]. done.
    + split; [repeat constructor; lia|].
      split; [done|]. split; [list_mem|].
      split; [split; [list_mem|done]|]. split; [done|]. done.
  - apply StronglySorted_inv in Hs as [Hs Hall].
    pose proof Hall as Hall'. apply Forall_cons in Hall' as [Hxn Hrest].
    pose proof Hs as Hs2. apply StronglySorted_inv in Hs2 as [_ Hnext].
    case_bool_decide as Hn.
    + specialize (IH next sym Hn Hs).
      destruct (register_walk next rest sym) as [l b].
      destruct IH as (Hsl & Hhd & Hmem & Hb & Hsame & Hlen).
      split.
      { constructor; [done|]. apply Forall_forall. intros y Hy.
        apply Hmem in Hy as [Hy| ->]; [|lia].
        rewrite Forall_forall in Hall. by apply Hall. }
      split; [done|]. split.
      { intros y. rewrite !elem_of_cons, Hmem, !elem_of_cons. tauto. }
      split.
      { rewrite Hb, !not_elem_of_cons. split; [|tauto].
        intros [? ?]. split; [lia|done]. }
      split; [intros Hf; by rewrite (Hsame Hf)|].
      simpl in *. lia.
    + case_bool_decide as Hx.
      * subst. split; [by constructor|]. split; [done|].
        split; [list_mem|]. split; [split; [done|list_mem]|].
        split; [done|]. simpl. lia.
      * split.
        { constructor; [constructor; [done|]|].
          - constructor; [lia|].
            eapply Forall_impl; [exact Hnext|]. intros; simpl in *; lia.
          - constructor; [lia|done]. }
        split; [done|]. split; [list_mem|].
        split.
        { split; [|done]. intros _.
          rewrite !not_elem_of_cons. split; [done|]. split; [lia|].
          intros Hin. rewrite Forall_forall in Hnext.
          specialize (Hnext _ Hin). lia. }
        split; [done|]. simpl. lia.
Qed.

Lemma register_second_spec first sym :
  StronglySorted Z.lt first ->
  let '(l, b) := register_precedence_second_symbol first sym in
  StronglySorted Z.lt l /\
  (forall y, y ∈ l <-> y ∈ first \/ y = sym) /\
  (b = true <-> sym ∉ first) /\
  (b = false -> l = first) /\
  length l = (length first + if b then 1 else 0)%nat.
Proof.
  intros Hs. unfold register_precedence_second_symbol.
  destruct first as [|f rest].
  - split; [repeat constructor|]. split; [list_mem|].
    split; [split; [list_mem|done]|]. split; [done|]. done.
  - case_bool_decide as Hlt.
    + split.
      { constructor; [done|]. constructor; [done|].
        apply StronglySorted_inv in Hs as [_ Hall].
        eapply Forall_impl; [exact Hall|]. intros; simpl in *; lia. }
      split; [list_mem|]. split; [|split; [done|simpl; lia]].
      split; [|done]. intros _. rewrite not_elem_of_cons. split; [lia|].
      intros Hin. apply StronglySorted_inv in Hs as [_ Hall].
      rewrite Forall_forall in Hall. specialize (Hall _ Hin). lia.
    + pose proof (register_walk_spec rest f sym ltac:(lia) Hs) as Hw.
      destruct (register_walk f rest sym) as [l b].
      destruct Hw as (Hsl & _ & Hmem & Hb & Hsame & Hlen).
      done.
Qed.

(** X1: on a strictly increasing link list,
    [register_precedence_second_symbol] returns a strictly increasing list
    that holds the former ids and [sym]; it answers true exactly when [sym]
    was not in the list, and then the list is one link longer; otherwise
    the list is the same. *)
Theorem register_precedence_second_symbol_sorted first sym :
  StronglySorted Z.lt first ->
  let '(l, b) := register_precedence_second_symbol first sym in
  StronglySorted Z.lt l /\
  (forall y, y ∈ l <-> y ∈ first \/ y = sym) /\
  (b = true <-> sym ∉ first) /\
  (b = false -> l = first) /\
  length l = (length first + if b then 1 else 0)%nat.
Proof. apply register_second_spec. Qed.

Lemma split_first_unique {A} (el : A) pre : forall post pre' post',
  pre ++ (el :: post) = pre' ++ (el :: post') ->
  (el ∉ pre) -> (el ∉ pre') -> pre = pre' /\ post = post'.
Proof.
  induction pre as [|a pre IH]; intros post [|b pre'] post' Heq Hn Hn';
    simplify_eq/=.
  - done.
  - exfalso. apply Hn'. by left.
  - exfalso. apply Hn. by left.
  - rewrite not_elem_of_cons in Hn, Hn'.
    destruct (IH post pre' post' ltac:(done)) as [-> ->]; tauto.
Qed.

Lemma delete_one_link_loop_spec rest : forall x el l',
  el <> x ->
  (delete_one_link_loop x rest el = Some l' <->
   exists pre post, x :: rest = pre ++ (el :: post) /\ (el ∉ pre) /\
                    l' = pre ++ post).
Proof.
  induction rest as [|next rest IH]; intros x el l' Hne; simpl.
  - split; [done|]. intros (pre & post & Heq & Hnot & _).
    destruct pre as [|a pre]; simplify_eq/=. by destruct pre.
  - case_bool_decide as Hn.
    + subst. split.
      * intros [= <-]. exists [x], rest. split; [done|]. split; [list_mem|done].
      * intros (pre & post & Heq & Hnot & ->).
        destruct (split_first_unique next [x] rest pre post Heq) as [<- <-];
          [list_mem|done|done].
    + destruct (delete_one_link_loop next rest el) as [l|] eqn:Hl; simpl.
      * apply (IH next el l Hn) in Hl as (pre & post & Heq & Hnot & ->).
        split.
        -- intros [= <-]. exists (x :: pre), post. rewrite Heq.
           split; [done|]. split; [|done]. list_mem.
        -- intros (pre' & post' & Heq' & Hnot' & ->).
           rewrite Heq in Heq'.
           destruct (split_first_unique el (x :: pre) post pre' post' Heq')
             as [<- <-]; [list_mem|done|done].
      * split; [done|]. intros (pre' & post' & Heq' & Hnot' & ->).
        exfalso.
        destruct pre' as [|a pre']; simplify_eq/=.
        rewrite not_elem_of_cons in Hnot'. destruct Hnot' as [_ Hnot'].
        assert (delete_one_link_loop next rest el = Some (pre' ++ post'))
          as Hsome; [|congruence].
        apply (IH next el _ Hn). by exists pre', post'.
Qed.

(** X2: [delete_one_link] removes the first link that holds [el] and
    keeps the others in order; when no link holds [el] (the empty list
    included) the walk runs off the end of the list. *)
Theorem delete_one_link_first_occurrence links el :
  (forall l', delete_one_link links el = Some l' <->
     exists pre post, links = pre ++ (el :: post) /\ (el ∉ pre) /\
                      l' = pre ++ post) /\
  (delete_one_link links el = None <-> el ∉ links).
Proof.
  assert (forall l', delete_one_link links el = Some l' <->
     exists pre post, links = pre ++ (el :: post) /\ (el ∉ pre) /\
                      l' = pre ++ post) as Hsome.
  { intros l'. unfold delete_one_link. destruct links as [|f rest].
    - split; [done|]. intros (pre & post & Heq & _). by destruct pre.
    - case_bool_decide as Hf.
      + subst. split.
        * intros [= <-]. exists [], rest. split; [done|]. split; [list_mem|done].
        * intros (pre & post & Heq & Hnot & ->).
          destruct (split_first_unique f [] rest pre post Heq) as [<- <-];
            [list_mem|done|done].
      + by apply delete_one_link_loop_spec. }
  split; [done|]. rewrite eq_None_not_Some. split.
  - intros Hnone Hin. apply Hnone.
    apply list_elem_of_split_l in Hin as (pre & post & -> & Hnot).
    exists (pre ++ post). apply Hsome. by exists pre, post.
  - intros Hnot [l' Hl']. apply Hsome in Hl' as (pre & post & -> & _).
    apply Hnot. rewrite elem_of_app. right. list_mem.
Qed.

Lemma register_walk_delete rest : forall x sym,
  (sym ∉ x :: rest) ->
  exists l', (register_walk x rest sym).1 = x :: l' /\
             delete_one_link_loop x l' sym = Some (x :: rest).
Proof.
  induction rest as [|next rest IH]; intros x sym Hnot; simpl.
  - rewrite bool_decide_false by list_mem. exists [sym].
    split; [done|]. simpl. by rewrite bool_decide_true.
  - case_bool_decide as Hn.
    + destruct (IH next sym ltac:(list_mem)) as (l' & Hl & Hd).
      destruct (register_walk next rest sym) as [l b]. simpl in *. subst l.
      exists (next :: l'). split; [done|]. simpl.
      rewrite bool_decide_false by list_mem. by rewrite Hd.
    + rewrite bool_decide_false by list_mem. exists (sym :: next :: rest).
      split; [done|]. simpl. by rewrite bool_decide_true.
Qed.

(** X3: when [sym] is not in the list, deleting the link that
    [register_precedence_second_symbol] has just added for it gives the list
    back. *)
Theorem register_then_delete first sym :
  (sym ∉ first) ->
  delete_one_link (register_precedence_second_symbol first sym).1 sym
  = Some first.
Proof.
  intros Hnot. unfold register_precedence_second_symbol.
  destruct first as [|f rest]; simpl.
  - by rewrite bool_decide_true.
  - case_bool_decide as Hlt; simpl.
    + by rewrite bool_decide_true.
    + destruct (register_walk_delete rest f sym Hnot) as (l' & Hl & Hd).
      rewrite Hl. simpl. rewrite bool_decide_false by list_mem. done.
Qed.

Lemma same_list_nil_cons y l2 mark niter :
  same_list [] (y :: l2) mark niter
  = g2 ← is_precedence_in_group mark y niter;
    if (g2 : bool) then same_list [] l2 mark niter else Some false.
Proof. reflexivity. Qed.

Lemma same_list_cons_nil x l1 mark niter :
  same_list (x :: l1) [] mark niter
  = g1 ← is_precedence_in_group mark x niter;
    if (g1 : bool) then same_list l1 [] mark niter else Some false.
Proof. reflexivity. Qed.

Lemma same_list_cons_cons x l1 y l2 mark niter :
  same_list (x :: l1) (y :: l2) mark niter
  = g1 ← is_precedence_in_group mark x niter;
    if (g1 : bool) then same_list l1 (y :: l2) mark niter
    else
      g2 ← is_precedence_in_group mark y niter;
      if (g2 : bool) then same_list (x :: l1) l2 mark niter
      else if bool_decide (x = y) then same_list l1 l2 mark niter
      else Some false.
Proof. reflexivity. Qed.

Lemma filter_outside_in mark niter x l :
  is_precedence_in_group mark x niter = Some true ->
  filter (outside_group mark niter) (x :: l)
  = filter (outside_group mark niter) l.
Proof.
  intros Hx. apply filter_cons_False. unfold outside_group. rewrite Hx.
  intros H. by apply H.
Qed.

Lemma filter_outside_out mark niter x l :
  is_precedence_in_group mark x niter = Some false ->
  filter (outside_group mark niter) (x :: l)
  = x :: filter (outside_group mark niter) l.
Proof.
  intros Hx. apply filter_cons_True. unfold outside_group. by rewrite Hx.
Qed.

(** X4: when [same_list] returns, it answers whether the two lists
    hold the same ids in the same order once the ids of the group are left
    out; with no mark vector it always returns, and compares the lists
    themselves. *)
Theorem same_list_filtered l1 l2 mark niter :
  (forall b, same_list l1 l2 mark niter = Some b ->
     (b = true <->
      filter (outside_group mark niter) l1
      = filter (outside_group mark niter) l2)) /\
  same_list l1 l2 None niter = Some (bool_decide (l1 = l2)).
Proof.
  split.
  - revert l2. induction l1 as [|x l1 IH1].
    + induction l2 as [|y l2 IH2]; intros b Hb.
      * injection Hb as <-. done.
      * rewrite same_list_nil_cons in Hb.
        destruct (is_precedence_in_group mark y niter) as [[|]|] eqn:Hy;
          simpl in Hb; [| |done].
        -- rewrite (filter_outside_in _ _ _ _ Hy). by apply IH2.
        -- injection Hb as <-. rewrite (filter_outside_out _ _ _ _ Hy). done.
    + induction l2 as [|y l2 IH2]; intros b Hb.
      * rewrite same_list_cons_nil in Hb.
        destruct (is_precedence_in_group mark x niter) as [[|]|] eqn:Hx;
          simpl in Hb; [| |done].
        -- rewrite (filter_outside_in _ _ _ _ Hx). by apply (IH1 []).
        -- injection Hb as <-. rewrite (filter_outside_out _ _ _ _ Hx). done.
      * rewrite same_list_cons_cons in Hb.
        destruct (is_precedence_in_group mark x niter) as [[|]|] eqn:Hx;
          simpl in Hb; [| |done].
        -- rewrite (filter_outside_in _ _ x _ Hx). by apply (IH1 (y :: l2)).
        -- rewrite (filter_outside_out _ _ x _ Hx).
           destruct (is_precedence_in_group mark y niter) as [[|]|] eqn:Hy;
             simpl in Hb; [| |done].
           ++ rewrite (filter_outside_in _ _ y _ Hy).
              rewrite <- (filter_outside_out _ _ x _ Hx). by apply IH2.
           ++ rewrite (filter_outside_out _ _ y _ Hy).
              case_bool_decide as Hxy.
              ** subst y. rewrite (IH1 l2 b Hb). split; [by intros ->|].
                 by intros [=].
              ** injection Hb as <-. split; [done|]. by intros [=].
  - revert l2. induction l1 as [|x l1 IH1]; intros [|y l2];
      [reflexivity|reflexivity|reflexivity|].
    rewrite same_list_cons_cons. simpl. case_bool_decide as Hxy.
    +
      subst y. rewrite IH1. f_equal. apply bool_decide_ext.
      split; [by intros ->|by intros [=]].
    + f_equal. symmetry. apply bool_decide_false. by intros [=].
Qed.

(** X5: [same_size] answers whether the two lists have the same
    number of links. *)
Theorem same_size_length l1 l2 :
  same_size l1 l2 = bool_decide (length l1 = length l2).
Proof.
  revert l2. induction l1 as [|x l1 IH]; intros [|y l2]; simpl; try done.
  rewrite IH. apply bool_decide_ext. lia.
Qed.

(** X6: [grow] returns a well-formed vector with at least [size]
    entries: a new one is 10 entries larger than asked and all zero; a vector
    that is large enough is returned as it is; a vector that is enlarged keeps
    its entries and gets zeros behind them. *)
Theorem grow_keeps_entries vect size :
  0 <= size ->
  match vect with Some v => intvect_wf v | None => True end ->
  let v' := grow vect size in
  intvect_wf v' /\ size <= iv_size v' /\
  match vect with
  | None => iv_size v' = size + 10 /\ forall i x, iv_t v' !! i = Some x -> x = 0
  | Some v =>
      iv_size v <= iv_size v' /\
      (size <= iv_size v -> v' = v) /\
      (iv_size v < size -> iv_size v' = size + 10) /\
      (forall i x, iv_t v !! i = Some x -> iv_t v' !! i = Some x) /\
      (forall i x, (length (iv_t v) <= i)%nat -> iv_t v' !! i = Some x -> x = 0)
  end.
Proof.
  intros Hsize Hwf. destruct vect as [v|]; simpl.
  - destruct Hwf as [Hpos Hlen]. case_bool_decide as Hle.
    + split; [done|]. split; [done|]. split; [lia|]. split; [done|].
      split; [lia|]. split; [done|]. intros i x Hi Hx.
      apply lookup_lt_Some in Hx. lia.
    + rewrite take_ge by lia. unfold intvect_wf. simpl.
      rewrite length_app, length_fmap, length_seq.
      split; [lia|]. split; [lia|]. split; [lia|]. split; [lia|].
      split; [done|]. split.
      * intros i x Hx. by apply lookup_app_l_Some.
      * intros i x Hi Hx. rewrite lookup_app_r in Hx by done.
        apply list_lookup_fmap_Some in Hx as (? & ? & ?). done.
  - unfold intvect_wf. simpl. rewrite length_replicate.
    split; [lia|]. split; [lia|]. split; [done|].
    intros i x Hx. by apply lookup_replicate in Hx as [-> _].
Qed.

(** ** Properties of the relation graph *)

Lemma node_at_Some nodes i s :
  node_at nodes i = Some s <-> 0 <= i /\ nodes !! Z.to_nat i = Some s.
Proof.
  unfold node_at. case_bool_decide; [tauto|]. split; [done|]. lia.
Qed.

Lemma node_update_lookup nodes i f s k :
  node_at nodes i = Some s ->
  node_update nodes i f !! k
  = if decide (k = Z.to_nat i) then Some (f s) else nodes !! k.
Proof.
  intros Hs. unfold node_update. rewrite Hs.
  apply node_at_Some in Hs as [_ Hs]. case_decide as Hk.
  - subst. apply list_lookup_insert_eq. by eapply lookup_lt_Some.
  - by apply list_lookup_insert_ne.
Qed.

Lemma node_update_length nodes i f :
  length (node_update nodes i f) = length nodes.
Proof.
  unfold node_update. destruct (node_at nodes i); [|done].
  apply length_insert.
Qed.

Lemma init_prec_nodes_lookup n i s :
  init_prec_nodes n !! i = Some s ->
  s = mk_symgraph (Z.of_nat i) [] [] None None 0 0.
Proof.
  unfold init_prec_nodes, upto. rewrite <- list_fmap_compose.
  intros (k & -> & Hk)%list_lookup_fmap_Some.
  apply lookup_seq in Hk as [-> _]. done.
Qed.

Lemma init_prec_nodes_wf n : prec_wf (init_prec_nodes n).
Proof.
  intros i s ->%init_prec_nodes_lookup. simpl.
  repeat split; try constructor; intros j Hj; by apply elem_of_nil in Hj.
Qed.

(** The nodes after [register_precedence]: the node [first] has the new
    successor list, the node [snd] the new predecessor list. *)
Lemma register_precedence_nodes nsyms prec_nodes first snd nodes' :
  register_precedence nsyms prec_nodes first snd = Some nodes' ->
  exists f s,
    0 <= first /\ 0 <= snd /\
    nodes_of nsyms prec_nodes !! Z.to_nat first = Some f /\
    nodes_of nsyms prec_nodes !! Z.to_nat snd = Some s /\
    length nodes' = length (nodes_of nsyms prec_nodes) /\
    forall i,
      nodes' !! i
      = (fun s0 =>
           let r1 := register_precedence_second_symbol (succ f) snd in
           let r2 := register_precedence_second_symbol (pred s) first in
           mk_symgraph (id s0)
             (if decide (i = Z.to_nat first) then r1.1 else succ s0)
             (if decide (i = Z.to_nat snd) then r2.1 else pred s0)
             (groupnext s0) (g_symbols s0)
             (if decide (i = Z.to_nat snd)
              then (if r2.2 then indegree s0 + 1 else indegree s0)
              else indegree s0)
             (if decide (i = Z.to_nat first)
              then (if r1.2 then outdegree s0 + 1 else outdegree s0)
              else outdegree s0))
        <$> nodes_of nsyms prec_nodes !! i.
Proof.
  unfold register_precedence. fold (nodes_of nsyms prec_nodes).
  set (nodes := nodes_of nsyms prec_nodes).
  destruct (node_at nodes first) as [f|] eqn:Hf; simpl; [|done].
  destruct (register_precedence_second_symbol (succ f) snd) as [l1 b1] eqn:Hr1.
  set (upd1 := fun s0 : symgraph => mk_symgraph (id s0) l1 (pred s0)
                 (groupnext s0) (g_symbols s0) (indegree s0)
                 (if b1 then outdegree s0 + 1 else outdegree s0)).
  destruct (node_at (node_update nodes first upd1) snd) as [s1|] eqn:Hs1;
    simpl; [|done].
  destruct (register_precedence_second_symbol (pred s1) first) as [l2 b2] eqn:Hr2.
  intros [= <-].
  pose proof Hf as [Hf0 Hf']%node_at_Some.
  pose proof Hs1 as [Hs0 Hs1']%node_at_Some.
  rewrite (node_update_lookup _ _ _ _ _ Hf) in Hs1'.
  destruct (decide (Z.to_nat snd = Z.to_nat first)) as [Hk|Hk].
  - injection Hs1' as <-. simpl in Hr2.
    exists f, f. split; [done|]. split; [done|]. split; [done|].
    split; [by rewrite Hk|].
    split; [by rewrite !node_update_length|].
    intros i. rewrite (node_update_lookup _ _ _ _ _ Hs1). rewrite Hr1, Hr2, Hk.
    simpl. destruct (decide (i = Z.to_nat first)) as [->|Hi].
    + by rewrite Hf'.
    + rewrite (node_update_lookup _ _ _ _ _ Hf).
      rewrite decide_False by done. by destruct (nodes !! i) as [[]|].
  - exists f, s1. split; [done|]. split; [done|]. split; [done|].
    split; [done|].
    split; [by rewrite !node_update_length|].
    intros i. rewrite (node_update_lookup _ _ _ _ _ Hs1). rewrite Hr1, Hr2.
    simpl. destruct (decide (i = Z.to_nat snd)) as [->|Hi].
    + rewrite Hs1'. simpl.
      destruct (decide (Z.to_nat snd = Z.to_nat first)); [done|reflexivity].
    + rewrite (node_update_lookup _ _ _ _ _ Hf).
      destruct (decide (i = Z.to_nat first)) as [->|Hi'].
      * by rewrite Hf'.
      * by destruct (nodes !! i) as [[]|].
Qed.

Lemma register_precedence_total nsyms prec_nodes first snd :
  0 <= first < Z.of_nat (length (nodes_of nsyms prec_nodes)) ->
  0 <= snd < Z.of_nat (length (nodes_of nsyms prec_nodes)) ->
  is_Some (register_precedence nsyms prec_nodes first snd).
Proof.
  intros Hf Hs. unfold register_precedence. fold (nodes_of nsyms prec_nodes).
  set (nodes := nodes_of nsyms prec_nodes) in *.
  destruct (lookup_lt_is_Some_2 nodes (Z.to_nat first) ltac:(lia)) as [f Hf'].
  assert (node_at nodes first = Some f) as ->
    by (apply node_at_Some; split; [lia|done]).
  simpl. destruct (register_precedence_second_symbol (succ f) snd) as [l1 b1].
  match goal with
  | |- context [node_at ?n snd] =>
      destruct (lookup_lt_is_Some_2 n (Z.to_nat snd)) as [s Hs'];
        [rewrite node_update_length; lia|];
      assert (node_at n snd = Some s) as ->
        by (apply node_at_Some; split; [lia|done])
  end.
  simpl. destruct (register_precedence_second_symbol (pred s) first). done.
Qed.

(** What [register_precedence] does to a well-formed graph. *)
Lemma register_precedence_spec nsyms prec_nodes first snd nodes' :
  prec_wf (nodes_of nsyms prec_nodes) ->
  register_precedence nsyms prec_nodes first snd = Some nodes' ->
  prec_wf nodes' /\
  length nodes' = length (nodes_of nsyms prec_nodes) /\
  (forall i s', nodes' !! i = Some s' ->
     exists s, nodes_of nsyms prec_nodes !! i = Some s /\
       id s' = id s /\ groupnext s' = groupnext s /\
       g_symbols s' = g_symbols s /\
       (forall j, j ∈ succ s' <->
                  j ∈ succ s \/ (Z.of_nat i = first /\ j = snd)) /\
       (forall j, j ∈ pred s' <->
                  j ∈ pred s \/ (Z.of_nat i = snd /\ j = first))) /\
  register_precedence nsyms (Some nodes') first snd = Some nodes'.
Proof.
  intros Hwf Hrun.
  destruct (register_precedence_nodes _ _ _ _ _ Hrun)
    as (f & s & Hf0 & Hs0 & Hf & Hs & Hlen & Hlook).
  set (nodes := nodes_of nsyms prec_nodes) in *.
  destruct (Hwf _ _ Hf) as (Hfs & _ & Hfo & _ & _ & _).
  destruct (Hwf _ _ Hs) as (_ & Hsp & _ & Hsi & _ & _).
  pose proof (register_second_spec (succ f) snd Hfs) as Hr1.
  pose proof (register_second_spec (pred s) first Hsp) as Hr2.
  destruct (register_precedence_second_symbol (succ f) snd) as [l1 b1] eqn:E1.
  destruct (register_precedence_second_symbol (pred s) first) as [l2 b2] eqn:E2.
  destruct Hr1 as (Hl1s & Hl1m & Hb1 & Hl1same & Hl1len).
  destruct Hr2 as (Hl2s & Hl2m & Hb2 & Hl2same & Hl2len).
  simpl in Hlook.
  assert (forall i s', nodes' !! i = Some s' ->
     exists s0, nodes !! i = Some s0 /\
       id s' = id s0 /\ groupnext s' = groupnext s0 /\
       g_symbols s' = g_symbols s0 /\
       succ s' = (if decide (i = Z.to_nat first) then l1 else succ s0) /\
       pred s' = (if decide (i = Z.to_nat snd) then l2 else pred s0) /\
       indegree s' = (if decide (i = Z.to_nat snd)
                      then (if b2 then indegree s0 + 1 else indegree s0)
                      else indegree s0) /\
       outdegree s' = (if decide (i = Z.to_nat first)
                       then (if b1 then outdegree s0 + 1 else outdegree s0)
                       else outdegree s0)) as Hnode.
  { intros i s' Hs'. rewrite Hlook in Hs'.
    destruct (nodes !! i) as [s0|]; [|done]. simpl in Hs'.
    injection Hs' as <-. exists s0. done. }
  assert (forall i s0, nodes !! i = Some s0 ->
            exists s', nodes' !! i = Some s' /\
              succ s' = (if decide (i = Z.to_nat first) then l1 else succ s0) /\
              pred s' = (if decide (i = Z.to_nat snd) then l2 else pred s0))
    as Hfwd.
  { intros i s0 Hs0'. rewrite Hlook, Hs0'. simpl. eexists. done. }
  assert (forall i s', nodes' !! i = Some s' ->
     exists s0, nodes !! i = Some s0 /\
       (forall j, j ∈ succ s' <->
                  j ∈ succ s0 \/ (Z.of_nat i = first /\ j = snd)) /\
       (forall j, j ∈ pred s' <->
                  j ∈ pred s0 \/ (Z.of_nat i = snd /\ j = first))) as Hedges.
  { intros i s' Hs'.
    destruct (Hnode i s' Hs') as (s0 & Hs0' & _ & _ & _ & Hsu & Hpr & _).
    exists s0. split; [done|]. rewrite Hsu, Hpr. clear Hsu Hpr.
    split; intros j.
    - destruct (decide (i = Z.to_nat first)) as [->|Hi].
      + rewrite Hf in Hs0'. injection Hs0' as <-.
        rewrite Hl1m. split; [|tauto]. intros [?|?]; [tauto|].
        right. split; [lia|done].
      + split; [tauto|]. intros [?|[? ?]]; [done|lia].
    - destruct (decide (i = Z.to_nat snd)) as [->|Hi].
      + rewrite Hs in Hs0'. injection Hs0' as <-.
        rewrite Hl2m. split; [|tauto]. intros [?|?]; [tauto|].
        right. split; [lia|done].
      + split; [tauto|]. intros [?|[? ?]]; [done|lia]. }
  split.
  { intros i s' Hs'.
    destruct (Hnode i s' Hs')
      as (s0 & Hs0' & _ & _ & _ & Hsu & Hpr & Hin & Hout).
    destruct (Hwf _ _ Hs0') as (W1 & W2 & W3 & W4 & W5 & W6).
    destruct (Hedges i s' Hs') as (s0' & Hs0'' & Hes & Hep).
    rewrite Hs0' in Hs0''. injection Hs0'' as <-.
    split.
    { rewrite Hsu. by destruct (decide (i = Z.to_nat first)). }
    split.
    { rewrite Hpr. by destruct (decide (i = Z.to_nat snd)). }
    split.
    { rewrite Hsu, Hout.
      destruct (decide (i = Z.to_nat first)) as [->|Hi]; [|done].
      rewrite Hf in Hs0'. injection Hs0' as <-.
      rewrite Hl1len. destruct b1; lia. }
    split.
    { rewrite Hpr, Hin.
      destruct (decide (i = Z.to_nat snd)) as [->|Hi]; [|done].
      rewrite Hs in Hs0'. injection Hs0' as <-.
      rewrite Hl2len. destruct b2; lia. }
    clear Hsu Hpr Hin Hout.
    split.
    - intros j [Hj|[Hi ->]]%Hes.
      + destruct (W5 j Hj) as (t0 & [Hj0 Ht0]%node_at_Some & Hmem).
        destruct (Hfwd _ _ Ht0) as (t' & Ht' & _ & Hpt).
        exists t'. split; [by apply node_at_Some|]. rewrite Hpt.
        destruct (decide (Z.to_nat j = Z.to_nat snd)) as [Hjb|Hjb]; [|done].
        rewrite Hjb, Hs in Ht0.
        injection Ht0 as <-. apply Hl2m. by left.
      + destruct (Hfwd _ _ Hs) as (t' & Ht' & _ & Hpt).
        exists t'. split; [by apply node_at_Some|]. rewrite Hpt.
        rewrite decide_True by done. apply Hl2m. right. lia.
    - intros j [Hj|[Hi ->]]%Hep.
      + destruct (W6 j Hj) as (t0 & [Hj0 Ht0]%node_at_Some & Hmem).
        destruct (Hfwd _ _ Ht0) as (t' & Ht' & Hst & _).
        exists t'. split; [by apply node_at_Some|]. rewrite Hst.
        destruct (decide (Z.to_nat j = Z.to_nat first)) as [Hja|Hja]; [|done].
        rewrite Hja, Hf in Ht0.
        injection Ht0 as <-. apply Hl1m. by left.
      + destruct (Hfwd _ _ Hf) as (t' & Ht' & Hst & _).
        exists t'. split; [by apply node_at_Some|]. rewrite Hst.
        rewrite decide_True by done. apply Hl1m. right. lia. }
  split; [done|].
  split.
  { intros i s' Hs'.
    destruct (Hnode i s' Hs') as (s0 & Hs0' & Hid & Hg & Hsy & _).
    destruct (Hedges i s' Hs') as (s0' & Hs0'' & Hes & Hep).
    rewrite Hs0' in Hs0''. injection Hs0'' as <-.
    exists s0. done. }
  (* a second registration changes nothing *)
  destruct (register_precedence_total nsyms (Some nodes') first snd)
    as [nodes2 Hrun2].
  { simpl. rewrite Hlen. apply lookup_lt_Some in Hf. lia. }
  { simpl. rewrite Hlen. apply lookup_lt_Some in Hs. lia. }
  rewrite Hrun2. f_equal.
  destruct (register_precedence_nodes _ _ _ _ _ Hrun2)
    as (f' & s' & _ & _ & Hf' & Hs' & Hlen2 & Hlook2).
  simpl in Hf', Hs', Hlook2.
  destruct (Hnode _ _ Hf') as (f0 & Hf0' & _ & _ & _ & Hsuf & _).
  destruct (Hnode _ _ Hs') as (s0 & Hs0' & _ & _ & _ & _ & Hprs & _).
  rewrite decide_True in Hsuf by done. rewrite decide_True in Hprs by done.
  pose proof (register_second_spec l1 snd Hl1s) as Hr1'.
  pose proof (register_second_spec l2 first Hl2s) as Hr2'.
  rewrite Hsuf, Hprs in Hlook2.
  destruct (register_precedence_second_symbol l1 snd) as [l1' b1'].
  destruct (register_precedence_second_symbol l2 first) as [l2' b2'].
  destruct Hr1' as (_ & _ & Hb1' & Hsame1 & _).
  destruct Hr2' as (_ & _ & Hb2' & Hsame2 & _).
  assert (b1' = false) as ->.
  { destruct b1'; [|done]. exfalso. apply Hb1'; [done|]. apply Hl1m. by right. }
  assert (b2' = false) as ->.
  { destruct b2'; [|done]. exfalso. apply Hb2'; [done|]. apply Hl2m. by right. }
  rewrite (Hsame1 eq_refl), (Hsame2 eq_refl) in Hlook2. simpl in Hlook2.
  apply list_eq. intros i. rewrite Hlook2.
  destruct (nodes' !! i) as [t|] eqn:Ht; [|done]. simpl. f_equal.
  destruct (Hnode _ _ Ht) as (t0 & _ & _ & _ & _ & Hsu & Hpr & _).
  destruct t as [ti ts tp tg tsy tin tout]. simpl in *. f_equal.
  - destruct (decide (i = Z.to_nat first)); [by subst|done].
  - destruct (decide (i = Z.to_nat snd)); [by subst|done].
  - by destruct (decide (i = Z.to_nat snd)).
  - by destruct (decide (i = Z.to_nat first)).
Qed.

(** X7: [register_precedence] keeps the relation graph well formed,
    from the empty graph it creates on: every link list stays strictly
    increasing, [outdegree] and [indegree] count the links of [succ] and
    [pred], and every link [i -> j] in a [succ] list has its mirror in the
    [pred] list of [j], and conversely. *)
Theorem register_precedence_keeps_graph nsyms prec_nodes first snd nodes' :
  match prec_nodes with Some l => prec_wf l | None => True end ->
  register_precedence nsyms prec_nodes first snd = Some nodes' ->
  prec_wf nodes'.
Proof.
  intros Hwf Hrun.
  apply (register_precedence_spec nsyms prec_nodes first snd nodes'); [|done].
  destruct prec_nodes; [done|]. apply init_prec_nodes_wf.
Qed.

(** X8: on a well-formed graph, [register_precedence (first, snd)]
    adds the link [first -> snd] to the successors of [first] and its mirror
    to the predecessors of [snd], and changes no other link, no id and no
    group pointer; the graph keeps its nodes. *)
Theorem register_precedence_adds_one_link nsyms prec_nodes first snd nodes' :
  match prec_nodes with Some l => prec_wf l | None => True end ->
  register_precedence nsyms prec_nodes first snd = Some nodes' ->
  length nodes' = length (nodes_of nsyms prec_nodes) /\
  forall i s', nodes' !! i = Some s' ->
    exists s, nodes_of nsyms prec_nodes !! i = Some s /\
      id s' = id s /\ groupnext s' = groupnext s /\
      g_symbols s' = g_symbols s /\
      (forall j, j ∈ succ s' <->
                 j ∈ succ s \/ (Z.of_nat i = first /\ j = snd)) /\
      (forall j, j ∈ pred s' <->
                 j ∈ pred s \/ (Z.of_nat i = snd /\ j = first)).
Proof.
  intros Hwf Hrun.
  destruct (register_precedence_spec nsyms prec_nodes first snd nodes')
    as (_ & Hlen & Hedges & _); [|done|done].
  destruct prec_nodes; [done|]. apply init_prec_nodes_wf.
Qed.

(** X9: registering a relation a second time changes nothing: the
    graph is the same and no degree is counted twice. *)
Theorem register_precedence_twice nsyms prec_nodes first snd nodes' :
  match prec_nodes with Some l => prec_wf l | None => True end ->
  register_precedence nsyms prec_nodes first snd = Some nodes' ->
  register_precedence nsyms (Some nodes') first snd = Some nodes'.
Proof.
  intros Hwf Hrun.
  apply (register_precedence_spec nsyms prec_nodes first snd nodes'); [|done].
  destruct prec_nodes; [done|]. apply init_prec_nodes_wf.
Qed.

Local Close Scope Z_scope.

(** ** From the relation graph to the printed reduction *)

Lemma mat_set_out n g i j b : square n g -> n <= j -> mat_set g i j b = g.
Proof.
  intros [Hl Hr] Hj. unfold mat_set. destruct (g !! i) as [row|] eqn:Hi; [|done].
  pose proof (Forall_lookup_1 _ _ _ _ Hr Hi) as Hlen. simpl in Hlen.
  rewrite (list_insert_ge row) by lia. by apply list_insert_id.
Qed.

(** The inner loop of [dynamic_graph_to_matrix] over the links of the node
    [i]. *)
Lemma links_to_row n i (ls : list Z) : forall g0,
  square n g0 -> i < n ->
  let g' := foldl (fun g l => if bool_decide (0 <= l)%Z
                              then mat_set g i (Z.to_nat l) true else g)
                  g0 ls in
  square n g' /\
  forall a c, a < n -> c < n ->
    mat_get g' a c = true <->
    mat_get g0 a c = true \/ (a = i /\ Z.of_nat c ∈ ls).
Proof.
  induction ls as [|l ls IH]; intros g0 Hsq Hi; simpl.
  - split; [done|]. intros a c _ _. rewrite elem_of_nil. tauto.
  - set (g1 := if bool_decide (0 <= l)%Z
               then mat_set g0 i (Z.to_nat l) true else g0).
    assert (square n g1) as Hsq1.
    { unfold g1. case_bool_decide; [by apply mat_set_square|done]. }
    destruct (IH g1 Hsq1 Hi) as [Hsq' Hget]. split; [done|].
    intros a c Ha Hc. rewrite (Hget a c Ha Hc), elem_of_cons.
    assert (mat_get g1 a c = true <->
            mat_get g0 a c = true \/ (a = i /\ Z.of_nat c = l)) as ->; [|tauto].
    unfold g1. case_bool_decide as Hl.
    + destruct (decide (Z.to_nat l < n)) as [Hlt|Hge].
      * rewrite (mat_get_set n) by done. case_decide as Hac.
        -- split; [|done]. intros _. right. split; [tauto|lia].
        -- split; [tauto|]. intros [?|[-> ?]]; [done|].
           exfalso. apply Hac. split; [done|lia].
      * rewrite (mat_set_out n) by (done || lia).
        split; [tauto|]. intros [?|[-> ?]]; [done|]. lia.
    + split; [tauto|]. intros [?|[-> ?]]; [done|]. lia.
Qed.

Lemma dynamic_graph_to_matrix_spec n prec_nodes :
  square n (dynamic_graph_to_matrix n prec_nodes) /\
  forall i j, edge (dynamic_graph_to_matrix n prec_nodes) i j <->
              related n prec_nodes i j.
Proof.
  unfold dynamic_graph_to_matrix.
  pose (P := fun (k : nat) (g : list (list bool)) =>
    square n g /\
    forall a c, a < n -> c < n ->
      mat_get g a c = true <->
      a < k /\ exists s, prec_nodes !! a = Some s /\ Z.of_nat c ∈ succ s).
  assert (P n (foldl (fun g i =>
           match prec_nodes !! i with
           | Some s =>
               foldl (fun g l => if bool_decide (0 <= l)%Z
                                 then mat_set g i (Z.to_nat l) true else g)
                     g (succ s)
           | None => g
           end) (new_graph n) (seq 0 n))) as [Hsq Hget].
  { apply foldl_seq_invariant.
    - split; [apply new_graph_square|]. intros a c _ _.
      rewrite mat_get_new_graph. split; [done|]. intros [? _]. lia.
    - intros j g Hj [Hsq Hget]. destruct (prec_nodes !! j) as [s|] eqn:Hs.
      + destruct (links_to_row n j (succ s) g Hsq Hj) as [Hsq' Hget'].
        split; [done|]. intros a c Ha Hc.
        rewrite (Hget' a c Ha Hc), (Hget a c Ha Hc). split.
        * intros [[? ?]|[-> ?]]; [split; [lia|done]|].
          split; [lia|]. by exists s.
        * intros [Hlt (s' & Hs' & Hin)].
          destruct (decide (a = j)) as [->|Hne].
          -- right. split; [done|]. congruence.
          -- left. split; [lia|]. by exists s'.
      + split; [done|]. intros a c Ha Hc. rewrite (Hget a c Ha Hc).
        split.
        * intros [? ?]. split; [lia|done].
        * intros [Hlt (s' & Hs' & Hin)]. split; [|by exists s'].
          destruct (decide (a = j)) as [->|Hne]; [congruence|lia]. }
  split; [done|]. intros i j. unfold edge, related. split.
  - intros Hij. destruct (mat_get_lt n _ i j Hsq Hij) as [Hi Hj].
    apply (Hget i j Hi Hj) in Hij as [_ ?]. done.
  - intros (Hi & Hj & Hs). apply (Hget i j Hi Hj). done.
Qed.

(** X10: [dynamic_graph_to_matrix] returns an [n * n] matrix whose
    cell [(i, j)] is set exactly when [j] is in the successor list of the
    node [i], for [i] and [j] below [n]. *)
Theorem dynamic_graph_to_matrix_edges n prec_nodes :
  square n (dynamic_graph_to_matrix n prec_nodes) /\
  forall i j,
    mat_get (dynamic_graph_to_matrix n prec_nodes) i j = true <->
    i < n /\ j < n /\
    exists s, prec_nodes !! i = Some s /\ Z.of_nat j ∈ succ s.
Proof. apply dynamic_graph_to_matrix_spec. Qed.

Lemma tc_iff {A} (R R' : relation A) :
  (forall x y, R x y <-> R' x y) -> forall x y, tc R x y <-> tc R' x y.
Proof.
  intros H x y. split; intros Ht.
  - apply (tc_congruence (R := R) (fun a => a) R'); [|done].
    intros; by apply H.
  - apply (tc_congruence (R := R') (fun a => a) R); [|done].
    intros; by apply H.
Qed.

(** X11: [print_transitive_reduction] prints the link from [i] to
    [j], once, exactly when [j] is reached from [i] through the relations of
    the graph and no node lies between them, that is no [m] is reached from
    [i] and reaches [j]. *)
Theorem print_transitive_reduction_links_spec n prec_nodes i j :
  ((i, j) ∈ print_transitive_reduction_links n prec_nodes <->
   tc (related n prec_nodes) i j /\
   ~ exists m, tc (related n prec_nodes) i m /\
               tc (related n prec_nodes) m j) /\
  NoDup (print_transitive_reduction_links n prec_nodes).
Proof.
  destruct (dynamic_graph_to_matrix_spec n prec_nodes) as [Hsq Hedge].
  pose proof (tc_iff _ _ Hedge) as Htc.
  unfold print_transitive_reduction_links.
  set (g := transitive_reduction n (dynamic_graph_to_matrix n prec_nodes)).
  assert (forall a c, (a, c) ∈
            (a' ← seq 0 n; c' ← seq 0 n; if mat_get g a' c' then [(a', c')] else [])
          <-> mat_get g a c = true) as Hmem.
  { intros a c. rewrite list_elem_of_bind. split.
    - intros (a' & Hin & _). apply list_elem_of_bind in Hin as (c' & Hin & _).
      destruct (mat_get g a' c') eqn:Hg; [|by apply elem_of_nil in Hin].
      apply list_elem_of_singleton in Hin. by injection Hin as -> ->.
    - intros Hg.
      destruct (mat_get_lt n g a c) as [Ha Hc]; [|done|].
      { apply transitive_reduction_cells. done. }
      exists a. split; [|apply elem_of_seq; lia].
      apply list_elem_of_bind. exists c. split; [|apply elem_of_seq; lia].
      rewrite Hg. by apply list_elem_of_singleton. }
  split.
  - rewrite Hmem. fold (edge g i j). unfold g.
    rewrite (transitive_reduction_edge n _ i j Hsq). rewrite Htc.
    split; intros [H1 H2]; (split; [done|]); intros (m & Hm1 & Hm2);
      apply H2; exists m; by rewrite ?Htc in *.
  - apply NoDup_bind.
    + intros a a' [c c'] _ _ Hin Hin'.
      apply list_elem_of_bind in Hin as (x & Hin & _).
      apply list_elem_of_bind in Hin' as (x' & Hin' & _).
      destruct (mat_get g a x); [|by apply elem_of_nil in Hin].
      destruct (mat_get g a' x'); [|by apply elem_of_nil in Hin'].
      apply list_elem_of_singleton in Hin, Hin'. congruence.
    + intros a _. apply NoDup_bind.
      * intros c c' [x x'] _ _ Hin Hin'.
        destruct (mat_get g a c); [|by apply elem_of_nil in Hin].
        destruct (mat_get g a c'); [|by apply elem_of_nil in Hin'].
        apply list_elem_of_singleton in Hin, Hin'. congruence.
      * intros c _. destruct (mat_get g a c); [apply NoDup_singleton|apply NoDup_nil_2].
      * apply NoDup_seq.
    + apply NoDup_seq.
Qed.

Local Open Scope Z_scope.

(** ** Properties of the symbol store *)

Lemma symbol_get_new key loc st :
  symbol_table st !! key = None -> symbols_sorted st = None ->
  nsyms st <> SYMBOL_NUMBER_MAXIMUM ->
  symbol_get key loc st
  = Ok (fresh (dom (heap st))) (with_new_symbol key loc st).
Proof.
  intros Hkey Hsorted Hmax.
  unfold symbol_get, symbol_from_uniqstr, symbol_new, with_new_symbol,
    dash_warning, new_symbol.
  run_monad. rewrite Hkey, Hsorted. run_monad.
  destruct (bool_decide _ && strchr key "-") eqn:Hdash; run_monad.
  - rewrite bool_decide_false by done. run_monad. done.
  - rewrite bool_decide_false by done. run_monad.
    by rewrite app_nil_r; destruct st.
Qed.

Lemma symbol_get_old key loc st p :
  symbol_table st !! key = Some p -> symbol_get key loc st = Ok p st.
Proof.
  intros Hkey. unfold symbol_get, symbol_from_uniqstr. run_monad.
  rewrite Hkey. done.
Qed.

(** X12: for a tag that is not in the table, before the sorted view
    exists and below the symbol limit, [symbol_get] creates a record at a
    free address, with the tag, the location and every other field at its
    initial value, enters it in the table, counts it in [nsyms], and warns
    only about a dash in an unquoted tag; asking for the tag again returns
    the same record and changes nothing. *)
Theorem symbol_get_creates_then_finds key loc loc' st :
  symbol_table st !! key = None -> symbols_sorted st = None ->
  nsyms st <> SYMBOL_NUMBER_MAXIMUM ->
  exists p st',
    symbol_get key loc st = Ok p st' /\
    heap st !! p = None /\
    heap st' = <[p := new_symbol key loc]> (heap st) /\
    symbol_table st' = <[key := p]> (symbol_table st) /\
    nsyms st' = nsyms st + 1 /\
    messages st' = messages st ++ dash_warning key loc /\
    symbol_get key loc' st' = Ok p st'.
Proof.
  intros Hkey Hsorted Hmax. eexists _, _.
  split; [by apply symbol_get_new|].
  split.
  { apply not_elem_of_dom. apply is_fresh. }
  split; [done|]. split; [done|]. split; [done|]. split; [done|].
  apply symbol_get_old. simpl. apply lookup_insert_eq.
Qed.

Lemma symbol_get_new_inv key loc st p st' :
  symbol_table st !! key = None ->
  symbol_get key loc st = Ok p st' ->
  p = fresh (dom (heap st)) /\ st' = with_new_symbol key loc st.
Proof.
  intros Hkey Hrun.
  destruct (symbols_sorted st) as [v|] eqn:Hsorted.
  { exfalso. revert Hrun. unfold symbol_get, symbol_from_uniqstr.
    run_monad. rewrite Hkey, Hsorted. by run_monad. }
  destruct (decide (nsyms st = SYMBOL_NUMBER_MAXIMUM)) as [Hmax|Hmax].
  { exfalso. revert Hrun. unfold symbol_get, symbol_from_uniqstr, symbol_new.
    run_monad. rewrite Hkey, Hsorted. run_monad.
    destruct (bool_decide _ && strchr key "-"); run_monad;
      rewrite bool_decide_true by done; by run_monad. }
  rewrite (symbol_get_new key loc st Hkey Hsorted Hmax) in Hrun.
  by injection Hrun as <- <-.
Qed.

(** X13: [symbol_get] keeps the symbol table consistent with the
    records: every entry still points to a record that carries its tag, so
    no two tags share a record; the record it returns carries the tag asked
    for; and the records and entries that were there are left as they
    were. *)
Theorem symbol_get_keeps_table key loc st p st' :
  table_wf st ->
  symbol_get key loc st = Ok p st' ->
  table_wf st' /\
  symbol_table st' !! key = Some p /\
  (exists s, heap st' !! p = Some s /\ tag s = key) /\
  (forall k1 k2 q, symbol_table st' !! k1 = Some q ->
     symbol_table st' !! k2 = Some q -> k1 = k2) /\
  (forall q s, heap st !! q = Some s -> heap st' !! q = Some s) /\
  (forall k q, symbol_table st !! k = Some q ->
     symbol_table st' !! k = Some q).
Proof.
  intros Hwf Hrun.
  assert (table_wf st' /\ symbol_table st' !! key = Some p /\
          (forall q s, heap st !! q = Some s -> heap st' !! q = Some s) /\
          (forall k q, symbol_table st !! k = Some q ->
             symbol_table st' !! k = Some q)) as (Hwf' & Hkey & Hheap & Htab).
  { destruct (symbol_table st !! key) as [q|] eqn:Hk.
    - rewrite (symbol_get_old key loc st q Hk) in Hrun.
      injection Hrun as <- <-. done.
    - destruct (symbol_get_new_inv key loc st p st' Hk Hrun) as [-> ->].
      pose proof (is_fresh (dom (heap st))) as Hfresh.
      apply not_elem_of_dom in Hfresh. simpl.
      assert (forall q s, heap st !! q = Some s ->
                q <> fresh (dom (heap st))) as Hne by (intros; congruence).
      split; [|split; [apply lookup_insert_eq|split]].
      + intros k q Hq. simpl in Hq |- *.
        destruct (decide (k = key)) as [->|Hnk].
        * rewrite lookup_insert_eq in Hq. injection Hq as <-.
          rewrite lookup_insert_eq. by eexists.
        * rewrite lookup_insert_ne in Hq by done.
          destruct (Hwf k q Hq) as (s & Hs & Ht). exists s. split; [|done].
          rewrite lookup_insert_ne; [done|]. intros Heq. by apply (Hne q s).
      + intros q s Hs. rewrite lookup_insert_ne; [done|].
        intros Heq. by apply (Hne q s).
      + intros k q Hq. rewrite lookup_insert_ne; [done|congruence]. }
  split; [done|]. split; [done|]. split; [by apply Hwf'|].
  split; [|done].
  intros k1 k2 q H1 H2.
  destruct (Hwf' k1 q H1) as (s1 & Hs1 & <-).
  destruct (Hwf' k2 q H2) as (s2 & Hs2 & <-). congruence.
Qed.

(** X14: when [nsyms] has reached [SYMBOL_NUMBER_MAXIMUM], asking
    [symbol_get] for a tag that is not in the table ends the run with the
    fatal diagnostic about the limit; the tag is not entered in the table
    and [nsyms] is not incremented. *)
Theorem symbol_get_too_many_symbols key loc st :
  symbol_table st !! key = None -> symbols_sorted st = None ->
  nsyms st = SYMBOL_NUMBER_MAXIMUM ->
  exists st',
    symbol_get key loc st = Stop fatal_exit st' /\
    last (messages st')
    = Some (mk_diagnostic None fatal None
              "too many symbols in input grammar (limit is %d)"
              [arg_d SYMBOL_NUMBER_MAXIMUM]) /\
    symbol_table st' = symbol_table st /\ nsyms st' = nsyms st.
Proof.
  intros Hkey Hsorted Hmax.
  unfold symbol_get, symbol_from_uniqstr, symbol_new.
  run_monad. rewrite Hkey, Hsorted. run_monad.
  destruct (bool_decide _ && strchr key "-"); run_monad;
    rewrite bool_decide_true by done; run_monad;
    (eexists; split; [reflexivity|]); simpl;
    (split; [by rewrite last_snoc|done]).
Qed.

(** ** Properties of identifiers and generated symbols *)

Lemma memchr_alphanum_excludes c n :
  memchr alphanum c n = true ->
  c <> "-"%char /\ c <> "$"%char /\ c <> "@"%char /\
  c <> dquote /\ c <> squote /\ c <> NUL.
Proof.
  intros Hc.
  assert (c ∈ alphanum) as Hin.
  { unfold memchr in Hc. apply bool_decide_eq_true in Hc.
    by eapply subseteq_take. }
  assert (forall x, x ∈ ["-"%char; "$"%char; "@"%char; dquote; squote; NUL] ->
                    x ∉ alphanum) as Hex.
  { intros x Hx.
    repeat (apply elem_of_cons in Hx as [->|Hx]);
      [..|by apply elem_of_nil in Hx];
      apply (bool_decide_eq_false _); vm_compute; reflexivity. }
  repeat split; intros ->; (eapply Hex; [|exact Hin]); list_mem.
Qed.

Lemma is_identifier_loop_no_dash s :
  is_identifier_loop s = true -> strchr s "-"%char = false.
Proof.
  induction s as [|c r IH]; cbn [is_identifier_loop strchr]; [done|].
  destruct (memchr alphanum c (length alphanum)) eqn:Hc; [|done].
  intros Hr. destruct (memchr_alphanum_excludes c _ Hc) as (Hd & _).
  rewrite decide_False by done. by apply IH.
Qed.

Lemma is_identifier_first s :
  is_identifier (Some s) = true ->
  first_char s <> "$"%char /\ first_char s <> "@"%char /\
  strchr s "-"%char = false.
Proof.
  unfold is_identifier.
  destruct (memchr alphanum (first_char s) _) eqn:Hc; [|done].
  destruct (memchr_alphanum_excludes _ _ Hc) as (Hd & Hdollar & Hat & _ & _ & Hn).
  intros Hl. split; [done|]. split; [done|].
  destruct s as [|c r]; [done|]. cbn [first_char strchr] in *.
  rewrite decide_False by done. by apply is_identifier_loop_no_dash.
Qed.

(** X15: a tag that [is_identifier] accepts holds no dash, so
    [symbol_new] does not warn about it, and it is not the name of a
    generated symbol; the null string and the empty string are not
    identifiers. *)
Theorem is_identifier_plain_name key loc :
  is_identifier None = false /\ is_identifier (Some EmptyString) = false /\
  (is_identifier (Some key) = true ->
   dash_warning key loc = [] /\
   forall s, tag s = key -> symbol_is_dummy s = false).
Proof.
  split; [done|]. split; [by vm_compute|]. intros Hid.
  destruct (is_identifier_first key Hid) as (Hdollar & Hat & Hdash).
  split.
  - unfold dash_warning. rewrite Hdash. by rewrite andb_false_r.
  - intros s <-. unfold symbol_is_dummy.
    rewrite !bool_decide_false by done. done.
Qed.

Lemma string_of_uint_no_dash d :
  strchr (NilEmpty.string_of_uint d) "-"%char = false.
Proof. induction d; simpl; try done. Qed.

Lemma decimal_no_dash n : 0 <= n -> strchr (decimal n) "-"%char = false.
Proof.
  intros Hn. unfold decimal. destruct n as [|p|p]; [done| |lia].
  simpl. apply string_of_uint_no_dash.
Qed.

Lemma decimal_inj a b : decimal a = decimal b -> a = b.
Proof.
  unfold decimal. intros Heq.
  assert (Z.to_int a = Z.to_int b) as Hint.
  { pose proof (NilEmpty.isi (Z.to_int a)) as Ha.
    pose proof (NilEmpty.isi (Z.to_int b)) as Hb.
    rewrite Heq in Ha. congruence. }
  rewrite <- (DecimalZ.of_to a), <- (DecimalZ.of_to b). by rewrite Hint.
Qed.

(** The tag [dummy_symbol_get] writes for the count [n]. *)
Lemma dummy_tag_inj a b :
  String.append "$@" (decimal a) = String.append "$@" (decimal b) -> a = b.
Proof. simpl. intros [= H]. by apply decimal_inj. Qed.

Lemma is_identifier_dollar r :
  is_identifier (Some (String "$"%char r)) = false.
Proof.
  unfold is_identifier. cbn [first_char].
  assert (memchr alphanum "$"%char (length alphanum - 10) = false) as ->
    by (vm_compute; reflexivity).
  done.
Qed.

(** X16: for a count that is not negative, when the tag of the next
    count is not in the table (and a symbol can still be created),
    [dummy_symbol_get] creates the record [$@n] for the incremented count
    [n], makes it a nonterminal numbered [nvars], increments [nvars] and
    [nsyms], and emits no diagnostic; the record is a generated symbol for
    [symbol_is_dummy] and its tag is no identifier; the tags of different
    counts differ. *)
Theorem dummy_symbol_get_creates dummy_count loc st :
  0 <= dummy_count ->
  symbol_table st !! String.append "$@" (decimal (dummy_count + 1)) = None ->
  symbols_sorted st = None -> nsyms st <> SYMBOL_NUMBER_MAXIMUM ->
  exists p st' r,
    dummy_symbol_get dummy_count loc st = Ok (p, dummy_count + 1) st' /\
    heap st !! p = None /\ heap st' !! p = Some r /\
    r = set_number (nvars st)
          (set_class nterm_sym
             (new_symbol (String.append "$@" (decimal (dummy_count + 1)))
                loc)) /\
    symbol_is_dummy r = true /\ is_identifier (Some (tag r)) = false /\
    nvars st' = nvars st + 1 /\ nsyms st' = nsyms st + 1 /\
    messages st' = messages st /\
    symbol_table st' !! tag r = Some p /\
    (forall q s, heap st !! q = Some s -> heap st' !! q = Some s) /\
    (forall n, n <> dummy_count + 1 ->
               String.append "$@" (decimal n) <> tag r).
Proof.
  intros Hcount Hkey Hsorted Hmax.
  pose proof (is_fresh (dom (heap st))) as Hfresh.
  apply not_elem_of_dom in Hfresh.
  unfold dummy_symbol_get.
  rewrite (bind_ok _ _ _ _ _ (symbol_get_new _ loc st Hkey Hsorted Hmax)).
  assert (dash_warning (String.append "$@" (decimal (dummy_count + 1))) loc
          = []) as Hdash.
  { unfold dash_warning.
    change (String.append "$@" (decimal (dummy_count + 1)))
      with (String "$"%char (String "@"%char (decimal (dummy_count + 1)))).
    cbn [strchr]. rewrite !decide_False by done.
    rewrite decimal_no_dash by lia. by rewrite andb_false_r. }
  unfold with_new_symbol. rewrite Hdash, app_nil_r.
  run_monad. rewrite lookup_insert_eq. run_monad. rewrite lookup_insert_eq.
  run_monad. eexists _, _, _. split; [reflexivity|]. simpl.
  split; [done|]. split; [by rewrite lookup_insert_eq|].
  split; [done|]. split; [done|].
  split;
    [exact (is_identifier_dollar (String "@"%char (decimal (dummy_count + 1))))|].
  split; [done|]. split; [done|]. split; [by destruct st|].
  split; [apply lookup_insert_eq|].
  split.
  - intros q s Hs. rewrite !lookup_insert_ne by congruence. done.
  - intros n Hn Heq. apply Hn. by apply dummy_tag_inj.
Qed.

Lemma symbol_make_alias_run st sym str s r loc :
  heap st !! sym = Some s -> heap st !! str = Some r ->
  alias r = None -> alias s = None -> sym <> str ->
  exists st' s' r',
    symbol_make_alias sym str loc st = Ok tt st' /\
    heap st' !! sym = Some s' /\ heap st' !! str = Some r' /\
    tag s' = tag s /\ tag r' = tag r /\
    alias s' = Some str /\ alias r' = Some sym /\
    user_token_number s' = USER_NUMBER_HAS_STRING_ALIAS /\
    user_token_number r' = user_token_number s.
Proof.
  intros Hs Hr Har Has Hne. unfold symbol_make_alias, symbol_type_set.
  run_with2 Hs Hr. rewrite bool_decide_false by tauto. run_with2 Hs Hr.
  rewrite bool_decide_false by tauto. run_with2 Hs Hr.
  destruct (type_name s) eqn:Hty; unfold symbol_redeclaration;
    repeat (progress (run_with2 Hs Hr; rewrite ?Hty; simpl));
    repeat (case_bool_decide;
            repeat (progress (run_with2 Hs Hr; rewrite ?Hty; simpl)));
    (eexists _, _, _; split; [reflexivity|]; simpl;
     rewrite ?lookup_insert_eq; rewrite ?lookup_insert_ne by congruence;
     rewrite ?lookup_insert_eq;
     repeat apply conj; try reflexivity; try done).
Qed.

(** X17: once [symbol_make_alias] has linked a token [sym] and its
    literal string [str], [symbol_id_get] on the string answers with the tag
    of [sym] when that tag is an identifier and with the null string
    otherwise, whereas on [sym] itself, which carries the has-string-alias
    sentinel, it trips its assertion. *)
Theorem symbol_id_get_of_alias_pair st sym str s r loc :
  heap st !! sym = Some s -> heap st !! str = Some r ->
  alias r = None -> alias s = None -> sym <> str ->
  user_token_number s <> USER_NUMBER_HAS_STRING_ALIAS ->
  exists st',
    symbol_make_alias sym str loc st = Ok tt st' /\
    symbol_id_get str st'
    = Ok (if is_identifier (Some (tag s)) then Some (tag s) else None) st' /\
    symbol_id_get sym st' = Stop assertion_failed st'.
Proof.
  intros Hs Hr Har Has Hne Hu.
  destruct (symbol_make_alias_run st sym str s r loc Hs Hr Har Has Hne)
    as (st' & s' & r' & Hrun & Hs' & Hr' & Hts & Htr & Has' & Har' & Hus & Hur).
  exists st'. split; [done|]. unfold symbol_id_get. split.
  - run_with2 Hs' Hr'. rewrite bool_decide_true by congruence.
    run_with2 Hs' Hr'. rewrite Har'. run_with2 Hs' Hr'. by rewrite Hts.
  - run_with2 Hs' Hr'. rewrite bool_decide_false by (intros H; by apply H).
    done.
Qed.

(** ** Properties of the code properties *)

(** X18: [symbol_code_props_set] always installs the new code
    properties for the kind, leaving the other kind and the other fields as
    they were; it emits the two-line redeclaration complaint exactly when a
    code was already there for the kind; and when the new properties hold a
    code, [symbol_code_props_get] then answers with the symbol's own
    properties. *)
Theorem symbol_code_props_set_then_get st sym s k c :
  heap st !! sym = Some s ->
  exists st',
    symbol_code_props_set sym k c st = Ok tt st' /\
    heap st' = <[sym := set_props (props_upd (props s) k c) s]> (heap st) /\
    messages st'
    = messages st ++
      (if decide (code (props s k) = None) then []
       else redeclaration_messages (code_props_type_string k) (tag s)
              (cp_location (props s k)) (cp_location c)) /\
    semantic_type_table st' = semantic_type_table st /\
    (code c <> None ->
     symbol_code_props_get sym k st' = Ok (props_of_symbol sym k) st').
Proof.
  intros Hs. unfold symbol_code_props_set. run_with Hs.
  case_bool_decide as Hc.
  - run_monad. rewrite (symbol_redeclaration_run st sym s _ _ _ Hs).
    run_with Hs. eexists. split; [reflexivity|]. simpl.
    split; [done|]. split; [by rewrite decide_False|]. split; [done|].
    intros Hcode. unfold symbol_code_props_get. run_monad.
    rewrite lookup_insert_eq. simpl. unfold props_upd.
    rewrite decide_True by done. rewrite bool_decide_true by done. done.
  - run_with Hs. eexists. split; [reflexivity|]. simpl.
    split; [done|].
    split; [destruct (decide (code (props s k) = None)); [by rewrite app_nil_r|done]|].
    split; [done|].
    intros Hcode. unfold symbol_code_props_get. run_monad.
    rewrite lookup_insert_eq. simpl. unfold props_upd.
    rewrite decide_True by done. rewrite bool_decide_true by done. done.
Qed.


(** ** Properties of the definition check *)

#[local] Instance same_classes_preorder : PreOrder same_classes.
Proof.
  split.
  - intros st. by repeat split.
  - intros st1 st2 st3 (H1 & H2 & H3 & H4 & H5) (G1 & G2 & G3 & G4 & G5).
    repeat split; try congruence; intros q; by rewrite G5.
Qed.

Lemma same_classes_update st p s f :
  heap st !! p = Some s -> class (f s) = class s -> number (f s) = number s ->
  same_classes st (with_heap (<[p := f s]> (heap st)) st).
Proof.
  intros Hs Hc Hn. repeat split; try done. intros q. simpl.
  destruct (decide (q = p)) as [->|Hne].
  - rewrite lookup_insert_eq, Hs. simpl. by rewrite Hc, Hn.
  - by rewrite lookup_insert_ne.
Qed.

Lemma same_classes_lookup st st' q s :
  same_classes st st' -> heap st !! q = Some s ->
  exists s', heap st' !! q = Some s' /\ class s' = class s /\
             number s' = number s.
Proof.
  intros (_ & _ & _ & _ & Hheap) Hs. specialize (Hheap q). rewrite Hs in Hheap.
  destruct (heap st' !! q) as [s'|]; [|done]. exists s'. split; [done|].
  simpl in Hheap. by injection Hheap as -> ->.
Qed.

Lemma preserves_update_type (R : relation state) t f :
  (forall st tab, R st (with_semantic_type_table tab st)) ->
  preserves R (update_type t f).
Proof.
  intros HR st a st' H. unfold update_type in H.
  destruct (semantic_type_table st !! t); [|done].
  injection H as <- <-. apply HR.
Qed.

Lemma preserves_semantic_type_get (R : relation state) `{!PreOrder R} key loc :
  (forall st tab, R st (with_semantic_type_table tab st)) ->
  preserves R (semantic_type_get key loc).
Proof.
  intros HR. unfold semantic_type_get, semantic_type_from_uniqstr.
  preserves_steps. apply HR.
Qed.

Lemma preserves_mark_used (R : relation state) `{!PreOrder R} c :
  (forall st tab, R st (with_semantic_type_table tab st)) ->
  (forall st v, R st (with_code_props_none v st)) ->
  (forall st p s v, heap st !! p = Some s ->
     R st (with_heap (<[p := set_props v s]> (heap st)) st)) ->
  preserves R (mark_used c).
Proof.
  intros H1 H2 H3. unfold mark_used. destruct c.
  - apply preserves_update. intros st s Hs. by apply H3.
  - by apply preserves_update_type.
  - apply preserves_modify. intros st. apply H2.
Qed.

Lemma preserves_symbol_code_props_get (R : relation state) `{!PreOrder R}
    sym k :
  (forall st tab, R st (with_semantic_type_table tab st)) ->
  preserves R (symbol_code_props_get sym k).
Proof.
  intros HR. unfold symbol_code_props_get.
  preserves_steps; apply HR.
Qed.

(** The part of [symbol_check_defined] after the class has been settled. *)
Lemma check_defined_tail_same_classes sym :
  preserves same_classes
    (for_each [destructor; printer]
       (fun i => let* c := symbol_code_props_get sym i in mark_used c) >>
     let* s := deref sym in
     match type_name s with
     | Some tn =>
         let* sem_type := semantic_type_get tn None in
         update_type sem_type
           (fun r => mk_semantic_type (t_tag r) (t_location r) declared
                       (t_props r))
     | None => ret tt
     end).
Proof.
  unfold mark_used, update_type.
  preserves_steps; try done; try (by apply same_classes_update).
  all: match goal with
       | |- preserves _ ?m =>
           intros ? ? ? Hm;
           unfold update_type in Hm;
           destruct (semantic_type_table _ !! _); [|done];
           by injection Hm as <- <-
       end.
Qed.

Lemma symbol_check_defined_spec st sym s :
  heap st !! sym = Some s ->
  (class s = unknown_sym -> s_status s = declared ->
   symbol_check_defined sym st = Stop assertion_failed st) /\
  (forall st', symbol_check_defined sym st = Ok tt st' ->
     (exists s', heap st' !! sym = Some s' /\
        if decide (class s = unknown_sym) then
          s_status s <> declared /\
          class s' = nterm_sym /\ number s' = nvars st /\
          nvars st' = nvars st + 1 /\
          messages st'
          = messages st ++
            [mk_diagnostic (Some (s_location s))
               (if decide (s_status s = needed) then complaint else Wother)
               None
               "symbol %s is used, but is not defined as a token and has no rules"
               [arg_s (tag s)]]
        else
          class s' = class s /\ number s' = number s /\
          nvars st' = nvars st /\ messages st' = messages st) /\
     (forall q r, q <> sym -> heap st !! q = Some r ->
        exists r', heap st' !! q = Some r' /\ class r' = class r /\
                   number r' = number r) /\
     symbol_table st' = symbol_table st).
Proof.
  intros Hs. split.
  - intros Hc Hd. unfold symbol_check_defined. run_with Hs.
    rewrite bool_decide_true by done. run_monad.
    rewrite bool_decide_false by (intros H; by apply H). done.
  - intros st' Hrun. unfold symbol_check_defined in Hrun.
    apply bind_ok_inv in Hrun as (s0 & st0 & Hd & Hrun).
    apply deref_ok_inv in Hd as [Hs0 ->]. rewrite Hs in Hs0.
    injection Hs0 as <-.
    apply bind_ok_inv in Hrun as ([] & st1 & Hhead & Htail).
    apply (check_defined_tail_same_classes sym) in Htail.
    destruct (decide (class s = unknown_sym)) as [Hc|Hc].
    + rewrite bool_decide_true in Hhead by done.
      destruct (decide (s_status s = declared)) as [Hdecl|Hdecl].
      { exfalso. revert Hhead. run_monad.
        rewrite bool_decide_false by (intros H; by apply H). by run_monad. }
      revert Hhead. run_monad. rewrite bool_decide_true by done.
      run_with Hs.
      assert ((if bool_decide (s_status s = needed) then complaint else Wother)
              <> fatal) as Hnf by (by case_bool_decide).
      rewrite (decide_False (P := _ = fatal)) by done.
      run_with Hs. intros [= <-].
      split.
      * destruct (same_classes_lookup _ _ sym _ Htail
                    ltac:(simpl; apply lookup_insert_eq))
          as (s' & Hs' & Hcs & Hns).
        exists s'. split; [done|]. split; [done|]. simpl in Hcs, Hns.
        split; [done|]. split; [done|].
        destruct Htail as (Hnv & Hmsg & _). simpl in Hnv, Hmsg.
        split; [done|]. rewrite Hmsg. f_equal. f_equal.
        f_equal. by repeat case_bool_decide; repeat case_decide.
      * split.
        -- intros q r Hq Hr.
           apply (same_classes_lookup _ _ q r Htail). simpl.
           by rewrite !lookup_insert_ne.
        -- by destruct Htail as (_ & _ & ? & _).
    + rewrite bool_decide_false in Hhead by done. injection Hhead as <-.
      split.
      * destruct (same_classes_lookup _ _ sym s Htail Hs)
          as (s' & Hs' & Hcs & Hns).
        exists s'. split; [done|]. destruct Htail as (Hnv & Hmsg & _). done.
      * split.
        -- intros q r Hq Hr. by apply (same_classes_lookup _ _ q r Htail).
        -- by destruct Htail as (_ & _ & ? & _).
Qed.

(** X20: [symbol_check_defined] on a symbol without a class: when
    the symbol was declared the assertion trips; otherwise the symbol
    becomes a nonterminal numbered [nvars], [nvars] is incremented, and one
    diagnostic is emitted, a complaint when the symbol was needed and a
    warning otherwise.  On a symbol that has a class it changes neither the
    class, the number, [nvars] nor the diagnostics.  The class and number of
    every other record are kept. *)
Theorem symbol_check_defined_settles_class st sym s :
  heap st !! sym = Some s ->
  (class s = unknown_sym -> s_status s = declared ->
   symbol_check_defined sym st = Stop assertion_failed st) /\
  (forall st', symbol_check_defined sym st = Ok tt st' ->
     (exists s', heap st' !! sym = Some s' /\
        if decide (class s = unknown_sym) then
          s_status s <> declared /\
          class s' = nterm_sym /\ number s' = nvars st /\
          nvars st' = nvars st + 1 /\
          messages st'
          = messages st ++
            [mk_diagnostic (Some (s_location s))
               (if decide (s_status s = needed) then complaint else Wother)
               None
               "symbol %s is used, but is not defined as a token and has no rules"
               [arg_s (tag s)]]
        else
          class s' = class s /\ number s' = number s /\
          nvars st' = nvars st /\ messages st' = messages st) /\
     (forall q r, q <> sym -> heap st !! q = Some r ->
        exists r', heap st' !! q = Some r' /\ class r' = class r /\
                   number r' = number r) /\
     symbol_table st' = symbol_table st).
Proof. apply symbol_check_defined_spec. Qed.

(** ** Properties of the walk over the table *)

Lemma for_each_deref l st :
  for_each l (fun p => deref p >> ret tt) st
  = if decide (Forall (fun p => is_Some (heap st !! p)) l)
    then Ok tt st else Stop invalid_access st.
Proof.
  induction l as [|p l IH]; cbn [for_each].
  - by rewrite decide_True by constructor.
  - unfold bind at 1. unfold bind at 1. unfold deref at 1.
    destruct (heap st !! p) as [s|] eqn:Hp; cbn [ret].
    + rewrite IH. destruct (decide (Forall _ l)) as [Hl|Hl].
      * rewrite decide_True; [done|]. constructor; [by rewrite Hp|done].
      * rewrite decide_False; [done|]. intros H.
        apply Forall_cons in H as [_ H]. done.
    + rewrite decide_False; [done|]. intros H.
      apply Forall_cons in H as [H _]. rewrite Hp in H. by destruct H.
Qed.

(** The first [symbols_do] on a table builds the view sorted by tag and
    runs the processor on its entries, in order. *)
Lemma symbols_do_first processor st st' :
  symbols_sorted st = None ->
  (forall p, preserves same_sorted (processor p)) ->
  symbols_do processor st = Ok tt st' ->
  let view := merge_sort (qsort_le (heap st))
                (map_to_list (symbol_table st)).*2 in
  Forall (fun p => is_Some (heap st !! p))
    (map_to_list (symbol_table st)).*2 /\
  for_each view processor (with_symbols_sorted (Some view) st) = Ok tt st'.
Proof.
  intros Hnone Hproc Hrun view.
  set (st1 := with_symbols_sorted (Some view) st).
  assert (size (symbol_table st1) = length view) as Hsize.
  { unfold view. rewrite merge_sort_Permutation, length_fmap.
    simpl. by rewrite length_map_to_list. }
  rewrite <- (symbols_do_view processor st1 view eq_refl Hsize Hproc).
  unfold symbols_do in Hrun |- *.
  rewrite (bind_ok _ _ _ _ _ (gets_run _ _)) in Hrun.
  rewrite (bind_ok _ _ _ _ _ (gets_run _ _)) in Hrun.
  rewrite Hnone in Hrun.
  rewrite (bind_ok _ _ _ _ _ (gets_run _ _)).
  rewrite (bind_ok _ _ _ _ _ (gets_run _ _)).
  apply bind_ok_inv in Hrun as ([] & st2 & Hbuild & Hrun).
  rewrite (bind_ok _ _ _ _ _ (gets_run _ _)) in Hbuild.
  apply bind_ok_inv in Hbuild as ([] & st3 & Hderef & Hmod).
  rewrite for_each_deref in Hderef.
  destruct (decide (Forall _ _)) as [Hall|]; [|done].
  injection Hderef as <-. injection Hmod as <-.
  split; [done|]. exact Hrun.
Qed.

#[local] Instance classes_kept_preorder : PreOrder classes_kept.
Proof.
  split.
  - intros st. by split.
  - intros st1 st2 st3 [H1 H2] [G1 G2]. split; [congruence|].
    intros q Hq. by apply G2, H2.
Qed.

#[local] Instance same_symbols_preorder : PreOrder same_symbols.
Proof.
  split; [by intros st|].
  intros st1 st2 st3 [H1 H2] [G1 G2]. split; congruence.
Qed.

#[local] Instance qsort_le_total h : Total (qsort_le h).
Proof.
  intros p q. unfold qsort_le, symbols_cmp_qsort, strcmp.
  rewrite (String.compare_antisym (tag_at h p) (tag_at h q)).
  destruct (String.compare (tag_at h q) (tag_at h p)); simpl; lia.
Qed.

Lemma symbol_check_defined_same_sorted p :
  preserves same_sorted (symbol_check_defined p).
Proof.
  unfold symbol_check_defined, symbol_code_props_get, mark_used,
    semantic_type_get, semantic_type_from_uniqstr.
  preserves_steps; try done.
  all: match goal with
       | |- preserves _ ?m =>
           intros ? ? ? Hm; unfold update_type in Hm;
           destruct (semantic_type_table _ !! _); [|done];
           by injection Hm as <- <-
       end.
Qed.

Lemma symbol_check_defined_classes_kept p :
  preserves classes_kept (symbol_check_defined p).
Proof.
  intros st [] st' Hrun.
  destruct (heap st !! p) as [s|] eqn:Hs.
  2:{ exfalso. revert Hrun. unfold symbol_check_defined. run_monad.
      rewrite Hs. by run_monad. }
  destruct (proj2 (symbol_check_defined_spec st p s Hs) st' Hrun)
    as ((s' & Hs' & Hown) & Hother & Htab).
  split; [done|]. intros q (r & Hr & Hc).
  destruct (decide (q = p)) as [->|Hne].
  - exists s'. split; [done|]. rewrite Hs in Hr. injection Hr as <-.
    rewrite decide_False in Hown by done. destruct Hown as (-> & _). done.
  - destruct (Hother q r Hne Hr) as (r' & Hr' & Hc' & _).
    exists r'. split; [done|]. congruence.
Qed.

Lemma symbol_check_defined_classified p st st' :
  symbol_check_defined p st = Ok tt st' -> classified st' p.
Proof.
  intros Hrun.
  destruct (heap st !! p) as [s|] eqn:Hs.
  2:{ exfalso. revert Hrun. unfold symbol_check_defined. run_monad.
      rewrite Hs. by run_monad. }
  destruct (proj2 (symbol_check_defined_spec st p s Hs) st' Hrun)
    as ((s' & Hs' & Hown) & _).
  exists s'. split; [done|].
  destruct (decide (class s = unknown_sym)) as [Hc|Hc].
  - destruct Hown as (_ & -> & _). done.
  - destruct Hown as (-> & _). done.
Qed.

(** What holds for each entry right after its step still holds at the end
    of the loop, when every step keeps it. *)
Lemma for_each_post {A} (R : relation state) `{!PreOrder R}
    (Q : A -> state -> Prop) (f : A -> M unit) (l : list A) : forall st st',
  (forall x, preserves R (f x)) ->
  (forall x st1 st2, f x st1 = Ok tt st2 -> Q x st2) ->
  (forall x st1 st2, R st1 st2 -> Q x st1 -> Q x st2) ->
  for_each l f st = Ok tt st' ->
  R st st' /\ forall x, x ∈ l -> Q x st'.
Proof.
  induction l as [|y l IH]; intros st st' HR Hpost Hmono Hrun; simpl in Hrun.
  - injection Hrun as <-. split; [done|]. intros x Hx. by apply elem_of_nil in Hx.
  - apply bind_ok_inv in Hrun as ([] & st1 & Hy & Hrun).
    destruct (IH st1 st' HR Hpost Hmono Hrun) as [Hrest Hall].
    split; [transitivity st1; [by eapply HR|done]|].
    intros x [->|Hx]%elem_of_cons; [|by apply Hall].
    apply (Hmono _ st1 st'); [done|]. by eapply Hpost.
Qed.

Lemma symbols_do_semantic_types_same_symbols :
  preserves same_symbols
    (symbols_do_semantic_types semantic_type_check_defined).
Proof.
  unfold symbols_do_semantic_types, semantic_type_check_defined.
  preserves_steps; done.
Qed.

(** X21: when [symbols_check_defined] returns from its first
    walk over the table, every symbol of the table is a token or a
    nonterminal, and the table holds the same entries. *)
Theorem symbols_check_defined_classifies st st' :
  symbols_sorted st = None ->
  symbols_check_defined st = Ok tt st' ->
  symbol_table st' = symbol_table st /\
  forall key p, symbol_table st !! key = Some p -> classified st' p.
Proof.
  intros Hnone Hrun. unfold symbols_check_defined in Hrun.
  apply bind_ok_inv in Hrun as ([] & st1 & Hsym & Htypes).
  apply symbols_do_semantic_types_same_symbols in Htypes as [Hh Ht].
  destruct (symbols_do_first _ _ _ Hnone symbol_check_defined_same_sorted Hsym)
    as [_ Hwalk].
  destruct (for_each_post classes_kept (fun p st => classified st p)
              symbol_check_defined _ _ _
              symbol_check_defined_classes_kept
              symbol_check_defined_classified
              ltac:(intros x s1 s2 [_ H]; apply H) Hwalk)
    as [[Htab _] Hall].
  split; [by rewrite Ht, Htab|].
  intros key p Hkey. unfold classified. rewrite Hh. apply Hall.
  rewrite merge_sort_Permutation. apply list_elem_of_fmap.
  exists (key, p). split; [done|]. by apply elem_of_map_to_list.
Qed.

(** X22: the first [symbols_do] on the symbol table builds the
    view of the table sorted by tag, keeps it in [symbols_sorted], and
    runs the processor once on every symbol of the table, in the order of
    the view. *)
Theorem symbols_do_sorted_walk processor st st' :
  symbols_sorted st = None ->
  (forall p, preserves same_sorted (processor p)) ->
  symbols_do processor st = Ok tt st' ->
  exists view,
    view ≡ₚ (map_to_list (symbol_table st)).*2 /\
    Sorted (fun p q => strcmp (tag_at (heap st) p) (tag_at (heap st) q) <= 0)
      view /\
    symbols_sorted st' = Some view /\
    for_each view processor (with_symbols_sorted (Some view) st) = Ok tt st'.
Proof.
  intros Hnone Hproc Hrun.
  destruct (symbols_do_first _ _ _ Hnone Hproc Hrun) as [_ Hwalk].
  exists (merge_sort (qsort_le (heap st)) (map_to_list (symbol_table st)).*2).
  split; [apply merge_sort_Permutation|].
  split; [apply (Sorted_merge_sort (qsort_le (heap st)))|].
  split; [|exact Hwalk].
  apply (preserves_for_each same_sorted _ _ Hproc) in Hwalk. exact Hwalk.
Qed.

(** ** Properties of the token translation *)

(** X23: [user_token_number_redeclaration] complains with two
    diagnostics, the first at the location of the symbol declared later
    and naming it, the second, one level deeper, at the earlier location
    and naming the earlier symbol; when the two locations differ the result
    does not depend on the order in which the two symbols are passed. *)
Theorem user_token_number_redeclaration_order st num a b ra rb :
  heap st !! a = Some ra -> heap st !! b = Some rb ->
  let first := if decide (location_cmp (s_location ra) (s_location rb) > 0)
               then rb else ra in
  let second := if decide (location_cmp (s_location ra) (s_location rb) > 0)
                then ra else rb in
  user_token_number_redeclaration num a b st
  = Ok tt (with_messages
             (messages st ++
              [ mk_diagnostic (Some (s_location second)) complaint
                  (Some 0%nat) "user token number %d redeclaration for %s"
                  [arg_d num; arg_s (tag second)];
                mk_diagnostic (Some (s_location first)) complaint
                  (Some SUB_INDENT) "previous declaration for %s"
                  [arg_s (tag first)] ]) st) /\
  location_cmp (s_location first) (s_location second) <= 0 /\
  (s_location ra <> s_location rb ->
   user_token_number_redeclaration num b a st
   = user_token_number_redeclaration num a b st).
Proof.
  intros Ha Hb first second.
  assert (forall x y rx ry, heap st !! x = Some rx -> heap st !! y = Some ry ->
    user_token_number_redeclaration num x y st
    = Ok tt (with_messages
               (messages st ++
                [ mk_diagnostic
                    (Some (s_location
                       (if decide (location_cmp (s_location rx) (s_location ry) > 0)
                        then rx else ry))) complaint
                    (Some 0%nat) "user token number %d redeclaration for %s"
                    [arg_d num;
                     arg_s (tag
                       (if decide (location_cmp (s_location rx) (s_location ry) > 0)
                        then rx else ry))];
                  mk_diagnostic
                    (Some (s_location
                       (if decide (location_cmp (s_location rx) (s_location ry) > 0)
                        then ry else rx))) complaint
                    (Some SUB_INDENT) "previous declaration for %s"
                    [arg_s (tag
                       (if decide (location_cmp (s_location rx) (s_location ry) > 0)
                        then ry else rx))] ]) st)) as Hrun.
  { intros x y rx ry Hx Hy. unfold user_token_number_redeclaration.
    run_with2 Hx Hy. case_bool_decide as Hcmp.
    - rewrite !decide_True by done. run_with2 Hx Hy. same_state.
    - rewrite !decide_False by done. run_with2 Hx Hy. same_state. }
  split; [apply (Hrun a b ra rb Ha Hb)|]. split.
  - unfold first, second, location_cmp in *. case_decide; lia.
  - intros Hne. rewrite (Hrun a b ra rb Ha Hb), (Hrun b a rb ra Hb Ha).
    unfold location_cmp.
    assert (s_location ra <> s_location rb) as Hne' by done.
    destruct (decide (Z.of_nat (s_location rb) - Z.of_nat (s_location ra) > 0));
      destruct (decide (Z.of_nat (s_location ra) - Z.of_nat (s_location rb) > 0));
      try done; exfalso; unfold location in *; lia.
Qed.

Lemma user_token_number_redeclaration_run st num a b ra rb :
  heap st !! a = Some ra -> heap st !! b = Some rb ->
  user_token_number_redeclaration num a b st
  = Ok tt (with_messages
             (messages st ++
              let first := if decide (location_cmp (s_location ra) (s_location rb) > 0)
                           then rb else ra in
              let second := if decide (location_cmp (s_location ra) (s_location rb) > 0)
                            then ra else rb in
              [ mk_diagnostic (Some (s_location second)) complaint
                  (Some 0%nat) "user token number %d redeclaration for %s"
                  [arg_d num; arg_s (tag second)];
                mk_diagnostic (Some (s_location first)) complaint
                  (Some SUB_INDENT) "previous declaration for %s"
                  [arg_s (tag first)] ]) st).
Proof.
  intros Hx Hy. unfold user_token_number_redeclaration.
  run_with2 Hx Hy. case_bool_decide as Hcmp.
  - rewrite !decide_True by done. run_with2 Hx Hy. same_state.
  - rewrite !decide_False by done. run_with2 Hx Hy. same_state.
Qed.

(** X24: [symbol_translation] touches only tokens that have a
    user number of their own.  For such a token it stores the symbol's
    number in the slot of its user number, which must lie inside
    [token_translations]; it is silent when the slot still holds the number
    of [undeftoken], and otherwise complains about the symbol that held the
    slot and the new one, and the new one takes the slot.  The records and
    [symbols] are never changed. *)
Theorem symbol_translation_takes_slot st st' this t :
  heap st !! this = Some t ->
  symbol_translation this st = Ok tt st' ->
  heap st' = heap st /\ symbols st' = symbols st /\
  if decide (class t = token_sym
             /\ user_token_number t <> USER_NUMBER_HAS_STRING_ALIAS) then
    0 <= user_token_number t < Z.of_nat (length (token_translations st)) /\
    token_translations st'
    = <[Z.to_nat (user_token_number t) := number t]> (token_translations st) /\
    exists cur u us,
      token_translations st !! Z.to_nat (user_token_number t) = Some cur /\
      undeftoken st = Some u /\ heap st !! u = Some us /\
      if decide (cur = number us) then messages st' = messages st
      else exists prev pr,
        symbols st !! Z.to_nat cur = Some (Some prev) /\
        heap st !! prev = Some pr /\
        let later := if decide (location_cmp (s_location pr) (s_location t) > 0)
                     then pr else t in
        let earlier := if decide (location_cmp (s_location pr) (s_location t) > 0)
                       then t else pr in
        messages st'
        = messages st ++
          [ mk_diagnostic (Some (s_location later)) complaint (Some 0%nat)
              "user token number %d redeclaration for %s"
              [arg_d (user_token_number t); arg_s (tag later)];
            mk_diagnostic (Some (s_location earlier)) complaint
              (Some SUB_INDENT) "previous declaration for %s"
              [arg_s (tag earlier)] ]
  else st' = st.
Proof.
  intros Ht. unfold symbol_translation.
  rewrite (bind_ok _ _ st t st) by (unfold deref; by rewrite Ht).
  case_bool_decide as Htok.
  - rewrite decide_True by done.
    intros Hrun. apply bind_ok_inv in Hrun as (cur & st1 & Hload & Hrun).
    unfold token_translations_load in Hload.
    destruct (bool_decide (0 <= user_token_number t)) eqn:Hpos; [|done].
    apply bool_decide_eq_true in Hpos.
    destruct (token_translations st !! Z.to_nat (user_token_number t))
      as [c|] eqn:Hcur; [|done].
    injection Hload as -> <-.
    apply bind_ok_inv in Hrun as (uo & st1 & Hu & Hrun).
    unfold gets in Hu. injection Hu as <- <-.
    apply bind_ok_inv in Hrun as (u & st1 & Hu & Hrun).
    unfold nonnull in Hu. destruct (undeftoken st) as [u'|] eqn:Hundef; [|done].
    injection Hu as -> <-.
    apply bind_ok_inv in Hrun as (us & st1 & Hus & Hrun).
    apply deref_ok_inv in Hus as [Hus ->].
    apply bind_ok_inv in Hrun as ([] & st1 & Hwhen & Hstore).
    assert (heap st1 = heap st /\ symbols st1 = symbols st /\
            token_translations st1 = token_translations st /\
            if decide (cur = number us) then messages st1 = messages st
            else exists prev pr,
              symbols st !! Z.to_nat cur = Some (Some prev) /\
              heap st !! prev = Some pr /\
              messages st1
              = messages st ++
                (let later := if decide (location_cmp (s_location pr) (s_location t) > 0)
                              then pr else t in
                 let earlier := if decide (location_cmp (s_location pr) (s_location t) > 0)
                                then t else pr in
                 [ mk_diagnostic (Some (s_location later)) complaint (Some 0%nat)
                     "user token number %d redeclaration for %s"
                     [arg_d (user_token_number t); arg_s (tag later)];
                   mk_diagnostic (Some (s_location earlier)) complaint
                     (Some SUB_INDENT) "previous declaration for %s"
                     [arg_s (tag earlier)] ])) as (Hh & Hs & Htt & Hm).
    { unfold when in Hwhen. case_bool_decide as Hne.
      - rewrite decide_False by done.
        apply bind_ok_inv in Hwhen as (po & st2 & Hp & Hwhen).
        unfold symbols_load in Hp.
        destruct (bool_decide (0 <= cur)); [|done].
        destruct (symbols st !! Z.to_nat cur) as [po'|] eqn:Hprev; [|done].
        injection Hp as -> <-.
        apply bind_ok_inv in Hwhen as (prev & st2 & Hp & Hwhen).
        unfold nonnull in Hp. destruct po as [prev'|]; [|done].
        injection Hp as -> <-.
        destruct (heap st !! prev) as [pr|] eqn:Hpr.
        + rewrite (user_token_number_redeclaration_run _ _ _ _ pr t Hpr Ht)
            in Hwhen.
          injection Hwhen as <-. repeat split; try done.
          exists prev, pr. by repeat split.
        + unfold user_token_number_redeclaration in Hwhen.
          apply bind_ok_inv in Hwhen as (? & ? & Hd & _).
          apply deref_ok_inv in Hd as [Hd _]. congruence.
      - rewrite decide_True by done.
        unfold ret in Hwhen. by injection Hwhen as <-. }
    unfold token_translations_store in Hstore.
    case_bool_decide as Hin; [|done]. injection Hstore as <-.
    rewrite Htt in Hin. simpl. rewrite Htt.
    split; [done|]. split; [done|]. split; [lia|]. split; [done|].
    exists cur, u, us. split; [done|]. split; [done|]. split; [done|].
    destruct (decide (cur = number us)); [done|].
    destruct Hm as (prev & pr & ? & ? & ?). by exists prev, pr.
  - rewrite decide_False by done. unfold ret. by intros [= <-].
Qed.

(** ** Properties of the warnings for unused precedence and associativity *)

(** A loop whose body only appends diagnostics appends them in the order of
    the iterations. *)
Lemma for_each_messages {A} (l : list A) (body : A -> M unit)
    (w : A -> list diagnostic) st :
  (forall x msgs st2, x ∈ l ->
     body x (with_messages msgs st) = Ok tt st2 ->
     st2 = with_messages (msgs ++ w x) st) ->
  forall msgs st',
    for_each l body (with_messages msgs st) = Ok tt st' ->
    st' = with_messages (msgs ++ concat (w <$> l)) st.
Proof.
  induction l as [|x l IH]; intros Hbody msgs st'.
  - cbn [for_each]. unfold ret. intros [= <-]. by rewrite app_nil_r.
  - cbn [for_each]. intros Hrun.
    apply bind_ok_inv in Hrun as ([] & st1 & Hx & Hrun).
    apply Hbody in Hx; [|by apply list_elem_of_here]. subst st1.
    apply IH in Hrun.
    + rewrite Hrun. cbn [fmap list_fmap concat]. by rewrite app_assoc.
    + intros y msgs' st2 Hy. apply Hbody. by apply list_elem_of_further.
Qed.

Lemma with_messages_same st : with_messages (messages st) st = st.
Proof. by destruct st. Qed.

Lemma elem_of_upto i n : i ∈ upto n -> 0 <= i < n.
Proof.
  unfold upto. intros Hi. apply list_elem_of_fmap in Hi as (k & -> & Hk).
  apply elem_of_seq in Hk. lia.
Qed.

(** X25: after [register_precedence (a, b)],
    [print_precedence_warnings] keeps the graph and changes nothing but the
    diagnostics: walking the slots of [symbols] in order it adds at most one
    warning for each, none for the slots [a] and [b] whose precedence has
    just been used, and for any other symbol exactly when its precedence is
    set, its associativity is [precedence_assoc] and its node has neither a
    predecessor nor a successor. *)
Theorem print_precedence_warnings_after_register
    n prec_nodes a b nodes st nodes' st' :
  prec_wf (nodes_of n prec_nodes) ->
  register_precedence n prec_nodes a b = Some nodes ->
  print_precedence_warnings (Some nodes) st = Ok nodes' st' ->
  nodes' = nodes /\
  exists w : Z -> list diagnostic,
    st' = with_messages (messages st ++ concat (w <$> upto (nsyms st))) st /\
    w a = [] /\ w b = [] /\
    (forall i, 0 <= i -> symbols st !! Z.to_nat i = Some None -> w i = []) /\
    (forall i p r node,
       0 <= i -> symbols st !! Z.to_nat i = Some (Some p) ->
       heap st !! p = Some r -> node_at nodes i = Some node ->
       w i = if decide (prec r <> 0 /\ s_assoc r = precedence_assoc /\
                        pred node = [] /\ succ node = [])
             then [mk_diagnostic (Some (s_location r)) Wprecedence None
                     "useless precedence for %s" [arg_s (tag r)]]
             else []).
Proof.
  intros Hwf Hreg Hrun.
  set (w := fun i : Z =>
    match symbols st !! Z.to_nat i with
    | Some (Some p) =>
        match heap st !! p, node_at nodes i with
        | Some r, Some node =>
            if decide (prec r <> 0 /\ s_assoc r = precedence_assoc /\
                       pred node = [] /\ succ node = [])
            then [mk_diagnostic (Some (s_location r)) Wprecedence None
                    "useless precedence for %s" [arg_s (tag r)]]
            else []
        | _, _ => []
        end
    | _ => []
    end).
  unfold print_precedence_warnings in Hrun.
  apply bind_ok_inv in Hrun as (n' & st1 & Hn & Hrun).
  unfold gets in Hn. injection Hn as <- <-.
  apply bind_ok_inv in Hrun as ([] & st1 & Hloop & Hret).
  unfold ret in Hret. injection Hret as <- <-.
  split; [done|]. exists w.
  destruct (register_precedence_spec _ _ _ _ _ Hwf Hreg)
    as (_ & _ & Hnodes & _).
  destruct (register_precedence_nodes _ _ _ _ _ Hreg)
    as (f & s & Ha0 & Hb0 & Hf & Hs & _ & Hlook).
  split; [|split; [|split; [|split]]].
  - rewrite <- (with_messages_same st) in Hloop.
    apply (for_each_messages _ _ w) in Hloop; [done|].
    intros i msgs st2 Hi Hbody. apply elem_of_upto in Hi.
    apply bind_ok_inv in Hbody as (po & st3 & Hp & Hbody).
    unfold symbols_load in Hp. rewrite bool_decide_eq_true_2 in Hp by lia.
    simpl in Hp. unfold w.
    destruct (symbols st !! Z.to_nat i) as [po'|]; [|done].
    injection Hp as -> <-.
    destruct po as [p|]; [|unfold ret in Hbody; injection Hbody as <-;
                           by rewrite app_nil_r].
    apply bind_ok_inv in Hbody as (r & st3 & Hr & Hbody).
    apply deref_ok_inv in Hr as [Hr ->]. simpl in Hr. rewrite Hr.
    case_bool_decide as Hprec.
    + apply bind_ok_inv in Hbody as (node & st3 & Hnode & Hbody).
      unfold nonnull in Hnode.
      destruct (node_at nodes i) as [node'|]; [|done].
      unfold ret in Hnode. injection Hnode as -> <-.
      unfold when in Hbody.
      destruct (decide (prec r <> 0 /\ s_assoc r = precedence_assoc /\
                        pred node = [] /\ succ node = []))
        as [(_ & Has & Hpr & Hsu)|Hno].
      * rewrite !bool_decide_eq_true_2 in Hbody by done.
        simpl in Hbody. unfold complain in Hbody. run_monad.
        simpl in Hbody. by injection Hbody as <-.
      * assert (bool_decide (pred node = []) && bool_decide (succ node = [])
                && bool_decide (s_assoc r = precedence_assoc) = false) as Hf'.
        { apply not_true_is_false. intros Htrue.
          apply andb_prop in Htrue as [Htrue H3].
          apply andb_prop in Htrue as [H1 H2].
          apply bool_decide_eq_true in H1, H2, H3. by apply Hno. }
        rewrite Hf' in Hbody. unfold ret in Hbody. injection Hbody as <-.
        by rewrite app_nil_r.
    + unfold ret in Hbody. injection Hbody as <-.
      assert (forall x : list diagnostic,
        match node_at nodes i with
        | Some node =>
            if decide (prec r <> 0 /\ s_assoc r = precedence_assoc /\
                       pred node = [] /\ succ node = [])
            then x else []
        | None => []
        end = []) as ->; [|by rewrite app_nil_r].
      intros x. destruct (node_at nodes i); [|done].
      rewrite decide_False; [done|]. intros [H _]. by apply H.
  - unfold w. destruct (symbols st !! Z.to_nat a) as [[p|]|]; [|done|done].
    destruct (heap st !! p); [|done].
    unfold node_at. rewrite bool_decide_eq_true_2 by done.
    destruct (nodes !! Z.to_nat a) as [node|] eqn:Hna; [|done].
    destruct (Hnodes _ _ Hna) as (? & _ & _ & _ & _ & Hsucc & _).
    rewrite decide_False; [done|]. intros (_ & _ & _ & Hnil).
    assert (b ∈ succ node) as Hin.
    { apply Hsucc. right. split; [lia|done]. }
    rewrite Hnil in Hin. by apply not_elem_of_nil in Hin.
  - unfold w. destruct (symbols st !! Z.to_nat b) as [[p|]|]; [|done|done].
    destruct (heap st !! p); [|done].
    unfold node_at. rewrite bool_decide_eq_true_2 by done.
    destruct (nodes !! Z.to_nat b) as [node|] eqn:Hnb; [|done].
    destruct (Hnodes _ _ Hnb) as (? & _ & _ & _ & _ & _ & Hpred).
    rewrite decide_False; [done|]. intros (_ & _ & Hnil & _).
    assert (a ∈ pred node) as Hin.
    { apply Hpred. right. split; [lia|done]. }
    rewrite Hnil in Hin. by apply not_elem_of_nil in Hin.
  - intros i _ Hi. unfold w. by rewrite Hi.
  - intros i p r node _ Hi Hr Hnode. unfold w. by rewrite Hi, Hr, Hnode.
Qed.

Lemma register_assoc_used n used_assoc i j used :
  register_assoc n used_assoc i j = Some used ->
  used_at used i = Some true /\ used_at used j = Some true /\
  forall k, used_at used k
            = if decide (k = i \/ k = j) then Some true
              else used_at (match used_assoc with
                            | Some l => l
                            | None => init_assoc n
                            end) k.
Proof.
  unfold register_assoc.
  set (used0 := match used_assoc with Some l => l | None => init_assoc n end).
  intros Hreg. unfold used_at in Hreg.
  destruct (bool_decide (0 <= i)) eqn:Hi; [|done].
  apply bool_decide_eq_true in Hi.
  destruct (used0 !! Z.to_nat i) as [ui|] eqn:Hui; [|done]. simpl in Hreg.
  destruct (bool_decide (0 <= j)) eqn:Hj; [|done].
  apply bool_decide_eq_true in Hj.
  destruct (<[Z.to_nat i:=true]> used0 !! Z.to_nat j) as [uj|] eqn:Huj; [|done].
  simpl in Hreg. injection Hreg as <-. unfold used_at.
  apply lookup_lt_Some in Hui. pose proof (lookup_lt_Some _ _ _ Huj) as Hlj.
  rewrite length_insert in Hlj.
  assert (forall k, (if bool_decide (0 <= k)
                     then <[Z.to_nat j:=true]> (<[Z.to_nat i:=true]> used0)
                          !! Z.to_nat k
                     else None)
                    = if decide (k = i \/ k = j) then Some true
                      else if bool_decide (0 <= k) then used0 !! Z.to_nat k
                           else None) as Hall.
  { intros k. case_bool_decide as Hk.
    - destruct (decide (k = i \/ k = j)) as [[-> | ->]|Hne].
      + destruct (decide (Z.to_nat j = Z.to_nat i)) as [->|Hji].
        * by rewrite list_lookup_insert_eq by (by rewrite length_insert).
        * rewrite list_lookup_insert_ne by done.
          by rewrite list_lookup_insert_eq.
      + by rewrite list_lookup_insert_eq by (by rewrite length_insert).
      + rewrite !list_lookup_insert_ne by lia. done.
    - rewrite decide_False; [done|]. lia. }
  split; [|split; [|done]].
  - rewrite Hall. by rewrite decide_True by (by left).
  - rewrite Hall. by rewrite decide_True by (by right).
Qed.

(** X26: [register_assoc (i, j)] marks the numbers [i] and [j] as
    used and leaves every other mark as it was.  After it,
    [print_assoc_warnings] changes nothing but the diagnostics: walking the
    slots of [symbols] in order, it is silent for an empty slot, for a
    symbol numbered [i] or [j] and for a symbol whose associativity is
    undefined or [precedence_assoc], and it warns once for any other symbol
    whose number is not marked. *)
Theorem print_assoc_warnings_after_register n used_assoc i j used st used' st' :
  register_assoc n used_assoc i j = Some used ->
  print_assoc_warnings (Some used) st = Ok used' st' ->
  used' = used /\
  (forall k, k <> i -> k <> j ->
     used_at used k = used_at (match used_assoc with
                               | Some l => l
                               | None => init_assoc n
                               end) k) /\
  exists w : Z -> list diagnostic,
    st' = with_messages (messages st ++ concat (w <$> upto (nsyms st))) st /\
    (forall k, 0 <= k -> symbols st !! Z.to_nat k = Some None -> w k = []) /\
    (forall k p r,
       0 <= k -> symbols st !! Z.to_nat k = Some (Some p) ->
       heap st !! p = Some r ->
       (number r = i \/ number r = j \/
        s_assoc r = undef_assoc \/ s_assoc r = precedence_assoc -> w k = []) /\
       (s_assoc r <> undef_assoc -> s_assoc r <> precedence_assoc ->
        used_at used (number r) = Some false ->
        w k = [mk_diagnostic (Some (s_location r)) Wprecedence None
                 "useless associativity for %s" [arg_s (tag r)]])).
Proof.
  intros Hreg Hrun.
  destruct (register_assoc_used _ _ _ _ _ Hreg) as (Hi & Hj & Hall).
  set (w := fun k : Z =>
    match symbols st !! Z.to_nat k with
    | Some (Some p) =>
        match heap st !! p with
        | Some r =>
            match is_assoc_useless used (Some r) with
            | Some true =>
                [mk_diagnostic (Some (s_location r)) Wprecedence None
                   "useless associativity for %s" [arg_s (tag r)]]
            | _ => []
            end
        | None => []
        end
    | _ => []
    end).
  unfold print_assoc_warnings in Hrun.
  apply bind_ok_inv in Hrun as (n' & st1 & Hn & Hrun).
  unfold gets in Hn. injection Hn as <- <-.
  apply bind_ok_inv in Hrun as ([] & st1 & Hloop & Hret).
  unfold ret in Hret. injection Hret as <- <-.
  split; [done|]. split.
  { intros k Hki Hkj. rewrite Hall. rewrite decide_False; [done|].
    by intros [?|?]. }
  exists w. split; [|split].
  - rewrite <- (with_messages_same st) in Hloop.
    apply (for_each_messages _ _ w) in Hloop; [done|].
    intros k msgs st2 Hk Hbody. apply elem_of_upto in Hk.
    apply bind_ok_inv in Hbody as (po & st3 & Hp & Hbody).
    unfold symbols_load in Hp. rewrite bool_decide_eq_true_2 in Hp by lia.
    simpl in Hp. unfold w.
    destruct (symbols st !! Z.to_nat k) as [po'|]; [|done].
    injection Hp as -> <-.
    destruct po as [p|].
    + apply bind_ok_inv in Hbody as (ro & st3 & Hr & Hbody).
      apply bind_ok_inv in Hr as (r & st4 & Hr & Hret).
      apply deref_ok_inv in Hr as [Hr ->]. simpl in Hr. rewrite Hr.
      unfold ret in Hret. injection Hret as <- <-.
      apply bind_ok_inv in Hbody as (useless & st3 & Hu & Hbody).
      unfold nonnull in Hu.
      destruct (is_assoc_useless used (Some r)) as [u|]; [|done].
      unfold ret in Hu. injection Hu as -> <-.
      destruct useless.
      * unfold when, complain in Hbody. run_monad. simpl in Hbody.
        by injection Hbody as <-.
      * unfold when, ret in Hbody. injection Hbody as <-.
        by rewrite app_nil_r.
    + apply bind_ok_inv in Hbody as (ro & st3 & Hr & Hbody).
      unfold ret in Hr. injection Hr as <- <-.
      apply bind_ok_inv in Hbody as (useless & st3 & Hu & Hbody).
      unfold ret in Hbody. injection Hbody as <-. simpl in Hu.
      unfold ret in Hu. injection Hu as _ <-. by rewrite app_nil_r.
  - intros k _ Hk. unfold w. by rewrite Hk.
  - intros k p r _ Hk Hr. unfold w. rewrite Hk, Hr.
    unfold is_assoc_useless. split.
    + intros [Hnum|[Hnum|[Has|Has]]].
      * rewrite Hnum, Hi. simpl. by destruct (_ && _).
      * rewrite Hnum, Hj. simpl. by destruct (_ && _).
      * rewrite Has. by rewrite bool_decide_eq_false_2 by (intros H; by apply H).
      * rewrite Has. rewrite (bool_decide_eq_false_2 (_ <> precedence_assoc))
          by (intros H; by apply H).
        by rewrite andb_false_r.
    + intros H1 H2 Hu. rewrite !bool_decide_eq_true_2 by done. simpl.
      by rewrite Hu.
Qed.

(** ** Properties of the alias consistency check *)

(** What each setter does to the record it is called on; every other record
    is left alone. *)
Lemma symbol_type_set_effect st p x ty loc :
  heap st !! p = Some x ->
  exists st' x',
    symbol_type_set p (Some ty) loc st = Ok tt st' /\
    heap st' = <[p := x']> (heap st) /\
    type_name x' = Some ty /\ props x' = props x /\
    prec x' = prec x /\ s_assoc x' = s_assoc x.
Proof.
  intros Hx. unfold symbol_type_set, symbol_redeclaration.
  case_eq (bool_decide (type_name x <> None)); intros Hb;
    run_with Hx; rewrite Hb; run_with Hx;
    eexists _, _; (split; [reflexivity|]); simpl;
    rewrite ?insert_insert_eq; by repeat split.
Qed.

Lemma symbol_code_props_set_effect st p x k c :
  heap st !! p = Some x ->
  exists st' x',
    symbol_code_props_set p k c st = Ok tt st' /\
    heap st' = <[p := x']> (heap st) /\
    type_name x' = type_name x /\ props x' = props_upd (props x) k c /\
    prec x' = prec x /\ s_assoc x' = s_assoc x.
Proof.
  intros Hx. unfold symbol_code_props_set, symbol_redeclaration.
  case_eq (bool_decide (code (props x k) <> None)); intros Hb;
    run_with Hx; rewrite Hb; run_with Hx;
    eexists _, _; (split; [reflexivity|]); simpl;
    rewrite ?insert_insert_eq; by repeat split.
Qed.

Lemma symbol_class_set_token_effect st p x loc :
  heap st !! p = Some x ->
  exists st' x',
    symbol_class_set p token_sym loc false st = Ok tt st' /\
    heap st' = <[p := x']> (heap st) /\
    type_name x' = type_name x /\ props x' = props x /\
    prec x' = prec x /\ s_assoc x' = s_assoc x.
Proof.
  intros Hx. unfold symbol_class_set.
  run_with Hx; repeat (case_bool_decide; run_with Hx);
    (eexists _, _; split; [reflexivity|]; simpl;
     rewrite ?insert_insert_eq; by repeat split).
Qed.

Lemma symbol_precedence_set_effect st p x pr a loc :
  heap st !! p = Some x ->
  exists st' x',
    symbol_precedence_set p pr a loc st = Ok tt st' /\
    heap st' = <[p := x']> (heap st) /\
    type_name x' = type_name x /\ props x' = props x /\
    (a <> undef_assoc -> prec x' = pr /\ s_assoc x' = a) /\
    (a = undef_assoc -> prec x' = prec x /\ s_assoc x' = s_assoc x).
Proof.
  intros Hx. unfold symbol_precedence_set.
  destruct (decide (a <> undef_assoc)) as [Ha|Ha].
  - rewrite bool_decide_eq_true_2 by done.
    assert (exists st1 x1,
      (let* s := deref p in
       when (bool_decide (prec s <> 0))
         (symbol_redeclaration p (assoc_to_string a) (prec_location s) loc) >>
       update p (set_prec pr) >> update p (set_assoc a) >>
       update p (set_prec_location loc)) st = Ok tt st1 /\
      heap st1 = <[p := x1]> (heap st) /\
      type_name x1 = type_name x /\ props x1 = props x /\
      prec x1 = pr /\ s_assoc x1 = a) as (st1 & x1 & Hrun & Hh & ? & ? & ? & ?).
    { unfold symbol_redeclaration.
      case_eq (bool_decide (prec x <> 0)); intros Hb;
        run_with Hx; rewrite Hb; run_with Hx;
        eexists _, _; (split; [reflexivity|]); simpl;
        rewrite ?insert_insert_eq; by repeat split. }
    rewrite (bind_ok _ _ _ _ _ Hrun).
    destruct (symbol_class_set_token_effect st1 p x1 loc)
      as (st' & x' & Hrun' & Hh' & ? & ? & ? & ?).
    { by rewrite Hh, lookup_insert_eq. }
    exists st', x'. split; [done|]. split.
    { by rewrite Hh', Hh, insert_insert_eq. }
    repeat split; congruence.
  - apply dec_stable in Ha. subst a.
    rewrite bool_decide_eq_false_2 by (intros H; by apply H).
    rewrite (bind_ok _ _ st tt st) by done.
    destruct (symbol_class_set_token_effect st p x loc)
      as (st' & x' & Hrun' & Hh' & ? & ? & ? & ?).
    { done. }
    exists st', x'. repeat split; try done.
Qed.

(** A write to one record as seen through a field it keeps, and through a
    field it copies from another record. *)
Lemma field_kept {F} (f : symbol -> F) (h : gmap nat symbol) p x x' q :
  h !! p = Some x -> f x' = f x ->
  f <$> (<[p := x']> h !! q) = f <$> (h !! q).
Proof.
  intros Hp Hf. rewrite lookup_insert. case_decide as Hpq; [|done].
  subst q. rewrite Hp. simpl. by rewrite Hf.
Qed.

Lemma field_copied {F} (f : symbol -> F) (h : gmap nat symbol) p x' q r :
  h !! q = Some r -> f x' = f r ->
  f <$> (<[p := x']> h !! p) = f <$> (<[p := x']> h !! q).
Proof.
  intros Hq Hf. rewrite lookup_insert_eq, lookup_insert.
  case_decide; [done|]. rewrite Hq. simpl. by rewrite Hf.
Qed.

Lemma pair_after_write (h h' : gmap nat symbol) sym str s r p x' :
  h !! sym = Some s -> h !! str = Some r -> h' = <[p := x']> h ->
  exists s1 r1,
    h' !! sym = Some s1 /\ h' !! str = Some r1 /\
    ((s1 = x' /\ sym = p) \/ (s1 = s /\ sym <> p)) /\
    ((r1 = x' /\ str = p) \/ (r1 = r /\ str <> p)).
Proof.
  intros Hs Hr ->. rewrite !lookup_insert.
  exists (if decide (p = sym) then x' else s),
         (if decide (p = str) then x' else r).
  split; [by destruct (decide (p = sym))|].
  split; [by destruct (decide (p = str))|].
  split; case_decide; first [by left | by right; split; [|congruence]].
Qed.

Lemma alias_type_phase st sym str s r :
  heap st !! sym = Some s -> heap st !! str = Some r ->
  exists st1 s1 r1,
    (let* r := deref str in
     let* s := deref sym in
     if bool_decide (type_name r <> type_name s) then
       match type_name r with
       | Some _ => symbol_type_set sym (type_name r) (type_location r)
       | None => symbol_type_set str (type_name s) (type_location s)
       end
     else ret tt) st = Ok tt st1 /\
    heap st1 !! sym = Some s1 /\ heap st1 !! str = Some r1 /\
    type_name s1 = type_name r1 /\
    props s1 = props s /\ props r1 = props r /\
    prec s1 = prec s /\ s_assoc s1 = s_assoc s /\
    prec r1 = prec r /\ s_assoc r1 = s_assoc r.
Proof.
  intros Hs Hr.
  rewrite (bind_ok _ _ st r st) by (unfold deref; by rewrite Hr).
  rewrite (bind_ok _ _ st s st) by (unfold deref; by rewrite Hs).
  case_bool_decide as Hne.
  - destruct (type_name r) as [ty|] eqn:Hty.
    + destruct (symbol_type_set_effect st sym s ty (type_location r) Hs)
        as (st1 & x' & Hrun & Hh & ? & ? & ? & ?).
      destruct (pair_after_write _ _ _ _ _ _ _ _ Hs Hr Hh)
        as (s1 & r1 & Hs1 & Hr1 & [[-> _]|[_ ?]] & [[-> E]|[-> _]]);
        try done; exists st1; eexists _, _;
        (split; [exact Hrun|]); (split; [exact Hs1|]); (split; [exact Hr1|]).
      * subst str. assert (r = s) as -> by congruence.
        repeat split; congruence.
      * repeat split; congruence.
    + destruct (type_name s) as [ty|] eqn:Hty'; [|done].
      destruct (symbol_type_set_effect st str r ty (type_location s) Hr)
        as (st1 & x' & Hrun & Hh & ? & ? & ? & ?).
      destruct (pair_after_write _ _ _ _ _ _ _ _ Hs Hr Hh)
        as (s1 & r1 & Hs1 & Hr1 & [[-> E]|[-> _]] & [[-> _]|[_ ?]]);
        try done; exists st1; eexists _, _;
        (split; [exact Hrun|]); (split; [exact Hs1|]); (split; [exact Hr1|]).
      * subst str. assert (r = s) as -> by congruence.
        repeat split; congruence.
      * repeat split; congruence.
  - exists st, s, r. by repeat split.
Qed.

Lemma alias_props_phase st sym str s r k :
  heap st !! sym = Some s -> heap st !! str = Some r ->
  exists st1 s1 r1,
    (let* r := deref str in
     if bool_decide (code (props r k) <> None) then
       symbol_code_props_set sym k (props r k)
     else
       let* s := deref sym in
       if bool_decide (code (props s k) <> None) then
         symbol_code_props_set str k (props s k)
       else ret tt) st = Ok tt st1 /\
    heap st1 !! sym = Some s1 /\ heap st1 !! str = Some r1 /\
    type_name s1 = type_name s /\ type_name r1 = type_name r /\
    code (props s1 k) = code (props r1 k) /\
    (forall k', k' <> k -> props s1 k' = props s k' /\ props r1 k' = props r k') /\
    prec s1 = prec s /\ s_assoc s1 = s_assoc s /\
    prec r1 = prec r /\ s_assoc r1 = s_assoc r.
Proof.
  intros Hs Hr.
  rewrite (bind_ok _ _ st r st) by (unfold deref; by rewrite Hr).
  assert (forall (f : code_props_type -> code_props) c k',
            k' <> k -> props_upd f k c k' = f k') as Hupd_ne.
  { intros f c k' Hk. unfold props_upd. by rewrite decide_False. }
  assert (forall (f : code_props_type -> code_props) c,
            props_upd f k c k = c) as Hupd_eq.
  { intros f c. unfold props_upd. by rewrite decide_True. }
  case_bool_decide as Hrc.
  - destruct (symbol_code_props_set_effect st sym s k (props r k) Hs)
      as (st1 & x' & Hrun & Hh & ? & Hp & ? & ?).
    destruct (pair_after_write _ _ _ _ _ _ _ _ Hs Hr Hh)
      as (s1 & r1 & Hs1 & Hr1 & [[-> _]|[_ ?]] & [[-> E]|[-> _]]);
      try done; exists st1; eexists _, _;
      (split; [exact Hrun|]); (split; [exact Hs1|]); (split; [exact Hr1|]).
    + subst str. assert (r = s) as -> by congruence.
      repeat split; try congruence; rewrite Hp;
        rewrite ?Hupd_eq; rewrite ?Hupd_ne by done; congruence.
    + repeat split; try congruence; rewrite Hp;
        rewrite ?Hupd_eq; rewrite ?Hupd_ne by done; congruence.
  - rewrite (bind_ok _ _ st s st) by (unfold deref; by rewrite Hs).
    case_bool_decide as Hsc.
    + destruct (symbol_code_props_set_effect st str r k (props s k) Hr)
        as (st1 & x' & Hrun & Hh & ? & Hp & ? & ?).
      destruct (pair_after_write _ _ _ _ _ _ _ _ Hs Hr Hh)
        as (s1 & r1 & Hs1 & Hr1 & [[-> E]|[-> _]] & [[-> _]|[_ ?]]);
        try done; exists st1; eexists _, _;
        (split; [exact Hrun|]); (split; [exact Hs1|]); (split; [exact Hr1|]).
      * subst str. assert (r = s) as -> by congruence.
        repeat split; try congruence; rewrite Hp;
          rewrite ?Hupd_eq; rewrite ?Hupd_ne by done; congruence.
      * repeat split; try congruence; rewrite Hp;
          rewrite ?Hupd_eq; rewrite ?Hupd_ne by done; congruence.
    + exists st, s, r.
      repeat split; try done. congruence.
Qed.

Lemma alias_prec_phase st sym str s r :
  heap st !! sym = Some s -> heap st !! str = Some r ->
  exists st1 s1 r1,
    (let* s := deref sym in
     let* r := deref str in
     if bool_decide (prec s <> 0 \/ prec r <> 0) then
       if bool_decide (prec r <> 0) then
         symbol_precedence_set sym (prec r) (s_assoc r) (prec_location r)
       else
         symbol_precedence_set str (prec s) (s_assoc s) (prec_location s)
     else ret tt) st = Ok tt st1 /\
    heap st1 !! sym = Some s1 /\ heap st1 !! str = Some r1 /\
    type_name s1 = type_name s /\ type_name r1 = type_name r /\
    props s1 = props s /\ props r1 = props r /\
    ((prec s = 0 <-> s_assoc s = undef_assoc) ->
     (prec r = 0 <-> s_assoc r = undef_assoc) ->
     prec s1 = prec r1 /\ s_assoc s1 = s_assoc r1).
Proof.
  intros Hs Hr.
  rewrite (bind_ok _ _ st s st) by (unfold deref; by rewrite Hs).
  rewrite (bind_ok _ _ st r st) by (unfold deref; by rewrite Hr).
  case_bool_decide as Hany.
  - case_bool_decide as Hrp.
    + destruct (symbol_precedence_set_effect st sym s (prec r) (s_assoc r)
                  (prec_location r) Hs)
        as (st1 & x' & Hrun & Hh & ? & ? & Hset & _).
      destruct (pair_after_write _ _ _ _ _ _ _ _ Hs Hr Hh)
        as (s1 & r1 & Hs1 & Hr1 & [[-> _]|[_ ?]] & [[-> E]|[-> _]]);
        try done; exists st1; eexists _, _;
        (split; [exact Hrun|]); (split; [exact Hs1|]); (split; [exact Hr1|]).
      * subst str. assert (r = s) as -> by congruence.
        repeat split; congruence.
      * do 4 (split; [congruence|]). intros Hsi Hri.
        assert (s_assoc r <> undef_assoc) as Hra
          by (intros E; apply Hrp; tauto).
        destruct (Hset Hra) as [? ?]. split; congruence.
    + assert (prec r = 0) as Hr0 by done.
      assert (prec s <> 0) as Hsp by (destruct Hany; [done|lia]).
      destruct (symbol_precedence_set_effect st str r (prec s) (s_assoc s)
                  (prec_location s) Hr)
        as (st1 & x' & Hrun & Hh & ? & ? & Hset & _).
      destruct (pair_after_write _ _ _ _ _ _ _ _ Hs Hr Hh)
        as (s1 & r1 & Hs1 & Hr1 & [[-> E]|[-> _]] & [[-> _]|[_ ?]]);
        try done; exists st1; eexists _, _;
        (split; [exact Hrun|]); (split; [exact Hs1|]); (split; [exact Hr1|]).
      * subst str. assert (r = s) as -> by congruence.
        repeat split; congruence.
      * do 4 (split; [congruence|]). intros Hsi Hri.
        assert (s_assoc s <> undef_assoc) as Hsa
          by (intros E; apply Hsp; tauto).
        destruct (Hset Hsa) as [? ?]. split; congruence.
  - assert (prec s = 0 /\ prec r = 0) as [Hs0 Hr0].
    { split; apply dec_stable; intros H; apply Hany; tauto. }
    exists st, s, r. do 7 (split; [done|]). intros Hsi Hri.
    split; [congruence|].
    destruct Hsi as [Hsi _]. destruct Hri as [Hri _].
    by rewrite Hsi, Hri.
Qed.

(** X27: [symbol_check_alias_consistency] does nothing on a symbol that is
    not the identifier side of a symbol-string pair.  On the identifier
    side it always returns, and afterwards the two records of the pair have
    the same type name and the same code for the destructor and for the
    printer; when moreover, on each side, a precedence was set exactly when
    an associativity was, the two records also end with the same precedence
    and the same associativity. *)
Theorem symbol_check_alias_consistency_agrees st sym s :
  heap st !! sym = Some s ->
  (alias s = None \/ user_token_number s <> USER_NUMBER_HAS_STRING_ALIAS ->
   symbol_check_alias_consistency sym st = Ok tt st) /\
  (forall str r,
     alias s = Some str ->
     user_token_number s = USER_NUMBER_HAS_STRING_ALIAS ->
     heap st !! str = Some r ->
     exists st' s' r',
       symbol_check_alias_consistency sym st = Ok tt st' /\
       heap st' !! sym = Some s' /\ heap st' !! str = Some r' /\
       type_name s' = type_name r' /\
       (forall k, code (props s' k) = code (props r' k)) /\
       ((prec s = 0 <-> s_assoc s = undef_assoc) ->
        (prec r = 0 <-> s_assoc r = undef_assoc) ->
        prec s' = prec r' /\ s_assoc s' = s_assoc r')).
Proof.
  intros Hs. split.
  - intros Hno. unfold symbol_check_alias_consistency.
    rewrite (bind_ok _ _ st s st) by (unfold deref; by rewrite Hs).
    destruct (alias s) as [str|]; [|done].
    destruct Hno as [?|Hno]; [done|]. by rewrite bool_decide_eq_false_2.
  - intros str r Hal Hut Hr. unfold symbol_check_alias_consistency.
    rewrite (bind_ok _ _ st s st) by (unfold deref; by rewrite Hs).
    rewrite Hal, bool_decide_eq_true_2 by done.
    destruct (alias_type_phase st sym str s r Hs Hr)
      as (st1 & s1 & r1 & Hrun1 & Hs1 & Hr1 & Hty & Hps1 & Hpr1 &
          Hp1 & Ha1 & Hp1' & Ha1').
    rewrite (bind_ok _ _ _ _ _ Hrun1).
    destruct (alias_props_phase st1 sym str s1 r1 destructor Hs1 Hr1)
      as (st2 & s2 & r2 & Hrun2 & Hs2 & Hr2 & Hty2 & Hty2' & Hd & _ &
          Hp2 & Ha2 & Hp2' & Ha2').
    destruct (alias_props_phase st2 sym str s2 r2 printer Hs2 Hr2)
      as (st3 & s3 & r3 & Hrun3 & Hs3 & Hr3 & Hty3 & Hty3' & Hpc & Hother &
          Hp3 & Ha3 & Hp3' & Ha3').
    match goal with
    | |- context [bind (for_each ?l ?body) ?k st1] =>
        assert (for_each l body st1 = Ok tt st3) as Hloop
    end.
    { cbn [for_each]. rewrite (bind_ok _ _ _ _ _ Hrun2).
      by rewrite (bind_ok _ _ _ _ _ Hrun3). }
    rewrite (bind_ok _ _ _ _ _ Hloop).
    destruct (alias_prec_phase st3 sym str s3 r3 Hs3 Hr3)
      as (st4 & s4 & r4 & Hrun4 & Hs4 & Hr4 & Hty4 & Hty4' & Hps4 & Hps4' &
          Hprec).
    exists st4, s4, r4. split; [exact Hrun4|].
    split; [done|]. split; [done|]. split; [congruence|]. split.
    + intros k. rewrite Hps4, Hps4'.
      destruct k; [|done].
      destruct (Hother destructor) as [-> ->]; done.
    + intros Hsi Hri. apply Hprec.
      * rewrite Hp3, Ha3, Hp2, Ha2, Hp1, Ha1. done.
      * rewrite Hp3', Ha3', Hp2', Ha2', Hp1', Ha1'. done.
Qed.

End Symtab.

(** C8 as stated fails: on [typed_state] the second type wins. *)
Lemma symbol_type_set_keeps_original_counterexample :
  exists st',
    symbol_type_set 4 0 (Some "STR") 7%nat typed_state = Ok tt st' /\
    type_name <$> heap typed_state !! 0%nat = Some (Some "INT") /\
    type_name <$> heap st' !! 0%nat = Some (Some "STR").
Proof. eexists. split; [vm_compute; reflexivity|]. split; reflexivity. Qed.

(** The instance of [assoc_to_string] the examples use. *)
Definition example_assoc_to_string (a : assoc) : string :=
  match a with
  | undef_assoc => "undefined associativity"
  | precedence_assoc => "%precedence"
  | right_assoc => "%right"
  | left_assoc => "%left"
  | non_assoc => "%nonassoc"
  end.

(** C3: the header comment of [symbol_precedence_set] says that the call
    does nothing with [undef_assoc]; on a symbol that was only mentioned the
    code makes it a token, gives it the next token number and advances
    [ntokens]. *)
Theorem symbol_precedence_set_undef_assoc_changes_symbol :
  exists st',
    symbol_precedence_set (-1) 4 example_assoc_to_string 0 5 undef_assoc 9%nat
      mentioned_state = Ok tt st' /\
    heap mentioned_state !! 0%nat = Some (fresh_symbol "exp" 1%nat) /\
    ntokens mentioned_state = 3 /\
    heap st' !! 0%nat
      = Some (set_class token_sym (set_number 3 (fresh_symbol "exp" 1%nat))) /\
    ntokens st' = 4.
Proof. eexists. split; [vm_compute; reflexivity|]. repeat split; reflexivity. Qed.

(** C4 as stated fails: a token that holds number 3 is given the number
    [nvars = 1] when its class is set to [nterm_sym]. *)
Lemma symbol_class_set_renumbers_counterexample :
  exists st',
    symbol_class_set (-1) 0 nterm_sym 9%nat false token_state = Ok tt st' /\
    number <$> heap token_state !! 0%nat = Some 3 /\
    number <$> heap st' !! 0%nat = Some 1 /\
    nvars st' = 2.
Proof. eexists. split; [vm_compute; reflexivity|]. repeat split; reflexivity. Qed.

Lemma symbol_class_set_number_witness :
  heap token_state !! 0%nat
    = Some (set_number 3 (set_class token_sym (fresh_symbol "NUM" 1%nat))) /\
  exists st' s',
    symbol_class_set (-1) 0 token_sym 9%nat true token_state = Ok tt st' /\
    heap st' !! 0%nat = Some s' /\ class s' = token_sym /\
    number s' = 3 /\ nvars st' = 1 /\ ntokens st' = 4.
Proof.
  split; [reflexivity|].
  destruct (symbol_class_set_number (-1) token_state 0
              (set_number 3 (set_class token_sym (fresh_symbol "NUM" 1%nat)))
              token_sym 9%nat true eq_refl) as (st' & s' & H1 & H2 & H3 & H4).
  exists st', s'. repeat split; try assumption; apply H4.
Defined.

Lemma symbol_type_set_redeclares_and_overwrites_witness :
  heap typed_state !! 0%nat
    = Some (set_type_location 2%nat
              (set_type_name (Some "INT") (fresh_symbol "exp" 1%nat))) /\
  exists st',
    symbol_type_set 4 0 (Some "STR") 7%nat typed_state = Ok tt st' /\
    messages st' = redeclaration_messages 4 "%type" "exp" 2%nat 7%nat.
Proof.
  split; [reflexivity|]. eexists. split.
  - apply (symbol_type_set_redeclares_and_overwrites 4 typed_state 0
             (set_type_location 2%nat
                (set_type_name (Some "INT") (fresh_symbol "exp" 1%nat)))
             "STR" 7%nat); [reflexivity|discriminate].
  - reflexivity.
Defined.

(** C6: the call takes one off [ntokens] for a symbol that was never
    counted in it.  The symbol [exp] was only mentioned; [symbol_class_set]
    makes it a nonterminal and numbers it from [nvars], which moves from 1
    to 2 while [ntokens] stays 3.  [symbol_user_token_number_set (exp, 0)]
    then makes it the [endtoken] with the number 0 and decrements
    [ntokens] to 2, although the comment in the code gives as the reason
    for the decrement that the symbol was already counted in [ntokens];
    [nvars] still counts it. *)
Theorem symbol_user_token_number_set_zero_uncounts_nterm :
  exists st1 st2,
    symbol_class_set (-1) 0 nterm_sym 9%nat true mentioned_state = Ok tt st1 /\
    ntokens mentioned_state = 3 /\ nvars mentioned_state = 1 /\
    ntokens st1 = 3 /\ nvars st1 = 2 /\
    class <$> heap st1 !! 0%nat = Some nterm_sym /\
    number <$> heap st1 !! 0%nat = Some 1 /\
    symbol_user_token_number_set (-1) (-1) (-9991) 0 0 9%nat st1 = Ok tt st2 /\
    endtoken st2 = Some 0%nat /\
    class <$> heap st2 !! 0%nat = Some nterm_sym /\
    number <$> heap st2 !! 0%nat = Some 0 /\
    ntokens st2 = 2 /\ nvars st2 = 2.
Proof.
  eexists _, _. split; [vm_compute; reflexivity|].
  do 4 (split; [reflexivity|]).
  do 2 (split; [vm_compute; reflexivity|]).
  split; [vm_compute; reflexivity|].
  split; [reflexivity|]. do 2 (split; [vm_compute; reflexivity|]).
  split; reflexivity.
Qed.

Lemma symbol_user_token_number_set_zero_witness :
  heap token_state !! 0%nat
    = Some (set_number 3 (set_class token_sym (fresh_symbol "NUM" 1%nat))) /\
  exists st' s',
    symbol_user_token_number_set (-1) (-1) (-9991) 0 0 9%nat token_state
      = Ok tt st' /\
    endtoken st' = Some 0%nat /\ heap st' !! 0%nat = Some s' /\
    number s' = 0 /\ ntokens st' = 3 /\ nvars st' = 1.
Proof.
  split; [reflexivity|].
  destruct (symbol_user_token_number_set_zero (-1) (-1) (-9991) token_state 0
              (set_number 3 (set_class token_sym (fresh_symbol "NUM" 1%nat)))
              9%nat eq_refl) as (st' & s' & H1 & H2 & H3 & H4 & H5 & H6).
  - simpl. discriminate.
  - exists st', s'. repeat split; assumption.
Defined.

(** A quoted tag, as the scanner hands a literal string over. *)
Definition quoted (s : string) : string :=
  String dquote (s ++ String dquote EmptyString).

(** The token [FOO] (slot 3, user number 300) and the literal string
    ["foo"] (slot 4), not yet linked. *)
Definition unlinked_state : state :=
  state_of
    {[ 0%nat := set_user_token_number 300
                  (set_number 3 (set_class token_sym (fresh_symbol "FOO" 1%nat)));
       1%nat := set_number 4 (set_class token_sym (fresh_symbol (quoted "foo") 2%nat)) ]}
    5 1.

(** C7 as stated fails on its parenthesis: the pair is linked, then
    [symbol_user_token_number_set (FOO, 0, loc)] renumbers [FOO] alone, and
    the two records of the still existing pair hold different numbers. *)
Lemma symbol_make_alias_number_drifts_counterexample :
  exists st1 st2,
    symbol_make_alias (-9991) 4 0 1 5%nat unlinked_state = Ok tt st1 /\
    symbol_user_token_number_set (-1) (-1) (-9991) 0 0 6%nat st1 = Ok tt st2 /\
    alias <$> heap st2 !! 0%nat = Some (Some 1%nat) /\
    alias <$> heap st2 !! 1%nat = Some (Some 0%nat) /\
    number <$> heap st2 !! 0%nat = Some 0 /\
    number <$> heap st2 !! 1%nat = Some 3.
Proof.
  eexists _, _. split; [vm_compute; reflexivity|].
  split; [vm_compute; reflexivity|]. repeat split; reflexivity.
Qed.

Lemma symbol_make_alias_links_witness :
  exists st' s' r',
    symbol_make_alias (-9991) 4 0 1 5%nat unlinked_state = Ok tt st' /\
    heap st' !! 0%nat = Some s' /\ heap st' !! 1%nat = Some r' /\
    alias s' = Some 1%nat /\ alias r' = Some 0%nat /\
    number r' = number s' /\ number s' = 3 /\
    user_token_number s' = -9991 /\ user_token_number r' = 300 /\
    class r' = token_sym.
Proof.
  destruct (symbol_make_alias_links (-9991) 4 unlinked_state 0 1 _ _ 5%nat
              eq_refl eq_refl)
    as (st' & s' & r' & H1 & H2 & H3 & H4 & H5 & H6 & H7 & H8 & H9 & H10 & _).
  exists st', s', r'. repeat split; try assumption. apply H9. discriminate.
Defined.

(** The relations [A > B], [A > C], [C > D] between the symbols 3, 4, 5, 6
    of a grammar with 7 symbols, as [register_precedence] records them. *)
Definition registered_relations : option (list symgraph) :=
  n ← register_precedence 7 None 3 4;
  n ← register_precedence 7 (Some n) 3 5;
  register_precedence 7 (Some n) 5 6.

(** The same graph once [get_virtual_root] has linked the virtual root 0
    to the only root, 3; no two nodes have the same neighbours, so that
    [group_relations] forms no group. *)
Definition relation_graph : list symgraph :=
  node_update
    (node_update (default [] registered_relations) 0
       (fun s => mk_symgraph (id s) [3] (pred s) (groupnext s) (g_symbols s)
                   (indegree s) 1))
    3
    (fun s => mk_symgraph (id s) (succ s) [0] (groupnext s) (g_symbols s)
                (indegree s + 1) (outdegree s)).

(** C9: the legend that [print_rel_dot_graph] prints gives green to an edge
    from a tail of outdegree other than 1 to a head of indegree 1;
    [print_graph_link] prints such an edge (here 3 -> 4) in red. *)
Theorem print_graph_link_head_only_is_red :
  outdegree <$> node_at relation_graph 3 = Some 2 /\
  indegree <$> node_at relation_graph 4 = Some 1 /\
  print_graph_link 7 relation_graph 3 4 true =
    Some [ mk_printed "%i -> %i [" [arg_d 3; arg_d 4];
           mk_printed "color=%s];\n" [arg_s "red"] ] /\
  print_rel_dot_graph_links 7 0 relation_graph =
    Some [ mk_printed "%i -> %i [" [arg_d 5; arg_d 6];
           mk_printed "color=%s];\n" [arg_s "red"];
           mk_printed "%i -> %i [" [arg_d 3; arg_d 4];
           mk_printed "color=%s];\n" [arg_s "red"];
           mk_printed "%i -> %i [" [arg_d 3; arg_d 5];
           mk_printed "color=%s];\n" [arg_s "red"] ].
Proof. repeat split; vm_compute; reflexivity. Qed.



Local Close Scope Z_scope.

(** C1 as stated fails on a graph with a cycle: for two nodes that precede
    each other the closure relates every pair, every pair has an
    intermediate, and nothing is emitted. *)
Lemma transitive_reduction_cycle_counterexample :
  square 2 two_cycle /\
  tc (edge two_cycle) 0 1 /\
  ~ tc (edge (transitive_reduction 2 two_cycle)) 0 1.
Proof.
  split; [|split].
  - split; [reflexivity|]. repeat constructor.
  - apply tc_once. reflexivity.
  - assert (forall j, ~ edge (transitive_reduction 2 two_cycle) 0 j) as Hno.
    { intros j. unfold edge. vm_compute. destruct j as [|[|j]]; discriminate. }
    intros Htc. inversion Htc as [x y He|x y z He _]; subst; by apply (Hno _ He).
Qed.

Lemma triangle_acyclic : acyclic triangle.
Proof.
  assert (forall i j, tc (edge triangle) i j -> i < j) as Hlt.
  { intros i j Htc. induction Htc as [i j He|i j k He _ IH].
    - unfold edge in He.
      destruct i as [|[|[|i]]], j as [|[|[|j]]]; simpl in He; try discriminate; lia.
    - assert (i < j); [|lia]. unfold edge in He.
      destruct i as [|[|[|i]]], j as [|[|[|j]]]; simpl in He; try discriminate; lia. }
  intros i Hi. apply Hlt in Hi. lia.
Qed.

Lemma transitive_reduction_correct_witness :
  square 3 triangle /\ acyclic triangle /\
  (forall i k, tc (edge (transitive_reduction 3 triangle)) i k
               <-> tc (edge triangle) i k).
Proof.
  assert (square 3 triangle) as Hsq.
  { split; [reflexivity|]. repeat constructor. }
  split; [done|]. split; [apply triangle_acyclic|].
  destruct transitive_reduction_correct as [H _].
  destruct (H 3 triangle Hsq triangle_acyclic) as (_ & H2 & _). exact H2.
Defined.

Local Open Scope Z_scope.

(** The reader's assignments to the globals [accept], [errtoken],
    [undeftoken] and [startsymbol]. *)
Definition with_reader_globals (acc err und start : option nat) (st : state)
    : state :=
  mk_state (heap st) (symbol_table st) (semantic_type_table st)
    (symbols_sorted st) (semantic_types_sorted st) (symbols st) (nsyms st)
    (ntokens st) (nvars st) err und (endtoken st) acc start
    (startsymbol_location st) (max_user_token_number st)
    (token_translations st) (code_props_none st) (messages st).

(** The calls the reader makes for the grammar
    [%token A B 300  %token A 0  %token C 400  %%  s: A;]
    from the initial counters ([ntokens] starts at 1, for the end token). *)
Definition stale_number_script : M unit :=
  let* acc := symbol_get (-1) (-1) 1000 "$accept" 0%nat in
  symbol_class_set (-1) acc nterm_sym 0%nat false >>
  let* err := symbol_get (-1) (-1) 1000 "error" 0%nat in
  symbol_class_set (-1) err token_sym 0%nat false >>
  let* und := symbol_get (-1) (-1) 1000 "$undefined" 0%nat in
  symbol_class_set (-1) und token_sym 0%nat false >>
  let* a := symbol_get (-1) (-1) 1000 "A" 1%nat in
  symbol_class_set (-1) a token_sym 1%nat true >>
  let* b := symbol_get (-1) (-1) 1000 "B" 1%nat in
  symbol_class_set (-1) b token_sym 1%nat true >>
  symbol_user_token_number_set (-1) (-1) (-9991) b 300 1%nat >>
  symbol_class_set (-1) a token_sym 2%nat true >>
  symbol_user_token_number_set (-1) (-1) (-9991) a 0 2%nat >>
  let* c := symbol_get (-1) (-1) 1000 "C" 3%nat in
  symbol_class_set (-1) c token_sym 3%nat true >>
  symbol_user_token_number_set (-1) (-1) (-9991) c 400 3%nat >>
  let* s := symbol_get (-1) (-1) 1000 "s" 4%nat in
  symbol_class_set (-1) s nterm_sym 4%nat false >>
  modify (with_reader_globals (Some acc) (Some err) (Some und) (Some s)) >>
  symbols_check_defined.

(** The state before the first declaration: empty tables, and the counters
    as gram.c (not part of the sources at hand) initializes them, [ntokens]
    starting at 1 because the number 0 is kept for the end token. *)
Definition initial_state : state :=
  mk_state ∅ ∅ ∅ None None [] 0 1 0
    None None None None None empty_location 0 [] code_props_none_init [].

(** The state these calls leave. *)
Definition stale_number_state : state :=
  Eval vm_compute in
    match stale_number_script initial_state with
    | Ok _ st' => st'
    | Stop _ st' => st'
    end.

(** The state [symbols_pack] then leaves. *)
Definition stale_number_final : state :=
  Eval vm_compute in
    match symbols_pack (-1) (-1) (-9991) 4 example_assoc_to_string stale_number_state with
    | Ok _ st' => st'
    | Stop _ st' => st'
    end.

(** The calls the reader makes for the grammar
    [%token END 0  %token PLUS "+"  %token NUM 300  %%  s: NUM;]. *)
Definition ready_script : M unit :=
  let* acc := symbol_get (-1) (-1) 1000 "$accept" 0%nat in
  symbol_class_set (-1) acc nterm_sym 0%nat false >>
  let* err := symbol_get (-1) (-1) 1000 "error" 0%nat in
  symbol_class_set (-1) err token_sym 0%nat false >>
  let* und := symbol_get (-1) (-1) 1000 "$undefined" 0%nat in
  symbol_class_set (-1) und token_sym 0%nat false >>
  let* e := symbol_get (-1) (-1) 1000 "END" 1%nat in
  symbol_class_set (-1) e token_sym 1%nat true >>
  symbol_user_token_number_set (-1) (-1) (-9991) e 0 1%nat >>
  let* plus := symbol_get (-1) (-1) 1000 "PLUS" 2%nat in
  symbol_class_set (-1) plus token_sym 2%nat true >>
  let* str := symbol_get (-1) (-1) 1000 (quoted "+") 2%nat in
  symbol_class_set (-1) str token_sym 2%nat false >>
  symbol_make_alias (-9991) 4 plus str 2%nat >>
  let* num := symbol_get (-1) (-1) 1000 "NUM" 3%nat in
  symbol_class_set (-1) num token_sym 3%nat true >>
  symbol_user_token_number_set (-1) (-1) (-9991) num 300 3%nat >>
  let* s := symbol_get (-1) (-1) 1000 "s" 4%nat in
  symbol_class_set (-1) s nterm_sym 4%nat false >>
  modify (with_reader_globals (Some acc) (Some err) (Some und) (Some s)) >>
  symbols_check_defined.

(** The state these calls leave. *)
Definition ready_state : state :=
  Eval vm_compute in
    match ready_script initial_state with
    | Ok _ st' => st'
    | Stop _ st' => st'
    end.

(** The state [symbols_pack] then leaves. *)
Definition ready_final : state :=
  Eval vm_compute in
    match symbols_pack (-1) (-1) (-9991) 4 example_assoc_to_string ready_state with
    | Ok _ st' => st'
    | Stop _ st' => st'
    end.

(** The calls the reader makes for the grammar
    [%token A 100 B 200 C n  %%  s: A;]: the user declares no end token, so
    the reader (reader.c, not part of the sources at hand) creates [$end]
    with the number 0 and the user number 0 before the symbols are
    checked. *)
Definition three_tokens_script (n : Z) : M unit :=
  let* acc := symbol_get (-1) (-1) 1000 "$accept" 0%nat in
  symbol_class_set (-1) acc nterm_sym 0%nat false >>
  let* err := symbol_get (-1) (-1) 1000 "error" 0%nat in
  symbol_class_set (-1) err token_sym 0%nat false >>
  let* und := symbol_get (-1) (-1) 1000 "$undefined" 0%nat in
  symbol_class_set (-1) und token_sym 0%nat false >>
  let* a := symbol_get (-1) (-1) 1000 "A" 1%nat in
  symbol_class_set (-1) a token_sym 1%nat true >>
  symbol_user_token_number_set (-1) (-1) (-9991) a 100 1%nat >>
  let* b := symbol_get (-1) (-1) 1000 "B" 1%nat in
  symbol_class_set (-1) b token_sym 1%nat true >>
  symbol_user_token_number_set (-1) (-1) (-9991) b 200 1%nat >>
  let* c := symbol_get (-1) (-1) 1000 "C" 1%nat in
  symbol_class_set (-1) c token_sym 1%nat true >>
  symbol_user_token_number_set (-1) (-1) (-9991) c n 1%nat >>
  let* s := symbol_get (-1) (-1) 1000 "s" 2%nat in
  symbol_class_set (-1) s nterm_sym 2%nat false >>
  let* e := symbol_get (-1) (-1) 1000 "$end" 0%nat in
  update e (set_class token_sym) >>
  update e (set_number 0) >>
  update e (set_user_token_number 0) >>
  modify (with_endtoken (Some e)) >>
  modify (with_reader_globals (Some acc) (Some err) (Some und) (Some s)) >>
  symbols_check_defined.

(** The scenario E4: the tokens carry 100, 200 and 400, and neither
    [error] nor [$undefined] has a user number. *)
Definition e4_script : M unit := three_tokens_script 400.

(** The state these calls leave. *)
Definition e4_state : state :=
  Eval vm_compute in
    match e4_script initial_state with
    | Ok _ st' => st'
    | Stop _ st' => st'
    end.

(** The state in which [symbols_pack] then calls
    [symbols_token_translations_init]: the symbols are packed, the tokens
    in the first [ntokens] slots. *)
Definition e4_packed : state :=
  Eval vm_compute in
    match (symbols_do (symbol_check_alias_consistency (-1) (-9991) 4
                         example_assoc_to_string) >>
           modify (fun st => with_symbols
                               (replicate (Z.to_nat (nsyms st)) None) st) >>
           symbols_do (symbol_pack (-1) (-9991)) >>
           let* nsyms_old := gets nsyms in
           for_fold (upto nsyms_old) compact_step 0 >>
           modify (fun st => with_symbols
                               (take (Z.to_nat (nsyms st)) (symbols st)) st))
            e4_state with
    | Ok _ st' => st'
    | Stop _ st' => st'
    end.

(** The state [symbols_pack] leaves. *)
Definition e4_final : state :=
  Eval vm_compute in
    match symbols_pack (-1) (-1) (-9991) 4 example_assoc_to_string e4_state with
    | Ok _ st' => st'
    | Stop _ st' => st'
    end.

(** The same grammar with [C] declared [INT_MAX], before and after
    [symbols_pack]. *)
Definition int_max_state : state :=
  Eval vm_compute in
    match three_tokens_script INT_MAX initial_state with
    | Ok _ st' => st'
    | Stop _ st' => st'
    end.

Definition int_max_final : state :=
  Eval vm_compute in
    match symbols_pack (-1) (-1) (-9991) 4 example_assoc_to_string
            int_max_state with
    | Ok _ st' => st'
    | Stop _ st' => st'
    end.

(** C5, as the code has it.  When [symbols_token_translations_init]
    returns, on a state whose first [ntokens] slots hold the token records
    [toks] and whose numbers leave room in [int] for one more number per
    token: [max_user_token_number] is the maximum of 256 and the user token
    numbers the tokens of those slots end with (the declared ones, which
    are kept, and the ones handed out to the tokens that had none), and the
    error token has been given 256 exactly when no token of those slots
    held 256 and the error token had no user number.  In the scenario E4,
    as the reader's calls build it (the tokens carry 100, 200 and 400;
    [error] and [$undefined] have no user number), finalization gives 256
    to [error] and 401 to [$undefined], and [max_user_token_number] is
    401. *)
Theorem symbols_token_translations_init_numbers :
  (forall USER_NUMBER_UNDEFINED USER_NUMBER_HAS_STRING_ALIAS SUB_INDENT
          st st' toks e,
     USER_NUMBER_UNDEFINED < 0 ->
     tokens_are st toks ->
     errtoken st = Some e ->
     is_Some (heap st !! e) ->
     foldr Z.max 256 (utn USER_NUMBER_UNDEFINED (heap st) <$> toks)
       + Z.of_nat (length toks) <= INT_MAX ->
     symbols_token_translations_init USER_NUMBER_UNDEFINED
       USER_NUMBER_HAS_STRING_ALIAS SUB_INDENT st = Ok tt st' ->
     max_user_token_number st'
     = foldr Z.max 256 (utn USER_NUMBER_UNDEFINED (heap st') <$> toks) /\
     max_user_token_number st' <= INT_MAX /\
     (forall p, p ∈ toks ->
        utn USER_NUMBER_UNDEFINED (heap st') p <> USER_NUMBER_UNDEFINED) /\
     (forall p, utn USER_NUMBER_UNDEFINED (heap st) p <> USER_NUMBER_UNDEFINED ->
        utn USER_NUMBER_UNDEFINED (heap st') p
        = utn USER_NUMBER_UNDEFINED (heap st) p) /\
     ((utn USER_NUMBER_UNDEFINED (heap st') e = 256 /\
       utn USER_NUMBER_UNDEFINED (heap st) e <> 256) <->
      ((forall p, p ∈ toks -> utn USER_NUMBER_UNDEFINED (heap st) p <> 256) /\
       utn USER_NUMBER_UNDEFINED (heap st) e = USER_NUMBER_UNDEFINED))) /\
  (e4_script initial_state = Ok tt e4_state /\
   symbols_pack (-1) (-1) (-9991) 4 example_assoc_to_string e4_state
   = Ok tt e4_final /\
   errtoken e4_final = Some 1%nat /\ undeftoken e4_final = Some 2%nat /\
   utn (-1) (heap e4_state) 1%nat = -1 /\
   utn (-1) (heap e4_state) 2%nat = -1 /\
   utn (-1) (heap e4_final) <$> [3; 4; 5]%nat = [100; 200; 400] /\
   utn (-1) (heap e4_final) 1%nat = 256 /\
   utn (-1) (heap e4_final) 2%nat = 401 /\
   max_user_token_number e4_final = 401).
Proof.
  split.
  - intros UNU ALIAS SUB st st' toks e. apply symbols_token_translations_init_spec.
  - split; [vm_compute; reflexivity|]. split; [vm_compute; reflexivity|].
    repeat split; vm_compute; reflexivity.
Qed.

(** C5 as stated fails on its example: in the scenario E4 [$undefined] is
    a token without a user number, it takes the number above the highest
    declared one, and [max_user_token_number] ends at 401, not 400.  With
    [C] declared [INT_MAX] the increment wraps around: [$undefined] takes
    [INT_MIN], [max_user_token_number] comes back to [INT_MAX] at [C], and
    the allocation of [max_user_token_number + 1] entries ends the run. *)
Lemma symbols_token_translations_init_e4_counterexample :
  (e4_script initial_state = Ok tt e4_state /\
   symbols_pack (-1) (-1) (-9991) 4 example_assoc_to_string e4_state
   = Ok tt e4_final /\
   utn (-1) (heap e4_state) <$> [3; 4; 5]%nat = [100; 200; 400] /\
   utn (-1) (heap e4_state) 1%nat = -1 /\
   max_user_token_number e4_final <> 400) /\
  (three_tokens_script INT_MAX initial_state = Ok tt int_max_state /\
   symbols_pack (-1) (-1) (-9991) 4 example_assoc_to_string int_max_state
   = Stop memory_exhausted int_max_final /\
   utn (-1) (heap int_max_final) 5%nat = INT_MAX /\
   utn (-1) (heap int_max_final) 2%nat = INT_MIN /\
   max_user_token_number int_max_final = INT_MAX).
Proof.
  split.
  - split; [vm_compute; reflexivity|]. split; [vm_compute; reflexivity|].
    split; [vm_compute; reflexivity|]. split; [vm_compute; reflexivity|].
    vm_compute. discriminate.
  - split; [vm_compute; reflexivity|]. split; [vm_compute; reflexivity|].
    repeat split; vm_compute; reflexivity.
Qed.

Lemma symbols_token_translations_init_numbers_witness :
  symbols_token_translations_init (-1) (-9991) 4 e4_packed = Ok tt e4_final /\
  max_user_token_number e4_final
  = foldr Z.max 256 (utn (-1) (heap e4_final) <$> [7; 1; 2; 3; 4; 5]%nat) /\
  max_user_token_number e4_final <= INT_MAX /\
  utn (-1) (heap e4_final) 1%nat = 256.
Proof.
  assert (symbols_token_translations_init (-1) (-9991) 4 e4_packed
          = Ok tt e4_final) as Hrun by (vm_compute; reflexivity).
  split; [exact Hrun|].
  assert (forall p, p ∈ [7; 1; 2; 3; 4; 5]%nat ->
            p = 7%nat \/ p = 1%nat \/ p = 2%nat \/ p = 3%nat \/ p = 4%nat
            \/ p = 5%nat)
    as Hin by (intros p; rewrite !elem_of_cons, elem_of_nil; tauto).
  destruct (proj1 symbols_token_translations_init_numbers (-1) (-9991) 4%nat
              e4_packed e4_final [7; 1; 2; 3; 4; 5]%nat 1%nat)
    as (Hmax & Hint & _ & _ & Hiff).
  - lia.
  - split; [reflexivity|]. split.
    + intros i p Hp. do 6 (destruct i as [|i]; [by injection Hp as <-|]).
      discriminate.
    + intros p Hp.
      destruct (Hin p Hp) as [->|[->|[->|[->|[->| ->] ] ] ] ];
        vm_compute; eauto.
  - reflexivity.
  - vm_compute. eauto.
  - vm_compute. discriminate.
  - exact Hrun.
  - split; [exact Hmax|]. split; [exact Hint|].
    apply Hiff. split; [|vm_compute; reflexivity].
    intros p Hp.
    destruct (Hin p Hp) as [->|[->|[->|[->|[->| ->] ] ] ] ];
      vm_compute; discriminate.
Defined.

Lemma stale_number_run :
  symbols_pack (-1) (-1) (-9991) 4 example_assoc_to_string stale_number_state
  = Ok tt stale_number_final.
Proof. vm_compute. reflexivity. Qed.

(** C2: the numbering that the claim describes is lost on a grammar that
    finalizes with one warning and no error.  For
    [%token A B 300  %token A 0  %token C 400  %%  s: A;] the tokens [B] and
    [C] come to [symbols_pack] with the same number 4, since giving [A] the
    user number 0 took one off [ntokens].  [symbol_pack] puts both in the
    slot 4, where [C] replaces [B]; the compaction moves [C] to 3 and
    [$accept] to 4 and leaves [ntokens] at 4 and [nsyms] at 6 for a table
    of 7 symbols.  [B] is in no slot of [symbols] and keeps the number 4,
    which is not below [ntokens] and is the number of [$accept], so the
    user number 300 of [B] is translated to [$accept]. *)
Theorem symbols_pack_drops_renumbered_token :
  stale_number_script initial_state = Ok tt stale_number_state /\
  symbols_pack (-1) (-1) (-9991) 4 example_assoc_to_string stale_number_state
  = Ok tt stale_number_final /\
  d_flags <$> messages stale_number_final = [Wother] /\
  (exists b c, heap stale_number_state !! 4%nat = Some b /\
               heap stale_number_state !! 5%nat = Some c /\
               tag b = "B" /\ tag c = "C" /\
               class b = token_sym /\ class c = token_sym /\
               number b = 4 /\ number c = 4) /\
  ntokens stale_number_final = 4 /\
  nsyms stale_number_final = 6 /\
  size (symbol_table stale_number_final) = 7%nat /\
  symbols stale_number_final
  = [Some 3; Some 1; Some 2; Some 5; Some 0; Some 6]%nat /\
  exists b acc,
    heap stale_number_final !! 4%nat = Some b /\
    tag b = "B" /\ class b = token_sym /\ user_token_number b = 300 /\
    number b = 4 /\ ~ (0 <= number b < ntokens stale_number_final) /\
    heap stale_number_final !! 0%nat = Some acc /\
    tag acc = "$accept" /\ class acc = nterm_sym /\ number acc = 4 /\
    token_translations stale_number_final !! 300%nat = Some 4.
Proof.
  split; [vm_compute; reflexivity|]. split; [exact stale_number_run|].
  split; [vm_compute; reflexivity|].
  split; [eexists _, _; split; [vm_compute; reflexivity|];
          split; [vm_compute; reflexivity|]; by repeat split|].
  do 4 (split; [vm_compute; reflexivity|]).
  eexists _, _. split; [vm_compute; reflexivity|].
  do 4 (split; [reflexivity|]).
  split; [vm_compute; intros [_ H]; discriminate H|].
  split; [vm_compute; reflexivity|].
  do 3 (split; [reflexivity|]). vm_compute. reflexivity.
Qed.

Lemma ready_run :
  symbols_pack (-1) (-1) (-9991) 4 example_assoc_to_string ready_state
  = Ok tt ready_final.
Proof. vm_compute. reflexivity. Qed.

(** The sorted view of the table of [ready_state]. *)
Definition ready_sorted : list nat := [5; 0; 2; 3; 6; 4; 1; 7]%nat.

(** Splits a membership in [ready_sorted] into its eight cases. *)
Ltac view_cases H :=
  unfold ready_sorted in H;
  repeat (apply elem_of_cons in H as [->|H]);
  [..|by apply elem_of_nil in H].

(** Proves a membership in [ready_sorted]. *)
Ltac in_view :=
  unfold ready_sorted;
  repeat first [apply list_elem_of_here | apply list_elem_of_further].

(** Reads the record a lookup hypothesis stands for. *)
Ltac record_at H := vm_compute in H; injection H as <-.

Lemma ready_state_pack_ready :
  pack_ready (-1) (-9991) ready_state ready_sorted.
Proof.
  split.
  - reflexivity.
  - vm_compute. reflexivity.
  - apply (bool_decide_unpack _). vm_compute. exact I.
  - vm_compute. repeat split; discriminate.
  - intros p Hp. view_cases Hp; (eexists; split; [vm_compute; reflexivity|]);
      vm_compute; discriminate.
  - intros p s Hp Hs. view_cases Hp; record_at Hs; vm_compute;
      intros; try discriminate; (split; [discriminate|reflexivity]).
  - intros p s Hp Hs. view_cases Hp; record_at Hs; vm_compute;
      intros; try tauto; (split; [discriminate|reflexivity]).
  - intros p q s r Hp Hq Hs Hr.
    view_cases Hp; record_at Hs; view_cases Hq; record_at Hr; vm_compute;
      try reflexivity; intros; try discriminate; exfalso; intuition congruence.
  - intros k Hk. change (0 <= k < 2) in Hk.
    assert (k = 0 \/ k = 1) as [-> | ->] by lia.
    + exists 0%nat. eexists. split; [in_view|].
      split; [vm_compute; reflexivity|]. done.
    + exists 7%nat. eexists. split; [in_view|].
      split; [vm_compute; reflexivity|]. done.
  - intros p s a Hp Hs. view_cases Hp; record_at Hs; simpl; intros Ha;
      try discriminate; injection Ha as <-;
      (split; [reflexivity|]); (split; [in_view|]);
      (eexists; split; [vm_compute; reflexivity|]);
      vm_compute; intuition congruence.
  - intros p s Hp Hs. view_cases Hp; record_at Hs; vm_compute;
      intros; try discriminate; by eexists.
Qed.

Lemma symbols_pack_numbering_witness :
  pack_ready (-1) (-9991) ready_state ready_sorted /\
  symbols_pack (-1) (-1) (-9991) 4 example_assoc_to_string ready_state
  = Ok tt ready_final /\
  Z.of_nat (length (symbols ready_final)) = nsyms ready_final /\
  (forall p s, p ∈ ready_sorted -> heap ready_final !! p = Some s ->
     class s = token_sym -> 0 <= number s < ntokens ready_final).
Proof.
  split; [exact ready_state_pack_ready|]. split; [exact ready_run|].
  destruct (symbols_pack_numbering (-1) (-1) (-9991) 4 example_assoc_to_string
              ready_state ready_sorted ready_final
              ready_state_pack_ready ready_run) as (H1 & _ & H3 & _).
  split; [exact H1|exact H3].
Defined.

(** ** The properties of the helpers on concrete inputs *)

Lemma register_precedence_second_symbol_sorted_witness :
  let '(l, b) := register_precedence_second_symbol [3; 7] 5 in
  Sorted.StronglySorted Z.lt l /\
  (forall y, y ∈ l <-> y ∈ [3; 7] \/ y = 5) /\
  (b = true <-> 5 ∉ [3; 7]) /\
  (b = false -> l = [3; 7]) /\
  length l = (length [3; 7] + (if b then 1 else 0))%nat.
Proof.
  apply (register_precedence_second_symbol_sorted [3; 7] 5).
  repeat constructor; lia.
Defined.

Lemma register_then_delete_witness :
  delete_one_link (register_precedence_second_symbol [3; 7] 5).1 5
  = Some [3; 7].
Proof.
  apply (register_then_delete [3; 7] 5).
  apply (bool_decide_unpack _). vm_compute. exact I.
Defined.

Lemma grow_keeps_entries_witness :
  let v' := grow (Some (mk_intvect 2 [5; 6])) 4 in
  iv_size v' = 14 /\ iv_t v' !! 1%nat = Some 6 /\ intvect_wf v'.
Proof.
  destruct (grow_keeps_entries (Some (mk_intvect 2 [5; 6])) 4)
    as (Hwf & _ & _ & _ & Hsize & Hkeep & _).
  - lia.
  - split; simpl; lia.
  - split; [apply Hsize; simpl; lia|].
    split; [by apply Hkeep|exact Hwf].
Defined.

(** The graph after the first relation [3 > 4] of a grammar with 7
    symbols. *)
Definition first_relation : list symgraph :=
  Eval vm_compute in
    match register_precedence 7 None 3 4 with
    | Some l => l
    | None => []
    end.

Lemma register_precedence_keeps_graph_witness : prec_wf first_relation.
Proof.
  apply (register_precedence_keeps_graph 7 None 3 4 first_relation I).
  vm_compute. reflexivity.
Defined.

Lemma register_precedence_adds_one_link_witness :
  length first_relation = length (nodes_of 7 None) /\
  forall i s', first_relation !! i = Some s' ->
    exists s, nodes_of 7 None !! i = Some s /\
      id s' = id s /\ groupnext s' = groupnext s /\
      g_symbols s' = g_symbols s /\
      (forall j, j ∈ succ s' <-> j ∈ succ s \/ (Z.of_nat i = 3 /\ j = 4)) /\
      (forall j, j ∈ pred s' <-> j ∈ pred s \/ (Z.of_nat i = 4 /\ j = 3)).
Proof.
  apply (register_precedence_adds_one_link 7 None 3 4 first_relation I).
  vm_compute. reflexivity.
Defined.

Lemma register_precedence_twice_witness :
  register_precedence 7 (Some first_relation) 3 4 = Some first_relation.
Proof.
  apply (register_precedence_twice 7 None 3 4 first_relation I).
  vm_compute. reflexivity.
Defined.

Lemma symbol_get_creates_then_finds_witness :
  exists p st',
    symbol_get (-1) (-1) 1000 "exp" 1%nat initial_state = Ok p st' /\
    heap initial_state !! p = None /\
    heap st' = <[p := new_symbol (-1) (-1) "exp" 1%nat]> (heap initial_state) /\
    symbol_table st' = <["exp" := p]> (symbol_table initial_state) /\
    nsyms st' = nsyms initial_state + 1 /\
    messages st' = messages initial_state ++ dash_warning "exp" 1%nat /\
    symbol_get (-1) (-1) 1000 "exp" 9%nat st' = Ok p st'.
Proof.
  apply (symbol_get_creates_then_finds (-1) (-1) 1000 "exp" 1%nat 9%nat
           initial_state); [reflexivity|reflexivity|].
  vm_compute. discriminate.
Defined.

Lemma table_wf_initial_state : table_wf initial_state.
Proof. intros key p H. vm_compute in H. discriminate. Qed.

Lemma symbol_get_keeps_table_witness :
  exists p st',
    symbol_get (-1) (-1) 1000 "exp" 1%nat initial_state = Ok p st' /\
    table_wf st' /\ symbol_table st' !! "exp" = Some p.
Proof.
  eexists _, _. split; [vm_compute; reflexivity|].
  destruct (symbol_get_keeps_table (-1) (-1) 1000 "exp" 1%nat initial_state
              _ _ table_wf_initial_state
              ltac:(vm_compute; reflexivity))
    as (Hwf & Hkey & _).
  split; [exact Hwf|exact Hkey].
Defined.

Lemma symbol_get_too_many_symbols_witness :
  exists st',
    symbol_get (-1) (-1) 1000 "exp" 1%nat (with_nsyms 1000 initial_state)
    = Stop fatal_exit st' /\
    last (messages st')
    = Some (mk_diagnostic None fatal None
              "too many symbols in input grammar (limit is %d)" [arg_d 1000]) /\
    symbol_table st' = symbol_table (with_nsyms 1000 initial_state) /\
    nsyms st' = nsyms (with_nsyms 1000 initial_state).
Proof.
  apply (symbol_get_too_many_symbols (-1) (-1) 1000 "exp" 1%nat
           (with_nsyms 1000 initial_state)); reflexivity.
Defined.

Lemma is_identifier_plain_name_witness :
  dash_warning "exp" 1%nat = [] /\
  forall s, tag s = "exp" -> symbol_is_dummy s = false.
Proof.
  apply (proj2 (proj2 (is_identifier_plain_name "exp" 1%nat))).
  vm_compute. reflexivity.
Defined.

Lemma dummy_symbol_get_creates_witness :
  exists p st' r,
    dummy_symbol_get (-1) (-1) 1000 0 1%nat initial_state = Ok (p, 1) st' /\
    heap st' !! p = Some r /\ tag r = "$@1" /\
    symbol_is_dummy r = true /\ is_identifier (Some (tag r)) = false /\
    class r = nterm_sym /\ number r = nvars initial_state /\
    nvars st' = nvars initial_state + 1.
Proof.
  destruct (dummy_symbol_get_creates (-1) (-1) 1000 0 1%nat initial_state)
    as (p & st' & r & Hrun & _ & Hr & Hrec & Hdummy & Hid & Hnvars & _).
  - lia.
  - vm_compute. reflexivity.
  - reflexivity.
  - vm_compute. discriminate.
  - exists p, st', r. split; [exact Hrun|]. split; [exact Hr|].
    split; [by rewrite Hrec|]. split; [exact Hdummy|]. split; [exact Hid|].
    split; [by rewrite Hrec|]. split; [by rewrite Hrec|]. exact Hnvars.
Defined.

Lemma symbol_id_get_of_alias_pair_witness :
  exists st',
    symbol_make_alias (-9991) 4 0 1 5%nat unlinked_state = Ok tt st' /\
    symbol_id_get (-9991) 1 st' = Ok (Some "FOO") st' /\
    symbol_id_get (-9991) 0 st' = Stop assertion_failed st'.
Proof.
  apply (symbol_id_get_of_alias_pair (-9991) 4 unlinked_state 0 1 _ _ 5%nat
           eq_refl eq_refl); try reflexivity; discriminate.
Defined.

(** A destructor given in the grammar. *)
Definition example_destructor : code_props :=
  mk_code_props CODE_PROPS_USER (Some "free ($$);") 7%nat false.

Lemma symbol_code_props_set_then_get_witness :
  exists st',
    symbol_code_props_set 4 0 destructor example_destructor typed_state
    = Ok tt st' /\
    messages st' = messages typed_state /\
    symbol_code_props_get 0 destructor st'
    = Ok (props_of_symbol 0 destructor) st'.
Proof.
  destruct (symbol_code_props_set_then_get 4 typed_state 0 _ destructor
              example_destructor eq_refl)
    as (st' & Hrun & _ & Hmsg & _ & Hget).
  exists st'. split; [exact Hrun|]. split.
  - rewrite Hmsg. apply app_nil_r.
  - apply Hget. discriminate.
Defined.



(** The state [symbol_check_defined] leaves from [mentioned_state]. *)
Definition mentioned_checked : state :=
  Eval vm_compute in
    match symbol_check_defined 0 mentioned_state with
    | Ok _ st' => st'
    | Stop _ st' => st'
    end.

Lemma symbol_check_defined_settles_class_witness :
  symbol_check_defined 0 mentioned_state = Ok tt mentioned_checked /\
  exists s',
    heap mentioned_checked !! 0%nat = Some s' /\ class s' = nterm_sym /\
    number s' = nvars mentioned_state /\
    nvars mentioned_checked = nvars mentioned_state + 1.
Proof.
  assert (symbol_check_defined 0 mentioned_state = Ok tt mentioned_checked)
    as Hrun by (vm_compute; reflexivity).
  split; [exact Hrun|].
  destruct (symbol_check_defined_settles_class mentioned_state 0 _ eq_refl)
    as [_ Hok].
  destruct (Hok _ Hrun) as ((s' & Hs' & Hcase) & _).
  exists s'. split; [exact Hs'|].
  destruct (decide (class (fresh_symbol "exp" 1%nat) = unknown_sym))
    as [_|Hne]; [|by destruct Hne].
  destruct Hcase as (_ & ? & ? & ? & _). by repeat split.
Defined.

(** The state after the reader met [exp] (with rules) and [NUM] (used in a
    rule, never declared), and the state [symbols_check_defined] then
    leaves. *)
Definition met_state : state :=
  Eval vm_compute in
    match (let* e := symbol_get (-1) (-1) 1000 "exp" 1%nat in
           symbol_class_set (-1) e nterm_sym 1%nat false >>
           let* n := symbol_get (-1) (-1) 1000 "NUM" 2%nat in
           ret tt) initial_state with
    | Ok _ st' => st'
    | Stop _ st' => st'
    end.

Definition met_checked : state :=
  Eval vm_compute in
    match symbols_check_defined met_state with
    | Ok _ st' => st'
    | Stop _ st' => st'
    end.

Lemma symbols_check_defined_classifies_witness :
  symbols_check_defined met_state = Ok tt met_checked /\
  symbol_table met_checked = symbol_table met_state /\
  forall key p, symbol_table met_state !! key = Some p ->
    classified met_checked p.
Proof.
  assert (symbols_check_defined met_state = Ok tt met_checked) as Hrun
    by (vm_compute; reflexivity).
  split; [exact Hrun|].
  apply (symbols_check_defined_classifies met_state met_checked eq_refl Hrun).
Defined.

Definition met_walked : state :=
  Eval vm_compute in
    match symbols_do symbol_check_defined met_state with
    | Ok _ st' => st'
    | Stop _ st' => st'
    end.

Lemma symbols_do_sorted_walk_witness :
  exists view,
    view ≡ₚ (map_to_list (symbol_table met_state)).*2 /\
    Sorted.Sorted
      (fun p q => strcmp (tag_at (heap met_state) p)
                         (tag_at (heap met_state) q) <= 0) view /\
    symbols_sorted met_walked = Some view /\
    for_each view symbol_check_defined
      (with_symbols_sorted (Some view) met_state) = Ok tt met_walked.
Proof.
  apply (symbols_do_sorted_walk symbol_check_defined met_state met_walked
           eq_refl symbol_check_defined_same_sorted).
  vm_compute. reflexivity.
Defined.

Lemma user_token_number_redeclaration_order_witness :
  user_token_number_redeclaration 4 300 1 0 unlinked_state
  = user_token_number_redeclaration 4 300 0 1 unlinked_state.
Proof.
  destruct (user_token_number_redeclaration_order 4 unlinked_state 300 0 1
              _ _ eq_refl eq_refl) as (_ & _ & Hsym).
  apply Hsym. discriminate.
Defined.

(** The packed state of the example grammar, with [token_translations] as
    it is before any token took its slot: every slot holds the number of
    [$undefined]. *)
Definition untranslated_state : state :=
  Eval vm_compute in with_token_translations (replicate 303 2) ready_final.

Definition translated_state : state :=
  Eval vm_compute in
    match symbol_translation (-9991) 4 6 untranslated_state with
    | Ok _ st' => st'
    | Stop _ st' => st'
    end.

Lemma symbol_translation_takes_slot_witness :
  symbol_translation (-9991) 4 6 untranslated_state = Ok tt translated_state /\
  heap translated_state = heap untranslated_state /\
  messages translated_state = messages untranslated_state.
Proof.
  assert (symbol_translation (-9991) 4 6 untranslated_state
          = Ok tt translated_state) as Hrun by (vm_compute; reflexivity).
  split; [exact Hrun|].
  destruct (symbol_translation_takes_slot (-9991) 4 untranslated_state
              translated_state 6 _ eq_refl Hrun) as (Hheap & _ & _).
  split; [exact Hheap|]. vm_compute. reflexivity.
Defined.

(** The packed state of the example grammar once ["+"] is declared
    [%left] and [NUM] and [END] are given a [%precedence]. *)
Definition precedence_state : state :=
  Eval vm_compute in
    match (symbol_precedence_set (-1) 4 example_assoc_to_string 5 1
             left_assoc 5%nat >>
           symbol_precedence_set (-1) 4 example_assoc_to_string 6 2
             precedence_assoc 6%nat >>
           symbol_precedence_set (-1) 4 example_assoc_to_string 3 3
             precedence_assoc 7%nat) ready_final with
    | Ok _ st' => st'
    | Stop _ st' => st'
    end.

(** The graph once the precedence of [NUM] (number 4) over ["+"]
    (number 3) solved a conflict. *)
Definition used_relation : list symgraph :=
  Eval vm_compute in
    match register_precedence 7 None 4 3 with
    | Some l => l
    | None => []
    end.

Definition precedence_warned : state :=
  Eval vm_compute in
    match print_precedence_warnings (Some used_relation) precedence_state with
    | Ok _ st' => st'
    | Stop _ st' => st'
    end.

Lemma print_precedence_warnings_after_register_witness :
  print_precedence_warnings (Some used_relation) precedence_state
  = Ok used_relation precedence_warned /\
  messages precedence_warned
  = messages precedence_state ++
    [mk_diagnostic (Some 1%nat) Wprecedence None "useless precedence for %s"
       [arg_s "END"]] /\
  exists w : Z -> list diagnostic,
    precedence_warned
    = with_messages (messages precedence_state ++
                     concat (w <$> upto (nsyms precedence_state)))
        precedence_state /\
    w 4 = [] /\ w 3 = [].
Proof.
  assert (print_precedence_warnings (Some used_relation) precedence_state
          = Ok used_relation precedence_warned) as Hrun
    by (vm_compute; reflexivity).
  split; [exact Hrun|]. split; [vm_compute; reflexivity|].
  destruct (print_precedence_warnings_after_register 7 None 4 3 used_relation
              precedence_state used_relation precedence_warned
              (init_prec_nodes_wf 7) ltac:(vm_compute; reflexivity) Hrun)
    as (_ & w & Hst & Ha & Hb & _).
  exists w. split; [exact Hst|]. split; [exact Ha|exact Hb].
Defined.

(** The marks once the associativity of ["+"] (number 3) solved a
    conflict with itself. *)
Definition used_marks : list bool :=
  Eval vm_compute in
    match register_assoc 7 None 3 3 with
    | Some l => l
    | None => []
    end.

Definition assoc_warned : state :=
  Eval vm_compute in
    match print_assoc_warnings (Some used_marks) precedence_state with
    | Ok _ st' => st'
    | Stop _ st' => st'
    end.

Lemma print_assoc_warnings_after_register_witness :
  print_assoc_warnings (Some used_marks) precedence_state
  = Ok used_marks assoc_warned /\
  messages assoc_warned = messages precedence_state /\
  exists w : Z -> list diagnostic,
    assoc_warned
    = with_messages (messages precedence_state ++
                     concat (w <$> upto (nsyms precedence_state)))
        precedence_state /\
    w 3 = [].
Proof.
  assert (print_assoc_warnings (Some used_marks) precedence_state
          = Ok used_marks assoc_warned) as Hrun
    by (vm_compute; reflexivity).
  split; [exact Hrun|]. split; [vm_compute; reflexivity|].
  destruct (print_assoc_warnings_after_register 7 None 3 3 used_marks
              precedence_state used_marks assoc_warned
              ltac:(vm_compute; reflexivity) Hrun)
    as (_ & _ & w & Hst & _ & Hw).
  exists w. split; [exact Hst|].
  destruct (Hw 3 5%nat _ ltac:(lia) eq_refl eq_refl) as [Hsilent _].
  apply Hsilent. left. reflexivity.
Defined.

(** The pair [FOO] / ["foo"] once linked, [FOO] having the type [INT] and
    ["foo"] a destructor and a [%left] precedence. *)
Definition pair_state : state :=
  Eval vm_compute in
    match (symbol_make_alias (-9991) 4 0 1 5%nat >>
           symbol_type_set 4 0 (Some "INT") 6%nat >>
           symbol_code_props_set 4 1 destructor example_destructor >>
           symbol_precedence_set (-1) 4 example_assoc_to_string 1 2
             left_assoc 8%nat) unlinked_state with
    | Ok _ st' => st'
    | Stop _ st' => st'
    end.

Lemma symbol_check_alias_consistency_agrees_witness :
  exists st' s' r',
    symbol_check_alias_consistency (-1) (-9991) 4 example_assoc_to_string 0
      pair_state = Ok tt st' /\
    heap st' !! 0%nat = Some s' /\ heap st' !! 1%nat = Some r' /\
    type_name s' = type_name r' /\
    (forall k, code (props s' k) = code (props r' k)) /\
    prec s' = prec r' /\ s_assoc s' = s_assoc r'.
Proof.
  pose proof (proj2 (symbol_check_alias_consistency_agrees (-1) (-9991) 4
                       example_assoc_to_string pair_state 0 _ eq_refl))
    as Hpair.
  destruct (Hpair 1%nat _ eq_refl eq_refl eq_refl)
    as (st' & s' & r' & Hrun & Hs' & Hr' & Hty & Hcode & Hprec).
  exists st', s', r'. do 5 (split; [assumption|]). apply Hprec.
  - split; intros _; reflexivity.
  - split; discriminate.
Defined.
